(** * LiveSectional animation and reliability engine: a shallow embedding

    The definitions below follow [reliability_manager.py] (CircuitBreaker,
    FrameRateLimiter, SharedClock) and [animation_controller.py] (the effect
    classes and the AnimationController).

    Conventions of the embedding.
    - Python ints are [Z] and a Python float is the rational it denotes
      ([Q]).  The float arithmetic of the effect classes and of the renderer
      is double-precision arithmetic: each operation returns the double
      nearest to the exact result ([Float.round], IEEE 754 binary64, ties to
      even).  Results past the largest double, infinities and NaN are outside
      the embedding.  The arithmetic on wall-clock readings (the clock, the
      limiter, the breaker and the monitor of reliability_manager.py, and
      the frame counter of the controller) is kept on exact rationals.
      [int(x)] on a float is truncation toward zero ([py_int]).
    - [time.time()] is an input: every function that reads the wall clock
      takes the value it reads as an argument, one argument per read, in the
      order of the reads.
    - A function that can raise returns a [Result]; mutation of [self] is
      explicit state passing.
    - The effect table, a Python dict, is an association list in insertion
      order, which is the order in which a dict is iterated. *)

From Stdlib Require Import QArith ZArith List String Bool Lia Lqa.
From Stdlib Require Import Qround Qminmax Qabs Qpower Qreduction.
From Stdlib Require Import Sorting.Sorted Sorting.Permutation.
Import ListNotations.

Open Scope Q_scope.

(* ================================================================== *)
(** * Numbers and exceptions *)

Definition Qltb (x y : Q) : bool := negb (Qle_bool y x).

(** [int(x)] for a float [x]: truncation toward zero. *)
Definition py_int (x : Q) : Z := Z.quot (Qnum x) (Zpos (Qden x)).

(** The exact value of [x % m]: the result takes the sign of the divisor.
    The caller checks [m] against zero first (Python raises there). *)
Definition py_fmod (x m : Q) : Q := x - m * inject_Z (Qfloor (x / m)).

(** ** Double-precision floats

    A double is a rational [m * 2^e] with [|m| < 2^53] and [-1074 <= e].
    [round x] is the double nearest to [x], the one with the even [m] when
    two are equally near. *)
Module Float.

(** The integer [k] with [2^k <= x < 2^(k+1)], for a positive [x]. *)
Definition ilog2 (x : Q) : Z :=
  let k := (Z.log2 (Qnum x) - Z.log2 (Zpos (Qden x)))%Z in
  if Qle_bool (2 ^ k) x then k else (k - 1)%Z.

(** The exponent of the last place of the doubles around [x]: 53 significant
    bits, and no exponent below that of the subnormal numbers. *)
Definition exponent (x : Q) : Z := Z.max (ilog2 (Qabs x) - 52) (-1074).

(** The integer nearest to [y], the even one on a tie. *)
Definition nearest_even (y : Q) : Z :=
  let f := Qfloor y in
  match Qcompare (y - inject_Z f) (1 # 2) with
  | Lt => f
  | Gt => (f + 1)%Z
  | Eq => if Z.even f then f else (f + 1)%Z
  end.

Definition round (x : Q) : Q :=
  if Qeq_bool x 0 then 0
  else
    let e := exponent x in
    Qred (inject_Z (nearest_even (x / 2 ^ e)) * 2 ^ e).

(** [x + y], [x - y], [x * y] and [x / y] on floats; the caller of [div]
    has tested the divisor against zero. *)
Definition add (x y : Q) : Q := round (x + y).

Definition sub (x y : Q) : Q := round (x - y).

Definition mul (x y : Q) : Q := round (x * y).

Definition div (x y : Q) : Q := round (x / y).

(** [float(n)], the conversion an int undergoes when it meets a float. *)
Definition of_int (n : Z) : Q := round (inject_Z n).

(** [x % m] on floats: the C [fmod], which is exact, followed by one
    rounded addition of [m] when the signs differ. *)
Definition fmod (x m : Q) : Q := round (py_fmod x m).

(** The rational is a double. *)
Definition is_float (x : Q) : Prop := round x == x.

End Float.

Inductive exn : Type :=
| ZeroDivisionError
| KeyError (k : string)
| IndexError
| ValueError
| Exception (msg : string).

Inductive Result (A : Type) : Type :=
| Ok (a : A)
| Raise (e : exn).
Arguments Ok {A} a.
Arguments Raise {A} e.

Definition bind {A B : Type} (r : Result A) (k : A -> Result B) : Result B :=
  match r with
  | Ok a => k a
  | Raise e => Raise e
  end.

Notation "x <- c1 ;; c2" := (bind c1 (fun x => c2))
  (at level 61, c1 at next level, right associativity).

(* ================================================================== *)
(** * reliability_manager.py *)

(** ** class CircuitBreaker *)
Module CircuitBreaker.

Inductive State : Type := CLOSED | OPEN | HALF_OPEN.

Record t : Type := mk {
  failure_threshold : Z;
  recovery_timeout : Q;
  failure_count : Z;
  last_failure_time : Q;
  state : State
}.

(** [__init__] *)
Definition init (failure_threshold : Z) (recovery_timeout : Q) : t :=
  mk failure_threshold recovery_timeout 0%Z 0 CLOSED.

Definition set_state (b : t) (s : State) : t :=
  mk (failure_threshold b) (recovery_timeout b) (failure_count b)
     (last_failure_time b) s.

Section Call.
(** The delegate [func], applied to its arguments, acts on a world [W]: it either
    returns a value or raises, and in both cases leaves a new world. *)
Context {W R : Type}.

Definition delegate : Type := W -> Result R * W.

(** [call].  [t_gate] is the clock read by the OPEN test, [t_fail] the
    clock read by the [except] branch. *)
Definition call (b : t) (func : delegate) (t_gate t_fail : Q) (w : W)
  : Result R * t * W :=
  let gate :=
    match state b with
    | OPEN =>
        if Qltb (recovery_timeout b) (t_gate - last_failure_time b)
        then Ok (set_state b HALF_OPEN)
        else Raise (Exception "Circuit breaker is OPEN")
    | _ => Ok b
    end in
  match gate with
  | Raise e => (Raise e, b, w)
  | Ok b1 =>
      match func w with
      | (Ok result, w') =>
          let b2 :=
            match state b1 with
            | HALF_OPEN =>
                mk (failure_threshold b1) (recovery_timeout b1) 0%Z
                   (last_failure_time b1) CLOSED
            | _ => b1
            end in
          (Ok result, b2, w')
      | (Raise e, w') =>
          let n := (failure_count b1 + 1)%Z in
          let s := if (failure_threshold b1 <=? n)%Z then OPEN
                   else state b1 in
          (Raise e,
           mk (failure_threshold b1) (recovery_timeout b1) n t_fail s,
           w')
      end
  end.

(** A sequence of calls, each with its delegate and its two clock reads. *)
Fixpoint calls (b : t) (cs : list (delegate * Q * Q)) (w : W)
  : list (Result R) * t * W :=
  match cs with
  | [] => ([], b, w)
  | (f, tg, tf) :: cs' =>
      let '(r, b', w') := call b f tg tf w in
      let '(rs, b'', w'') := calls b' cs' w' in
      (r :: rs, b'', w'')
  end.
(** The delegates of [cs] invoked one after the other with no breaker in
    between: what a breaker that lets every call through amounts to. *)
Fixpoint invoke_all (cs : list (delegate * Q * Q)) (w : W)
  : list (Result R) * W :=
  match cs with
  | [] => ([], w)
  | (f, _, _) :: cs' =>
      let '(r, w') := f w in
      let '(rs, w'') := invoke_all cs' w' in
      (r :: rs, w'')
  end.

Definition raised (r : Result R) : bool :=
  match r with
  | Raise _ => true
  | Ok _ => false
  end.

(** The number of calls of a run that raised. *)
Definition failures (rs : list (Result R)) : Z :=
  Z.of_nat (List.length (filter raised rs)).
End Call.

End CircuitBreaker.

(** ** class FrameRateLimiter *)
Module FrameRateLimiter.

Record t : Type := mk {
  target_fps : Z;
  frame_time : Q;
  last_frame_time : Q;
  frame_skip_count : Z;
  max_frame_time : Q
}.

(** [__init__]: [1.0 / target_fps] raises on a zero rate. *)
Definition init (target_fps : Z) : Result t :=
  if (target_fps =? 0)%Z then Raise ZeroDivisionError
  else Ok (mk target_fps (1 / inject_Z target_fps) 0 0%Z 0.1).

Definition set_skip (l : t) (n : Z) : t :=
  mk (target_fps l) (frame_time l) (last_frame_time l) n (max_frame_time l).

Definition set_last (l : t) (x : Q) : t :=
  mk (target_fps l) (frame_time l) x (frame_skip_count l) (max_frame_time l).

(** [wait_for_next_frame].  [t_in] is the clock read on entry; [t_out]
    the clock read after the optional sleep, stored as
    [last_frame_time].  The limiter is returned in both outcomes: the
    counter is incremented before the raise. *)
Definition wait_for_next_frame (l : t) (t_in t_out : Q) : Result bool * t :=
  let elapsed := t_in - last_frame_time l in
  (* Detect potential hangs *)
  let '(fatal, l1) :=
    if Qltb (max_frame_time l) elapsed then
      let l' := set_skip l (frame_skip_count l + 1)%Z in
      if (10 <? frame_skip_count l')%Z then (true, l') else (false, l')
    else (false, l) in
  if fatal then
    (Raise (Exception "Excessive frame skipping detected - potential hang"),
     l1)
  else
    (* Frame rate limiting *)
    let l2 := if Qltb elapsed (frame_time l1)
              then (* time.sleep(frame_time - elapsed) *) set_skip l1 0%Z
              else set_skip l1 0%Z in
    (Ok true, set_last l2 t_out).

(** Successive calls of the render loop; each pair is ([t_in], [t_out]).
    A raise is recorded and the loop goes on with the limiter it left. *)
Fixpoint waits (l : t) (ts : list (Q * Q)) : list (Result bool) * t :=
  match ts with
  | [] => ([], l)
  | (t_in, t_out) :: ts' =>
      let '(r, l') := wait_for_next_frame l t_in t_out in
      let '(rs, l'') := waits l' ts' in
      (r :: rs, l'')
  end.

End FrameRateLimiter.

(** ** class SharedClock *)
Module SharedClock.

Record t : Type := mk {
  start_time : Q;
  paused : bool;
  pause_offset : Q
}.

(** [__init__] reads the wall clock once. *)
Definition init (wall : Q) : t := mk wall false 0.

(** [get_time]; [wall] is read only on the running branch. *)
Definition get_time (c : t) (wall : Q) : Q :=
  if paused c then start_time c + pause_offset c
  else wall - start_time c + pause_offset c.

Definition pause (c : t) (wall : Q) : t :=
  if negb (paused c)
  then mk (start_time c) true (get_time c wall)
  else c.

Definition resume (c : t) (wall : Q) : t :=
  if paused c
  then mk wall false (pause_offset c)
  else c.

(** A client of the clock: operations stamped with the wall-clock time
    at which they happen. *)
Inductive op : Type := Pause | Resume | Read.

Fixpoint run (c : t) (ops : list (Q * op)) : list Q * t :=
  match ops with
  | [] => ([], c)
  | (wall, Pause) :: ops' => run (pause c wall) ops'
  | (wall, Resume) :: ops' => run (resume c wall) ops'
  | (wall, Read) :: ops' =>
      let '(rs, c') := run c ops' in (get_time c wall :: rs, c')
  end.

End SharedClock.

(* ================================================================== *)
(** * animation_controller.py *)

Inductive AnimationState : Type := STOPPED | RUNNING | PAUSED | ERROR.

Definition AnimationState_eqb (a b : AnimationState) : bool :=
  match a, b with
  | STOPPED, STOPPED | RUNNING, RUNNING | PAUSED, PAUSED | ERROR, ERROR => true
  | _, _ => false
  end.

Inductive EffectPriority : Type := CRITICAL | HIGH | MEDIUM | LOW.

(** [EffectPriority.value] *)
Definition priority_value (p : EffectPriority) : Z :=
  match p with
  | CRITICAL => 1
  | HIGH => 2
  | MEDIUM => 3
  | LOW => 4
  end%Z.

(** An [(r, g, b)] tuple. *)
Definition color : Type := (Z * Z * Z)%type.

Definition black : color := (0, 0, 0)%Z.

(** ** dataclass AnimationFrame *)
Module AnimationFrame.

Record t : Type := mk {
  timestamp : Q;
  pixels : list color;
  indices : list Z;
  brightness : Q;
  effect_id : string
}.

Definition set_pixels (f : t) (ps : list color) : t :=
  mk (timestamp f) ps (indices f) (brightness f) (effect_id f).

End AnimationFrame.

(** ** The effect classes *)
Module Effect.

(** The fields each subclass adds to [BaseEffect].  [Custom] stands for any
    further subclass of the abstract base: it is given by what its two
    abstract methods, [update] and [is_complete], do at a given time. *)
Inductive Kind : Type :=
| Blink (color : color) (duty_cycle blink_rate period : Q)
| Weather (effect_type : string) (intensity phase : Q)
| Fade (start_color end_color : color) (fade_duration : Q)
| HeatMap (data : list Q) (max_iterations current_iteration : Z)
          (fade_speed : Q)
| Custom (upd : Q -> Result (option AnimationFrame.t)) (done : Q -> bool).

(** [BaseEffect] fields, the [pixel_indices] every subclass sets, and the
    subclass fields. *)
Record t : Type := mk {
  effect_id : string;
  priority : EffectPriority;
  state : AnimationState;
  start_time : Q;
  duration : Q;
  timeout : Q;
  pixel_indices : list Z;
  kind : Kind
}.

Definition set_state (e : t) (s : AnimationState) : t :=
  mk (effect_id e) (priority e) s (start_time e) (duration e) (timeout e)
     (pixel_indices e) (kind e).

Definition set_kind (e : t) (k : Kind) : t :=
  mk (effect_id e) (priority e) (state e) (start_time e) (duration e)
     (timeout e) (pixel_indices e) k.

(** [BaseEffect.__init__] followed by the subclass fields. *)
Definition base_init (effect_id : string) (priority : EffectPriority)
    (pixel_indices : list Z) (k : Kind) : t :=
  mk effect_id priority STOPPED 0 0 30 pixel_indices k.

(** [pixel_indices or default] *)
Definition or_default (pixel_indices : option (list Z)) (default : list Z)
  : list Z :=
  match pixel_indices with
  | Some (i :: l) => i :: l
  | _ => default
  end.

(** [list(range(n))] *)
Definition range (n : nat) : list Z := map Z.of_nat (seq 0 n).

(** [BlinkEffect.__init__]: [1.0 / blink_rate] raises on a zero rate. *)
Definition BlinkEffect (effect_id : string) (color : color)
    (duty_cycle blink_rate : Q) (pixel_indices : option (list Z)) : Result t :=
  if Qeq_bool blink_rate 0 then Raise ZeroDivisionError
  else Ok (base_init effect_id HIGH (or_default pixel_indices [])
             (Blink color duty_cycle blink_rate (Float.div 1 blink_rate))).

Definition WeatherEffect (effect_id effect_type : string) (intensity : Q)
    (pixel_indices : option (list Z)) : t :=
  base_init effect_id CRITICAL (or_default pixel_indices [])
    (Weather effect_type intensity 0).

Definition FadeEffect (effect_id : string) (start_color end_color : color)
    (fade_duration : Q) (pixel_indices : option (list Z)) : t :=
  base_init effect_id MEDIUM (or_default pixel_indices [])
    (Fade start_color end_color fade_duration).

Definition HeatMapEffect (effect_id : string) (data : list Q)
    (max_iterations : Z) (pixel_indices : option (list Z)) : t :=
  base_init effect_id LOW
    (or_default pixel_indices (range (List.length data)))
    (HeatMap data max_iterations 0%Z 0.02).

(** [BaseEffect.start], [stop], [pause], [resume], [is_timed_out] *)
Definition start (e : t) (current_time : Q) : t :=
  mk (effect_id e) (priority e) RUNNING current_time (duration e) (timeout e)
     (pixel_indices e) (kind e).

Definition stop (e : t) : t := set_state e STOPPED.

Definition pause (e : t) : t := set_state e PAUSED.

Definition resume (e : t) : t := set_state e RUNNING.

Definition is_timed_out (e : t) (current_time : Q) : bool :=
  Qltb (timeout e) (Float.sub current_time (start_time e)).

Definition frame_of (e : t) (current_time : Q) (pixels : list color)
    (brightness : Q) : AnimationFrame.t :=
  AnimationFrame.mk current_time pixels (pixel_indices e) brightness
                    (effect_id e).

(** [BlinkEffect.update] past the state test. *)
Definition blink_update (e : t) (color : color) (duty_cycle period : Q)
    (current_time : Q) : Result (option AnimationFrame.t) :=
  let elapsed := Float.sub current_time (start_time e) in
  if Qeq_bool period 0 then Raise ZeroDivisionError
  else
    let cycle_position := Float.div (Float.fmod elapsed period) period in
    let is_on := Qltb cycle_position duty_cycle in
    let pixels := if is_on then map (fun _ => color) (pixel_indices e)
                  else map (fun _ => black) (pixel_indices e) in
    Ok (Some (frame_of e current_time pixels 1)).

(** [WeatherEffect._rain_pixel], [_snow_pixel], [_lightning_pixel].  A
    decimal literal of the source denotes the double nearest to it. *)
Definition _rain_pixel (self_intensity : Q) (index : Z) (phase : Q) : color :=
  let pi := Float.round 3.14159 in
  let drop_phase :=
    Float.fmod
      (Float.add phase (Float.mul (Float.of_int index) (Float.round 0.1)))
      (Float.mul 2 pi) in
  let intensity :=
    Qmax 0 (Float.add 0.5
              (Float.mul 0.5
                 (Float.sub 1
                    (Float.div (Qabs (Float.sub drop_phase pi)) pi)))) in
  (0%Z, 0%Z, py_int (Float.mul (Float.mul 255 intensity) self_intensity)).

Definition _snow_pixel (self_intensity : Q) (index : Z) (phase : Q) : color :=
  let pi := Float.round 3.14159 in
  let flake_phase :=
    Float.fmod
      (Float.add phase (Float.mul (Float.of_int index) (Float.round 0.2)))
      (Float.mul 2 pi) in
  let intensity :=
    Qmax 0 (Float.add (Float.round 0.3)
              (Float.mul (Float.round 0.7)
                 (Float.sub 1
                    (Float.div (Qabs (Float.sub flake_phase pi)) pi)))) in
  let value := py_int (Float.mul (Float.mul 255 intensity) self_intensity) in
  (value, value, value).

Definition _lightning_pixel (index : Z) (phase : Q) : color :=
  if Qltb (Float.fmod (Float.add phase (Float.of_int index)) 10)
          (Float.round 0.1)
  then (255, 255, 255)%Z
  else (0, 0, 0)%Z.

(** [WeatherEffect.update] past the state test: the new [phase] and the
    frame. *)
Definition weather_update (e : t) (effect_type : string) (intensity : Q)
    (current_time : Q) : Q * AnimationFrame.t :=
  let elapsed := Float.sub current_time (start_time e) in
  let phase := Float.mul elapsed 2 in
  let pixel (i : Z) : color :=
    if String.eqb effect_type "rain" then _rain_pixel intensity i phase
    else if String.eqb effect_type "snow" then _snow_pixel intensity i phase
    else if String.eqb effect_type "lightning" then _lightning_pixel i phase
    else (0, 0, 0)%Z in
  (phase, frame_of e current_time (map pixel (pixel_indices e)) intensity).

(** [FadeEffect._ease_in_out] *)
Definition _ease_in_out (t : Q) : Q :=
  Float.mul (Float.mul t t) (Float.sub 3 (Float.mul 2 t)).

(** One channel of the interpolation in [FadeEffect.update]. *)
Definition fade_channel (s e : Z) (eased_progress : Q) : Z :=
  py_int (Float.add (Float.of_int s)
                    (Float.mul (Float.of_int (e - s)) eased_progress)).

Definition fade_color (start_color end_color : color) (eased_progress : Q)
  : color :=
  let '(sr, sg, sb) := start_color in
  let '(er, eg, eb) := end_color in
  (fade_channel sr er eased_progress,
   fade_channel sg eg eased_progress,
   fade_channel sb eb eased_progress).

(** [FadeEffect.update] past the state test: the division raises on a zero
    duration. *)
Definition fade_update (e : t) (start_color end_color : color)
    (fade_duration : Q) (current_time : Q) : Result (option AnimationFrame.t) :=
  let elapsed := Float.sub current_time (start_time e) in
  if Qeq_bool fade_duration 0 then Raise ZeroDivisionError
  else
    let progress := Qmin 1 (Float.div elapsed fade_duration) in
    let eased_progress := _ease_in_out progress in
    let pixels :=
      map (fun _ => fade_color start_color end_color eased_progress)
          (pixel_indices e) in
    Ok (Some (frame_of e current_time pixels 1)).

(** The colour ramp of [HeatMapEffect.update] for one value. *)
Definition heat_color (value : Q) : color :=
  if Qltb value 0.25 then
    (0%Z, py_int (Float.mul (Float.mul 255 value) 4), 255%Z)
  else if Qltb value 0.5 then
    (0%Z, 255%Z,
     py_int (Float.mul 255
               (Float.sub 1 (Float.mul (Float.sub value 0.25) 4))))
  else if Qltb value 0.75 then
    (py_int (Float.mul (Float.mul 255 (Float.sub value 0.5)) 4), 255%Z, 0%Z)
  else
    (255%Z,
     py_int (Float.mul 255
               (Float.sub 1 (Float.mul (Float.sub value 0.75) 4))),
     0%Z).

(** [update] of each class: the result and the effect as the call leaves
    it ([phase] and [current_iteration] are written by the call). *)
Definition update (e : t) (current_time : Q)
  : Result (option AnimationFrame.t) * t :=
  match kind e with
  | Blink color duty_cycle _ period =>
      if negb (AnimationState_eqb (state e) RUNNING) then (Ok None, e)
      else (blink_update e color duty_cycle period current_time, e)
  | Weather effect_type intensity _ =>
      if negb (AnimationState_eqb (state e) RUNNING) then (Ok None, e)
      else
        let '(phase, frame) :=
          weather_update e effect_type intensity current_time in
        (Ok (Some frame), set_kind e (Weather effect_type intensity phase))
  | Fade start_color end_color fade_duration =>
      if negb (AnimationState_eqb (state e) RUNNING) then (Ok None, e)
      else (fade_update e start_color end_color fade_duration current_time, e)
  | HeatMap data max_iterations current_iteration fade_speed =>
      if negb (AnimationState_eqb (state e) RUNNING) then (Ok None, e)
      else if (max_iterations <=? current_iteration)%Z then (Ok None, e)
      else
        let e' := set_kind e (HeatMap data max_iterations
                                (current_iteration + 1)%Z fade_speed) in
        (Ok (Some (frame_of e current_time (map heat_color data) 1)), e')
  | Custom upd _ => (upd current_time, e)
  end.

(** [is_complete] of each class. *)
Definition is_complete (e : t) (current_time : Q) : bool :=
  match kind e with
  | Blink _ _ _ _ => is_timed_out e current_time
  | Weather _ _ _ => is_timed_out e current_time
  | Fade _ _ fade_duration =>
      Qle_bool fade_duration (Float.sub current_time (start_time e))
  | HeatMap _ max_iterations current_iteration _ =>
      (max_iterations <=? current_iteration)%Z
  | Custom _ done => done current_time
  end.

(** A client of one effect: the calls it makes, in order. *)
Inductive op : Type :=
| Start (current_time : Q)
| Stop
| Pause
| Resume
| Update (current_time : Q).

(** Runs the calls and collects what each [Update] returned. *)
Fixpoint run (e : t) (ops : list op)
  : list (Result (option AnimationFrame.t)) * t :=
  match ops with
  | [] => ([], e)
  | Start now :: ops' => run (start e now) ops'
  | Stop :: ops' => run (stop e) ops'
  | Pause :: ops' => run (pause e) ops'
  | Resume :: ops' => run (resume e) ops'
  | Update now :: ops' =>
      let '(r, e') := update e now in
      let '(rs, e'') := run e' ops' in
      (r :: rs, e'')
  end.

(** An [Update] is productive when it returned a frame. *)
Definition productive (r : Result (option AnimationFrame.t)) : bool :=
  match r with
  | Ok (Some _) => true
  | _ => false
  end.

End Effect.

(** Follows the words of the specification, to be compared with the
    progress [Qmin 1 (elapsed / fade_duration)] of [Effect.fade_update]:
    progress clamped to the interval from 0 to 1. *)
Definition spec_clamped_progress (t : Q) : Q := Qmax 0 (Qmin 1 t).

(** Follows the words of the specification: the smoothstep weight
    [3t^2 - 2t^3] and the interpolation of one channel at that weight, both
    in exact arithmetic. *)
Definition spec_smoothstep (t : Q) : Q := 3 * (t * t) - 2 * (t * t * t).

Definition spec_fade_channel (s e : Z) (t : Q) : Q :=
  inject_Z s + (inject_Z e - inject_Z s) * spec_smoothstep t.

(** What double arithmetic may add to or take from an exact value of the
    size of a colour channel: less than a billionth. *)
Definition rounding_slack : Q := 1 # 1000000000.

(** [c] is the integer part of a value within the slack of [x]. *)
Definition truncates_near (c : Z) (x : Q) : Prop :=
  exists y, c = py_int y /\ Qabs (y - x) <= rounding_slack.

(** The number of productive updates among the results of a run. *)
Definition productive_count
    (rs : list (Result (option AnimationFrame.t))) : nat :=
  List.length (filter Effect.productive rs).

(** ** The pixel driver, as the controller uses it (leds.py, [LedStrip])

    The controller reads [number] and sends [set_pixel_color] and
    [show_pixels] requests whose results it ignores; the driver is kept as
    its pixel count and the log of the requests it received. *)
Module LedStrip.

Inductive request : Type :=
| SetPixelColor (led : Z) (c : color)
| ShowPixels.

Record t : Type := mk {
  number : Z;
  requests : list request
}.

Definition set_pixel_color (s : t) (led : Z) (c : color) : t :=
  mk (number s) (requests s ++ [SetPixelColor led c]).

Definition show_pixels (s : t) : t :=
  mk (number s) (requests s ++ [ShowPixels]).

End LedStrip.

(** ** class AnimationController *)
Module AnimationController.

(** The effect table [self.effects]. *)
Definition table : Type := list (string * Effect.t).

Fixpoint lookup (k : string) (effects : table) : option Effect.t :=
  match effects with
  | [] => None
  | (k', e) :: rest => if String.eqb k k' then Some e else lookup k rest
  end.

(** [k in self.effects] *)
Definition contains (k : string) (effects : table) : bool :=
  match lookup k effects with
  | Some _ => true
  | None => false
  end.

(** [del self.effects[k]] *)
Fixpoint delete (k : string) (effects : table) : table :=
  match effects with
  | [] => []
  | (k', e) :: rest =>
      if String.eqb k k' then rest else (k', e) :: delete k rest
  end.

(** Writes through the reference held at key [k]. *)
Fixpoint modify (k : string) (f : Effect.t -> Effect.t) (effects : table)
  : table :=
  match effects with
  | [] => []
  | (k', e) :: rest =>
      if String.eqb k k' then (k', f e) :: rest
      else (k', e) :: modify k f rest
  end.

Record t : Type := mk {
  led_controller : option LedStrip.t;
  target_fps : Z;
  frame_limiter : FrameRateLimiter.t;
  shared_clock : SharedClock.t;
  effects : table;
  current_frame : option AnimationFrame.t;
  state : AnimationState;
  frame_count : Z;
  last_fps_time : Q;
  current_fps : Z
}.

Definition set_effects (c : t) (effects : table) : t :=
  mk (led_controller c) (target_fps c) (frame_limiter c) (shared_clock c)
     effects (current_frame c) (state c) (frame_count c) (last_fps_time c)
     (current_fps c).

Definition set_frame_limiter (c : t) (l : FrameRateLimiter.t) : t :=
  mk (led_controller c) (target_fps c) l (shared_clock c)
     (effects c) (current_frame c) (state c) (frame_count c) (last_fps_time c)
     (current_fps c).

Definition set_shared_clock (c : t) (k : SharedClock.t) : t :=
  mk (led_controller c) (target_fps c) (frame_limiter c) k
     (effects c) (current_frame c) (state c) (frame_count c) (last_fps_time c)
     (current_fps c).

Definition set_state (c : t) (s : AnimationState) : t :=
  mk (led_controller c) (target_fps c) (frame_limiter c) (shared_clock c)
     (effects c) (current_frame c) s (frame_count c) (last_fps_time c)
     (current_fps c).

Definition set_rendered (c : t) (led : LedStrip.t) (f : AnimationFrame.t) : t :=
  mk (Some led) (target_fps c) (frame_limiter c) (shared_clock c)
     (effects c) (Some f) (state c) (frame_count c) (last_fps_time c)
     (current_fps c).

Definition set_metrics (c : t) (frame_count : Z) (last_fps_time : Q)
    (current_fps : Z) : t :=
  mk (led_controller c) (target_fps c) (frame_limiter c) (shared_clock c)
     (effects c) (current_frame c) (state c) frame_count last_fps_time
     current_fps.

(** [__init__]; the wall clock is read by [SharedClock()] and then for
    [last_fps_time]. *)
Definition init (led_controller : option LedStrip.t) (target_fps : Z)
    (t_clock t_fps : Q) : Result t :=
  l <- FrameRateLimiter.init target_fps ;;
  Ok (mk led_controller target_fps l (SharedClock.init t_clock) [] None
         STOPPED 0%Z t_fps 0%Z).

Definition add_effect (c : t) (effect : Effect.t) : bool * t :=
  if contains (Effect.effect_id effect) (effects c) then (false, c)
  else (true, set_effects c (effects c ++ [(Effect.effect_id effect, effect)])).

Definition remove_effect (c : t) (effect_id : string) : bool * t :=
  if negb (contains effect_id (effects c)) then (false, c)
  else
    (* effect.stop() acts on the object that is then dropped from the table *)
    (true, set_effects c (delete effect_id (modify effect_id Effect.stop
                                                    (effects c)))).

Definition start_effect (c : t) (effect_id : string) (wall : Q) : bool * t :=
  if negb (contains effect_id (effects c)) then (false, c)
  else
    let now := SharedClock.get_time (shared_clock c) wall in
    (true, set_effects c (modify effect_id (fun e => Effect.start e now)
                                 (effects c))).

Definition stop_effect (c : t) (effect_id : string) : bool * t :=
  if negb (contains effect_id (effects c)) then (false, c)
  else (true, set_effects c (modify effect_id Effect.stop (effects c))).

Definition start_animation (c : t) (wall : Q) : t :=
  set_shared_clock (set_state c RUNNING)
                   (SharedClock.resume (shared_clock c) wall).

(** The body of the loop of [update] for one effect. *)
Definition update_effect (effect : Effect.t) (current_time : Q)
  : option AnimationFrame.t * Effect.t :=
  let '(frame, effect1) :=
    if AnimationState_eqb (Effect.state effect) RUNNING then
      match Effect.update effect current_time with
      | (Ok frame, effect') => (frame, effect')
      | (Raise _, effect') => (None, Effect.set_state effect' ERROR)
      end
    else (None, effect) in
  (* Check for completion *)
  if Effect.is_complete effect1 current_time
  then (frame, Effect.stop effect1)
  else (frame, effect1).

(** The loop of [update] over [self.effects.values()]: [active_effects]
    and the table as the loop leaves it. *)
Fixpoint update_effects (effects : table) (current_time : Q)
  : list AnimationFrame.t * table :=
  match effects with
  | [] => ([], [])
  | (k, effect) :: rest =>
      let '(frame, effect') := update_effect effect current_time in
      let '(frames, rest') := update_effects rest current_time in
      (match frame with
       | Some f => f :: frames
       | None => frames
       end,
       (k, effect') :: rest')
  end.

(** The sort key of [_combine_effects],
    [self.effects[f.effect_id].priority.value], for every frame. *)
Fixpoint sort_keys (effects : table) (frames : list AnimationFrame.t)
  : Result (list (Z * AnimationFrame.t)) :=
  match frames with
  | [] => Ok []
  | f :: rest =>
      match lookup (AnimationFrame.effect_id f) effects with
      | None => Raise (KeyError (AnimationFrame.effect_id f))
      | Some e =>
          keyed <- sort_keys effects rest ;;
          Ok ((priority_value (Effect.priority e), f) :: keyed)
      end
  end.

(** [list.sort(key=...)] is a stable ascending sort: insertion that keeps
    an element before the later elements of equal key. *)
Fixpoint insert_keyed {A : Type} (x : Z * A) (l : list (Z * A))
  : list (Z * A) :=
  match l with
  | [] => [x]
  | y :: l' =>
      if (fst x <=? fst y)%Z then x :: y :: l' else y :: insert_keyed x l'
  end.

Fixpoint sort_keyed {A : Type} (l : list (Z * A)) : list (Z * A) :=
  match l with
  | [] => []
  | x :: l' => insert_keyed x (sort_keyed l')
  end.

(** A map over the sorted values that leaves the keys alone. *)
Definition on_snd {A B : Type} (g : A -> B) (x : Z * A) : Z * B :=
  (fst x, g (snd x)).

Definition sort_frames (effects : table) (frames : list AnimationFrame.t)
  : Result (list AnimationFrame.t) :=
  keyed <- sort_keys effects frames ;;
  Ok (map snd (sort_keyed keyed)).

(** [l[n] = x] for an index in range. *)
Fixpoint list_set {A : Type} (l : list A) (n : nat) (x : A) : list A :=
  match l, n with
  | [], _ => []
  | _ :: l', O => x :: l'
  | y :: l', S n' => y :: list_set l' n' x
  end.

(** The position a Python index denotes in a list of length [len]:
    negative indices count from the end. *)
Definition py_index (len : nat) (i : Z) : Result nat :=
  if (0 <=? i)%Z then
    if (i <? Z.of_nat len)%Z then Ok (Z.to_nat i) else Raise IndexError
  else if (- Z.of_nat len <=? i)%Z then Ok (Z.to_nat (i + Z.of_nat len))
  else Raise IndexError.

(** "Simple alpha blending", [alpha = 0.5]. *)
Definition alpha : Q := 0.5.

Definition blend_channel (c p : Z) : Z :=
  py_int (Float.add (Float.mul (Float.of_int c) (Float.sub 1 alpha))
                    (Float.mul (Float.of_int p) alpha)).

Definition blend (current pixel : color) : color :=
  let '(cr, cg, cb) := current in
  let '(r, g, b) := pixel in
  (blend_channel cr r, blend_channel cg g, blend_channel cb b).

(** The body of the inner loop once [i < len(frame.indices)] holds: the
    range test, the read of the current value and the blended write. *)
Definition blend_at (full_pixels : list color) (pixel_index : Z)
    (pixel : color) : Result (list color) :=
  if (pixel_index <? Z.of_nat (List.length full_pixels))%Z then
    pos <- py_index (List.length full_pixels) pixel_index ;;
    Ok (list_set full_pixels pos (blend (nth pos full_pixels black) pixel))
  else Ok full_pixels.

(** The body of the inner loop for one [(i, pixel)] of
    [enumerate(frame.pixels)]. *)
Definition apply_pixel (full_pixels : list color) (indices : list Z)
    (i : nat) (pixel : color) : Result (list color) :=
  match nth_error indices i with
  | Some pixel_index => blend_at full_pixels pixel_index pixel
  | None => Ok full_pixels
  end.

Fixpoint apply_pixels (full_pixels : list color) (indices : list Z)
    (i : nat) (pixels : list color) : Result (list color) :=
  match pixels with
  | [] => Ok full_pixels
  | pixel :: rest =>
      full_pixels' <- apply_pixel full_pixels indices i pixel ;;
      apply_pixels full_pixels' indices (S i) rest
  end.

Definition apply_frame (full_pixels : list color) (frame : AnimationFrame.t)
  : Result (list color) :=
  apply_pixels full_pixels (AnimationFrame.indices frame) 0
               (AnimationFrame.pixels frame).

Fixpoint apply_frames (full_pixels : list color)
    (frames : list AnimationFrame.t) : Result (list color) :=
  match frames with
  | [] => Ok full_pixels
  | frame :: rest =>
      full_pixels' <- apply_frame full_pixels frame ;;
      apply_frames full_pixels' rest
  end.

(** *** The compositor seen entry by entry

    The entries of a frame are the pairs of its two parallel lists. *)
Definition pairs_of (frame : AnimationFrame.t) : list (Z * color) :=
  combine (AnimationFrame.indices frame) (AnimationFrame.pixels frame).

Fixpoint apply_pairs (full_pixels : list color) (entries : list (Z * color))
  : Result (list color) :=
  match entries with
  | [] => Ok full_pixels
  | (pixel_index, pixel) :: rest =>
      full_pixels' <- blend_at full_pixels pixel_index pixel ;;
      apply_pairs full_pixels' rest
  end.

(** The entries whose index is below [n]. *)
Fixpoint writable (n : Z) (indices : list Z) (pixels : list color)
  : list (Z * color) :=
  match indices, pixels with
  | i :: indices', p :: pixels' =>
      if (i <? n)%Z then (i, p) :: writable n indices' pixels'
      else writable n indices' pixels'
  | _, _ => []
  end.

(** A frame cut down to its entries with an index below [n]: the entries
    with an index from [n] on and the colours past the end of the index
    list are dropped. *)
Definition restrict (n : nat) (frame : AnimationFrame.t) : AnimationFrame.t :=
  let w := writable (Z.of_nat n)
                    (AnimationFrame.indices frame)
                    (AnimationFrame.pixels frame) in
  AnimationFrame.mk (AnimationFrame.timestamp frame) (map snd w) (map fst w)
                    (AnimationFrame.brightness frame)
                    (AnimationFrame.effect_id frame).

(** In a buffer of length [n], position [k] is denoted by the index [k] and
    by the negative index [k - n]. *)
Definition hits (n k : nat) (pixel_index : Z) : bool :=
  (pixel_index =? Z.of_nat k)%Z || (pixel_index =? Z.of_nat k - Z.of_nat n)%Z.

(** The colours that a list of entries sends to position [k], in order. *)
Definition writes_to (n k : nat) (entries : list (Z * color)) : list color :=
  map snd (filter (fun ip => hits n k (fst ip)) entries).

(** [max(l)] of a list of ints; raises on the empty list. *)
Definition py_max (l : list Z) : Result Z :=
  match l with
  | [] => Raise ValueError
  | x :: l' => Ok (fold_left Z.max l' x)
  end.

Fixpoint frame_maxima (frames : list AnimationFrame.t) : Result (list Z) :=
  match frames with
  | [] => Ok []
  | f :: rest =>
      m <- py_max (AnimationFrame.indices f) ;;
      ms <- frame_maxima rest ;;
      Ok (m :: ms)
  end.

(** The length of the full pixel buffer. *)
Definition buffer_length (led_controller : option LedStrip.t)
    (frames : list AnimationFrame.t) : Result nat :=
  match led_controller with
  | Some led => Ok (Z.to_nat (LedStrip.number led))
  | None =>
      (* Fallback if no LED controller *)
      ms <- frame_maxima frames ;;
      max_index <- py_max ms ;;
      Ok (Z.to_nat (max_index + 1))
  end.

Definition _combine_effects (c : t) (frames : list AnimationFrame.t)
  : Result (option AnimationFrame.t) :=
  match frames with
  | [] => Ok None
  | _ :: _ =>
      sorted <- sort_frames (effects c) frames ;;
      match sorted with
      | [] => Raise IndexError
      | combined :: _ =>
          n <- buffer_length (led_controller c) sorted ;;
          full_pixels <- apply_frames (repeat black n) sorted ;;
          Ok (Some (AnimationFrame.mk (AnimationFrame.timestamp combined)
                      full_pixels (Effect.range n)
                      (AnimationFrame.brightness combined) "combined"))
      end
  end.

Definition scale (brightness : Q) (p : color) : color :=
  let '(r, g, b) := p in
  (py_int (Float.mul (Float.of_int r) brightness),
   py_int (Float.mul (Float.of_int g) brightness),
   py_int (Float.mul (Float.of_int b) brightness)).

(** The requests of the loop over [zip(frame.indices, frame.pixels)]. *)
Fixpoint send_pixels (led : LedStrip.t) (indices : list Z)
    (pixels : list color) : LedStrip.t :=
  match indices, pixels with
  | i :: indices', p :: pixels' =>
      send_pixels (LedStrip.set_pixel_color led i p) indices' pixels'
  | _, _ => led
  end.

Definition _render_frame (c : t) (frame : option AnimationFrame.t) : t :=
  match frame, led_controller c with
  | Some frame, Some led =>
      let frame1 :=
        if negb (Qeq_bool (AnimationFrame.brightness frame) 1) then
          AnimationFrame.set_pixels frame
            (map (scale (AnimationFrame.brightness frame))
                 (AnimationFrame.pixels frame))
        else frame in
      let led1 := send_pixels led (AnimationFrame.indices frame1)
                              (AnimationFrame.pixels frame1) in
      set_rendered c (LedStrip.show_pixels led1) frame1
  | _, _ => c
  end.

Definition _update_performance_metrics (c : t) (wall : Q) : t :=
  let frame_count := (frame_count c + 1)%Z in
  if Qle_bool 1 (wall - last_fps_time c)
  then set_metrics c 0%Z wall frame_count
  else set_metrics c frame_count (last_fps_time c) (current_fps c).

(** The wall-clock reads of one [update]: two by the frame limiter, one by
    the shared clock, one by the performance metrics. *)
Record reads : Type := mk_reads {
  t_in : Q;
  t_out : Q;
  t_clock : Q;
  t_metrics : Q
}.

(** [update].  A raise leaves the controller as it was when raised. *)
Definition update (c : t) (w : reads) : Result bool * t :=
  if negb (AnimationState_eqb (state c) RUNNING) then (Ok false, c)
  else
    match FrameRateLimiter.wait_for_next_frame (frame_limiter c)
                                               (t_in w) (t_out w) with
    | (Raise e, l) => (Raise e, set_frame_limiter c l)
    | (Ok false, l) => (Ok false, set_frame_limiter c l)
    | (Ok true, l) =>
        let c1 := set_frame_limiter c l in
        let current_time := SharedClock.get_time (shared_clock c1) (t_clock w) in
        let '(active_effects, effects') :=
          update_effects (effects c1) current_time in
        let c2 := set_effects c1 effects' in
        match active_effects with
        | [] => (Ok true, _update_performance_metrics c2 (t_metrics w))
        | _ :: _ =>
            match _combine_effects c2 active_effects with
            | Raise e => (Raise e, c2)
            | Ok combined_frame =>
                let c3 := _render_frame c2 combined_frame in
                (Ok true, _update_performance_metrics c3 (t_metrics w))
            end
        end
    end.

(** Follows the words of the specification, to be compared with
    [_combine_effects]: of two effects on one pixel the lower-priority one is
    blended first and the higher-priority one is composited last. *)
Definition spec_higher_priority_last (higher lower : color) : color :=
  blend (blend black lower) higher.

End AnimationController.

(* ================================================================== *)
(** * reliability_manager.py, the remaining classes *)

(** ** The time a [SharedClock] has spent running

    An observer of the operations on a clock: [running] tells whether the
    clock runs, [since] is the wall-clock time of the last start or resume
    and [acc] the running time accumulated before it.  The result is the
    running time up to the wall-clock time [wall]. *)
Fixpoint running_time (running : bool) (since acc : Q)
    (ops : list (Q * SharedClock.op)) (wall : Q) : Q :=
  match ops with
  | [] => if running then acc + (wall - since) else acc
  | (w, SharedClock.Pause) :: ops' =>
      if running then running_time false since (acc + (w - since)) ops' wall
      else running_time false since acc ops' wall
  | (w, SharedClock.Resume) :: ops' =>
      if running then running_time true since acc ops' wall
      else running_time true w acc ops' wall
  | (_, SharedClock.Read) :: ops' => running_time running since acc ops' wall
  end.

(** What every call keeps: the breaker is closed or open, an open breaker
    has its counter at the threshold or above, and the parameters stay. *)
Definition settled (thr : Z) (rt : Q) (b : CircuitBreaker.t) : Prop :=
  CircuitBreaker.state b <> CircuitBreaker.HALF_OPEN /\
  (CircuitBreaker.state b = CircuitBreaker.OPEN -> (thr <= CircuitBreaker.failure_count b)%Z) /\
  (0 <= CircuitBreaker.failure_count b)%Z /\
  CircuitBreaker.failure_threshold b = thr /\
  CircuitBreaker.recovery_timeout b = rt.

(** ** class ResourceManager *)
Module ResourceManager.

Section WithWorld.
(** Cleanup functions act on a world [W]; a resource is a value of [Res]. *)
Context {W Res : Type}.

Record t : Type := mk {
  resources : list (Res * (Res -> W -> Result unit * W));
  cleanup_handlers : list (W -> Result unit * W)
}.

Definition init : t := mk [] [].

Definition register_resource (rm : t) (resource : Res)
    (cleanup_func : Res -> W -> Result unit * W) : t :=
  mk (resources rm ++ [(resource, cleanup_func)]) (cleanup_handlers rm).

Definition register_cleanup (rm : t) (cleanup_func : W -> Result unit * W)
  : t :=
  mk (resources rm) (cleanup_handlers rm ++ [cleanup_func]).

(** One [try: ... except Exception as e: logging.error(...)]: the world
    the call leaves and the exceptions logged so far. *)
Definition guarded (call : W -> Result unit * W) (s : W * list exn)
  : W * list exn :=
  match call (fst s) with
  | (Ok _, w') => (w', snd s)
  | (Raise e, w') => (w', snd s ++ [e])
  end.

(** [__exit__]: the world after the cleanups and the exceptions logged. *)
Definition __exit__ (rm : t) (w : W) : W * list exn :=
  let s1 := fold_left (fun s rc => guarded (snd rc (fst rc)) s)
                      (rev (resources rm)) (w, []) in
  fold_left (fun s h => guarded h s) (cleanup_handlers rm) s1.

(** The registrations a client makes, in order. *)
Inductive registration : Type :=
| Resource (resource : Res) (cleanup_func : Res -> W -> Result unit * W)
| Cleanup (cleanup_func : W -> Result unit * W).

Fixpoint register_all (rm : t) (regs : list registration) : t :=
  match regs with
  | [] => rm
  | Resource r f :: regs' => register_all (register_resource rm r f) regs'
  | Cleanup f :: regs' => register_all (register_cleanup rm f) regs'
  end.

(** The calls a list of registrations stands for. *)
Fixpoint resource_calls (regs : list registration)
  : list (W -> Result unit * W) :=
  match regs with
  | [] => []
  | Resource r f :: regs' => f r :: resource_calls regs'
  | Cleanup _ :: regs' => resource_calls regs'
  end.

Fixpoint handler_calls (regs : list registration)
  : list (W -> Result unit * W) :=
  match regs with
  | [] => []
  | Resource _ _ :: regs' => handler_calls regs'
  | Cleanup f :: regs' => f :: handler_calls regs'
  end.

End WithWorld.

End ResourceManager.

(** ** class HealthMonitor *)
Module HealthStatus.

Inductive t : Type := HEALTHY | DEGRADED | CRITICAL | FAILED.

End HealthStatus.

Module HealthMetrics.

Record t : Type := mk {
  timestamp : Q;
  main_loop_heartbeat : Q;
  memory_usage_mb : Q;
  cpu_usage_percent : Q;
  led_responsive : bool;
  last_metar_update : Q;
  log_file_size_mb : Q;
  disk_space_mb : Q;
  frame_rate : Q;
  error_count : Z
}.

End HealthMetrics.

Module HealthMonitor.

Record t : Type := mk {
  check_interval : Z;
  last_heartbeat : Q;
  last_metar_update : Q;
  led_last_test : Q;
  led_test_interval : Q;
  metrics_history : list HealthMetrics.t;
  max_history : Z;
  memory_warning_mb : Q;
  memory_critical_mb : Q;
  cpu_warning_percent : Q;
  cpu_critical_percent : Q;
  heartbeat_timeout : Q;
  metar_timeout : Q
}.

(** [__init__] reads the wall clock for the first heartbeat. *)
Definition init (check_interval : Z) (wall : Q) : t :=
  mk check_interval wall 0 0 60 [] 100 200 400 70 90 60 300.

(** [heartbeat]; the watchdog notification is outside the model. *)
Definition heartbeat (h : t) (wall : Q) : t :=
  mk (check_interval h) wall (last_metar_update h) (led_last_test h)
     (led_test_interval h) (metrics_history h) (max_history h)
     (memory_warning_mb h) (memory_critical_mb h) (cpu_warning_percent h)
     (cpu_critical_percent h) (heartbeat_timeout h) (metar_timeout h).

Definition update_metar (h : t) (wall : Q) : t :=
  mk (check_interval h) (last_heartbeat h) wall (led_last_test h)
     (led_test_interval h) (metrics_history h) (max_history h)
     (memory_warning_mb h) (memory_critical_mb h) (cpu_warning_percent h)
     (cpu_critical_percent h) (heartbeat_timeout h) (metar_timeout h).

(** What one [collect_metrics] reads from outside: the wall clock, the
    process and file system figures, and what [test_led_responsiveness]
    answers if it is asked. *)
Record readings : Type := mk_readings {
  r_time : Q;
  r_memory_mb : Q;
  r_cpu_percent : Q;
  r_led_test : bool;
  r_log_size_mb : Q;
  r_disk_space_mb : Q
}.

(** [collect_metrics]; [led_controller] tells whether one was passed. *)
Definition collect_metrics (h : t) (led_controller : bool) (r : readings)
  : HealthMetrics.t * t :=
  let current_time := r_time r in
  let test := led_controller
              && Qltb (led_test_interval h) (current_time - led_last_test h) in
  let led_responsive := if test then r_led_test r else true in
  let led_last_test' := if test then current_time else led_last_test h in
  let metrics :=
    HealthMetrics.mk current_time (last_heartbeat h) (r_memory_mb r)
      (r_cpu_percent r) led_responsive (last_metar_update h)
      (r_log_size_mb r) (r_disk_space_mb r) 30 0%Z in
  let appended := metrics_history h ++ [metrics] in
  let history :=
    if (max_history h <? Z.of_nat (List.length appended))%Z
    then tl appended   (* pop(0) *)
    else appended in
  (metrics,
   mk (check_interval h) (last_heartbeat h) (last_metar_update h)
      led_last_test' (led_test_interval h) history (max_history h)
      (memory_warning_mb h) (memory_critical_mb h) (cpu_warning_percent h)
      (cpu_critical_percent h) (heartbeat_timeout h) (metar_timeout h)).

Definition get_health_status (h : t) (wall : Q) : HealthStatus.t :=
  match rev (metrics_history h) with
  | [] => HealthStatus.HEALTHY
  | latest :: _ =>
      let current_time := wall in
      if Qltb (memory_critical_mb h) (HealthMetrics.memory_usage_mb latest)
         || Qltb (cpu_critical_percent h)
                 (HealthMetrics.cpu_usage_percent latest)
         || Qltb (heartbeat_timeout h)
                 (current_time - HealthMetrics.main_loop_heartbeat latest)
         || negb (HealthMetrics.led_responsive latest)
      then HealthStatus.CRITICAL
      else if Qltb (memory_warning_mb h)
                   (HealthMetrics.memory_usage_mb latest)
              || Qltb (cpu_warning_percent h)
                      (HealthMetrics.cpu_usage_percent latest)
              || Qltb (metar_timeout h)
                      (current_time - HealthMetrics.last_metar_update latest)
              || Qltb 50 (HealthMetrics.log_file_size_mb latest)
      then HealthStatus.DEGRADED
      else HealthStatus.HEALTHY
  end.

Definition should_restart (h : t) (wall : Q) : bool :=
  match get_health_status h wall with
  | HealthStatus.CRITICAL | HealthStatus.FAILED => true
  | _ => false
  end.

(** Successive [collect_metrics] calls and the snapshots they return. *)
Fixpoint collects (h : t) (rs : list (bool * readings))
  : list HealthMetrics.t * t :=
  match rs with
  | [] => ([], h)
  | (led, r) :: rs' =>
      let '(m, h') := collect_metrics h led r in
      let '(ms, h'') := collects h' rs' in
      (m :: ms, h'')
  end.

End HealthMonitor.

(** ** class ReliabilityManager

    The health monitor and the circuit breakers by name; the resource
    manager is [ResourceManager] above. *)
Module ReliabilityManager.

(** [self.circuit_breakers] *)
Definition breakers : Type := list (string * CircuitBreaker.t).

Fixpoint lookup (name : string) (m : breakers) : option CircuitBreaker.t :=
  match m with
  | [] => None
  | (k, b) :: rest => if String.eqb name k then Some b else lookup name rest
  end.

(** Writes through the reference held under [name]. *)
Fixpoint store (name : string) (b : CircuitBreaker.t) (m : breakers)
  : breakers :=
  match m with
  | [] => []
  | (k, b0) :: rest =>
      if String.eqb name k then (k, b) :: rest
      else (k, b0) :: store name b rest
  end.

(** [get_circuit_breaker]: the breaker and the dict, which gains a default
    breaker when the name is new. *)
Definition get_circuit_breaker (m : breakers) (name : string)
  : CircuitBreaker.t * breakers :=
  match lookup name m with
  | Some b => (b, m)
  | None => (CircuitBreaker.init 5 60,
             m ++ [(name, CircuitBreaker.init 5 60)])
  end.

Section SafeCall.
Context {W R : Type}.

Definition safe_call (m : breakers) (name : string)
    (func : @CircuitBreaker.delegate W R) (t_gate t_fail : Q) (w : W)
  : Result R * breakers * W :=
  let '(breaker, m1) := get_circuit_breaker m name in
  let '(r, breaker', w') := CircuitBreaker.call breaker func t_gate t_fail w in
  (r, store name breaker' m1, w').

Fixpoint safe_calls (m : breakers)
    (cs : list (string * @CircuitBreaker.delegate W R * Q * Q)) (w : W)
  : list (Result R) * breakers * W :=
  match cs with
  | [] => ([], m, w)
  | (name, f, tg, tf) :: cs' =>
      let '(r, m', w') := safe_call m name f tg tf w in
      let '(rs, m'', w'') := safe_calls m' cs' w' in
      (r :: rs, m'', w'')
  end.
End SafeCall.

(** [check_health]: heartbeat, snapshot, status, each with its own read of
    the wall clock. *)
Definition check_health (h : HealthMonitor.t) (led_controller : bool)
    (t_heartbeat : Q) (r : HealthMonitor.readings) (t_status : Q)
  : HealthStatus.t * HealthMonitor.t :=
  let h1 := HealthMonitor.heartbeat h t_heartbeat in
  let '(metrics, h2) := HealthMonitor.collect_metrics h1 led_controller r in
  (HealthMonitor.get_health_status h2 t_status, h2).

End ReliabilityManager.

(** A colour whose three channels lie from 0 to 255. *)
Definition displayable (c : color) : Prop :=
  let '(r, g, b) := c in
  (0 <= r <= 255)%Z /\ (0 <= g <= 255)%Z /\ (0 <= b <= 255)%Z.

(** A colour whose channels are small enough for a double to hold them,
    and the difference of any two of them, exactly. *)
Definition exact_color (c : color) : Prop :=
  let '(r, g, b) := c in
  (Z.abs r <= 2 ^ 52)%Z /\ (Z.abs g <= 2 ^ 52)%Z /\ (Z.abs b <= 2 ^ 52)%Z.

(** Follows the comment of [HeatMapEffect.update], "blue -> green -> yellow
    -> red": the three channels of the ramp for a value, in exact
    arithmetic.  Each quarter of the range moves one channel linearly between
    0 and 255. *)
Definition spec_heat_ramp (v : Q) : Q * Q * Q :=
  if Qltb v 0.25 then (0, 255 * (4 * v), 255)
  else if Qltb v 0.5 then (0, 255, 255 * (1 - 4 * (v - 0.25)))
  else if Qltb v 0.75 then (255 * (4 * (v - 0.5)), 255, 0)
  else (255, 255 * (1 - 4 * (v - 0.75)), 0).

(** Each channel of [c] is the integer part of a value within the slack of
    the channel of [x]. *)
Definition near_color (c : color) (x : Q * Q * Q) : Prop :=
  let '(r, g, b) := c in
  let '(xr, xg, xb) := x in
  truncates_near r xr /\ truncates_near g xg /\ truncates_near b xb.

(* ================================================================== *)
(** * animation_controller.py, the controller seen by its clients *)

(** The calls a client makes on a controller, in order; the wall-clock
    reads of a call travel with it. *)
Inductive controller_op : Type :=
| AddEffect (effect : Effect.t)
| RemoveEffect (effect_id : string)
| StartEffect (effect_id : string) (wall : Q)
| StopEffect (effect_id : string)
| StartAnimation (wall : Q)
| Update (w : AnimationController.reads).

(** A raise of [update] is left to the client; the controller goes on as
    the raise left it. *)
Definition controller_step (c : AnimationController.t) (o : controller_op)
  : AnimationController.t :=
  match o with
  | AddEffect e => snd (AnimationController.add_effect c e)
  | RemoveEffect k => snd (AnimationController.remove_effect c k)
  | StartEffect k wall => snd (AnimationController.start_effect c k wall)
  | StopEffect k => snd (AnimationController.stop_effect c k)
  | StartAnimation wall => AnimationController.start_animation c wall
  | Update w => snd (AnimationController.update c w)
  end.

Definition controller_run (c : AnimationController.t)
    (ops : list controller_op) : AnimationController.t :=
  fold_left controller_step ops c.

(** The keys of the table, each with the id of the effect it holds. *)
Definition filing (effects : AnimationController.table)
  : list (string * string) :=
  map (fun ke => (fst ke, Effect.effect_id (snd ke))) effects.

(** Every effect is filed under its own id and no id is filed twice. *)
Definition well_keyed (effects : AnimationController.table) : Prop :=
  NoDup (map fst effects) /\
  Forall (fun ke => fst ke = Effect.effect_id (snd ke)) effects.

(** [LedStrip._validate_pixel_index] of leds.py for an int. *)
Definition _validate_pixel_index (number led : Z) : bool :=
  negb ((led <? 0)%Z || (number <=? led)%Z).

(** The colour [_render_frame] sends for a pixel of a frame. *)
Definition rendered (brightness : Q) (p : color) : color :=
  if negb (Qeq_bool brightness 1) then AnimationController.scale brightness p
  else p.

(** ** The lock of the controller

    [self.lock] is a [threading.Lock], which is not reentrant: a thread
    that enters [with self.lock] while it holds the lock waits for itself.
    [held] tells whether the calling thread holds the lock; a call either
    returns or stays blocked, the controller being as the last write left
    it. *)
Inductive locked (A : Type) : Type :=
| Returns (a : A)
| Blocks (c : AnimationController.t).
Arguments Returns {A} a.
Arguments Blocks {A} c.

Definition stop_all_effects (held : bool) (c : AnimationController.t)
  : locked AnimationController.t :=
  if held then Blocks c
  else Returns (AnimationController.set_effects c
                  (map (fun ke => (fst ke, Effect.stop (snd ke)))
                       (AnimationController.effects c))).

Definition stop_animation (held : bool) (c : AnimationController.t) (wall : Q)
  : locked AnimationController.t :=
  if held then Blocks c
  else
    let c1 := AnimationController.set_state c STOPPED in
    match stop_all_effects true c1 with
    | Blocks c' => Blocks c'
    | Returns c2 =>
        Returns (AnimationController.set_shared_clock c2
                   (SharedClock.pause (AnimationController.shared_clock c2)
                                      wall))
    end.

(** [emergency_shutdown]: whether it returns, and whether the driver was
    asked to clear. *)
Definition emergency_shutdown (held : bool) (c : AnimationController.t)
    (wall : Q) : locked (AnimationController.t * bool) :=
  match stop_animation held c wall with
  | Blocks c' => Blocks c'
  | Returns c' =>
      match AnimationController.led_controller c' with
      | Some _ => Returns (c', true)
      | None => Returns (c', false)
      end
  end.

(* ================================================================== *)
(** * Theorems *)

(** ** Rationals *)

Lemma Qltb_true (x y : Q) : Qltb x y = true <-> x < y.
Proof.
  unfold Qltb. rewrite negb_true_iff.
  destruct (Qle_bool y x) eqn:E.
  - apply Qle_bool_iff in E. split; [discriminate | intro H; lra].
  - split; [intros _ | reflexivity].
    apply Qnot_le_lt. intro H. apply Qle_bool_iff in H. congruence.
Qed.

Lemma Qltb_false (x y : Q) : Qltb x y = false <-> y <= x.
Proof.
  unfold Qltb. rewrite negb_false_iff. apply Qle_bool_iff.
Qed.

(** ** Doubles *)

Section FloatFacts.
Import Float.

Lemma pow2_pos (k : Z) : 0 < 2 ^ k.
Proof. apply Qpower_0_lt. reflexivity. Qed.

Lemma pow2_add (a b : Z) : 2 ^ (a + b) == 2 ^ a * 2 ^ b.
Proof. apply Qpower_plus. intro H. discriminate H. Qed.

Lemma pow2_le (a b : Z) : (a <= b)%Z -> 2 ^ a <= 2 ^ b.
Proof. intros H. apply Qpower_le_compat_l; [exact H | intro E; discriminate E]. Qed.

Lemma pow2_lt_inv (a b : Z) : 2 ^ a < 2 ^ b -> (a < b)%Z.
Proof. intros H. apply (Qpower_lt_compat_l_inv 2); [exact H | reflexivity]. Qed.

Lemma pow2_Z (n : Z) : (0 <= n)%Z -> 2 ^ n == inject_Z (2 ^ n).
Proof. intros H. symmetry. apply (Zpower_Qpower 2 n H). Qed.

Lemma pow2_succ (k : Z) : 2 ^ (k + 1) == 2 * 2 ^ k.
Proof. rewrite pow2_add. change (2 ^ 1) with 2. ring. Qed.

Lemma pow2_pred (k : Z) : 2 ^ (k - 1) == 2 ^ k / 2.
Proof.
  assert (E : 2 ^ k == 2 ^ (k - 1 + 1)) by (now replace (k - 1 + 1)%Z with k by lia).
  rewrite E, pow2_succ. field.
Qed.

(** [ilog2] *)
Lemma ilog2_spec (x : Q) :
  0 < x -> 2 ^ ilog2 x <= x /\ x < 2 ^ (ilog2 x + 1).
Proof.
  intros Hx. unfold ilog2.
  destruct x as [n d]. cbn [Qnum Qden].
  assert (Hn : (0 < n)%Z) by (unfold Qlt in Hx; simpl in Hx; lia).
  set (a := Z.log2 n). set (b := Z.log2 (Zpos d)).
  destruct (Z.log2_spec n Hn) as [Ha1 Ha2]. fold a in Ha1, Ha2.
  destruct (Z.log2_spec (Zpos d) (Pos2Z.is_pos d)) as [Hb1 Hb2].
  fold b in Hb1, Hb2.
  assert (Ha0 : (0 <= a)%Z) by apply Z.log2_nonneg.
  assert (Hb0 : (0 <= b)%Z) by apply Z.log2_nonneg.
  assert (Hq : n # d == inject_Z n / inject_Z (Zpos d)) by apply Qmake_Qdiv.
  assert (Hd : 0 < inject_Z (Zpos d)) by (rewrite <- (Zlt_Qlt 0); lia).
  assert (Qa1 : 2 ^ a <= inject_Z n) by (rewrite pow2_Z, <- Zle_Qle; lia).
  assert (Qa2 : inject_Z n < 2 ^ (a + 1)) by (rewrite pow2_Z, <- Zlt_Qlt; lia).
  assert (Qb1 : 2 ^ b <= inject_Z (Zpos d)) by (rewrite pow2_Z, <- Zle_Qle; lia).
  assert (Qb2 : inject_Z (Zpos d) < 2 ^ (b + 1))
    by (rewrite pow2_Z, <- Zlt_Qlt; lia).
  pose proof (pow2_pos a) as Pa. pose proof (pow2_pos b) as Pb.
  pose proof (pow2_pos (a - b)) as Pk.
  assert (Ek : 2 ^ a == 2 ^ (a - b) * 2 ^ b)
    by (rewrite <- pow2_add; now replace (a - b + b)%Z with a by lia).
  rewrite pow2_succ in Qa2, Qb2.
  destruct (Qle_bool (2 ^ (a - b)) (n # d)) eqn:E.
  - apply Qle_bool_iff in E. split; [exact E|].
    rewrite pow2_succ, Hq. apply Qlt_shift_div_r; [exact Hd|].
    set (D := inject_Z (Zpos d)) in *. set (N := inject_Z n) in *.
    set (K := 2 ^ (a - b)) in *. set (A := 2 ^ a) in *. set (B := 2 ^ b) in *.
    nra.
  - assert (E' : n # d < 2 ^ (a - b)).
    { apply Qnot_le_lt. intro H. apply Qle_bool_iff in H. congruence. }
    replace (a - b - 1 + 1)%Z with (a - b)%Z by lia.
    split; [|exact E'].
    rewrite pow2_pred, Hq. apply Qle_shift_div_l; [exact Hd|].
    set (D := inject_Z (Zpos d)) in *. set (N := inject_Z n) in *.
    set (K := 2 ^ (a - b)) in *. set (A := 2 ^ a) in *. set (B := 2 ^ b) in *.
    assert (H : K * D <= 2 * N) by nra.
    assert (E2 : K / 2 * D == (K * D) / 2) by field. rewrite E2.
    apply Qle_shift_div_r; [reflexivity | lra].
Qed.

Lemma ilog2_unique (x : Q) (k : Z) :
  2 ^ k <= x -> x < 2 ^ (k + 1) -> ilog2 x = k.
Proof.
  intros H1 H2.
  assert (Hx : 0 < x) by (pose proof (pow2_pos k); lra).
  destruct (ilog2_spec x Hx) as [H3 H4].
  assert (A : (k < ilog2 x + 1)%Z) by (apply pow2_lt_inv; lra).
  assert (B : (ilog2 x < k + 1)%Z) by (apply pow2_lt_inv; lra).
  lia.
Qed.

Lemma ilog2_comp (x y : Q) : 0 < x -> x == y -> ilog2 x = ilog2 y.
Proof.
  intros Hx E. destruct (ilog2_spec x Hx) as [H1 H2].
  symmetry. apply ilog2_unique; rewrite <- E; assumption.
Qed.

Lemma ilog2_le (x y : Q) : 0 < x -> x <= y -> (ilog2 x <= ilog2 y)%Z.
Proof.
  intros Hx H. destruct (ilog2_spec x Hx) as [H1 _].
  destruct (ilog2_spec y) as [_ H2]; [lra|].
  assert (A : (ilog2 x < ilog2 y + 1)%Z) by (apply pow2_lt_inv; lra).
  lia.
Qed.

Lemma Qabs_gt_0 (x : Q) : ~ x == 0 -> 0 < Qabs x.
Proof.
  intros H. destruct (Qlt_le_dec 0 (Qabs x)) as [|H']; [assumption|].
  exfalso. apply H. pose proof (Qabs_nonneg x).
  assert (E : Qabs x == 0) by lra.
  destruct (Qlt_le_dec x 0).
  - rewrite Qabs_neg in E by lra. lra.
  - rewrite Qabs_pos in E by lra. lra.
Qed.

Lemma pow2_le_inv (a b : Z) : 2 ^ a <= 2 ^ b -> (a <= b)%Z.
Proof. intros H. apply (Qpower_le_compat_l_inv 2); [exact H | reflexivity]. Qed.

Lemma exponent_ge (x : Q) : (-1074 <= exponent x)%Z.
Proof. unfold exponent. lia. Qed.

Lemma exponent_lt (x : Q) : ~ x == 0 -> Qabs x < 2 ^ (exponent x + 53).
Proof.
  intros H. destruct (ilog2_spec (Qabs x) (Qabs_gt_0 x H)) as [_ H2].
  eapply Qlt_le_trans; [exact H2|]. apply pow2_le. unfold exponent. lia.
Qed.

Lemma exponent_le (x : Q) :
  ~ x == 0 -> (-1074 < exponent x)%Z -> 2 ^ (exponent x + 52) <= Qabs x.
Proof.
  intros H He. destruct (ilog2_spec (Qabs x) (Qabs_gt_0 x H)) as [H1 _].
  unfold exponent in *.
  replace (Z.max (ilog2 (Qabs x) - 52) (-1074) + 52)%Z with (ilog2 (Qabs x))
    by lia.
  exact H1.
Qed.

Lemma exponent_comp (x y : Q) : ~ x == 0 -> x == y -> exponent x = exponent y.
Proof.
  intros H E. unfold exponent.
  rewrite (ilog2_comp (Qabs x) (Qabs y)); [reflexivity | |].
  - now apply Qabs_gt_0.
  - now rewrite E.
Qed.

Lemma exponent_mono (x y : Q) :
  ~ x == 0 -> Qabs x <= Qabs y -> (exponent x <= exponent y)%Z.
Proof.
  intros H Hle. unfold exponent.
  pose proof (ilog2_le (Qabs x) (Qabs y) (Qabs_gt_0 x H) Hle). lia.
Qed.

Lemma exponent_in (x : Q) (k : Z) :
  2 ^ k <= Qabs x -> Qabs x < 2 ^ (k + 1) ->
  exponent x = Z.max (k - 52) (-1074).
Proof.
  intros H1 H2. unfold exponent. now rewrite (ilog2_unique _ k H1 H2).
Qed.

Lemma exponent_bound (x : Q) (k : Z) :
  ~ x == 0 -> Qabs x <= 2 ^ k -> (-1022 <= k)%Z -> (exponent x <= k - 52)%Z.
Proof.
  intros H Hle Hk. destruct (ilog2_spec (Qabs x) (Qabs_gt_0 x H)) as [H1 _].
  assert (A : (ilog2 (Qabs x) <= k)%Z) by (apply pow2_le_inv; lra).
  unfold exponent. lia.
Qed.

(** [nearest_even] *)
Lemma frac_range (y : Q) :
  0 <= y - inject_Z (Qfloor y) /\ y - inject_Z (Qfloor y) < 1.
Proof.
  pose proof (Qfloor_le y). pose proof (Qlt_floor y) as H1.
  rewrite inject_Z_plus in H1. change (inject_Z 1) with 1 in H1. lra.
Qed.

Lemma nearest_even_cases (y : Q) :
  let f := Qfloor y in
  (nearest_even y = f /\ y - inject_Z f <= 1 # 2) \/
  (nearest_even y = (f + 1)%Z /\ 1 # 2 <= y - inject_Z f).
Proof.
  intros f. unfold nearest_even. fold f.
  destruct (Qcompare_spec (y - inject_Z f) (1 # 2)) as [E|E|E].
  - destruct (Z.even f); [left | right]; split; try reflexivity; lra.
  - left. split; [reflexivity | lra].
  - right. split; [reflexivity | lra].
Qed.

Lemma nearest_even_err (y : Q) :
  Qabs (inject_Z (nearest_even y) - y) <= 1 # 2.
Proof.
  destruct (frac_range y) as [H0 H1].
  apply Qabs_Qle_condition.
  destruct (nearest_even_cases y) as [[-> H]|[-> H]].
  - split; lra.
  - rewrite inject_Z_plus. change (inject_Z 1) with 1. split; lra.
Qed.

Lemma nearest_even_comp (y y' : Q) :
  y == y' -> nearest_even y = nearest_even y'.
Proof.
  intros E. unfold nearest_even. rewrite (Qfloor_comp y y' E).
  assert (E' : y - inject_Z (Qfloor y') == y' - inject_Z (Qfloor y'))
    by now rewrite E.
  now rewrite (Qcompare_comp _ _ E' (1 # 2) (1 # 2) (Qeq_refl _)).
Qed.

Lemma nearest_even_Z (n : Z) : nearest_even (inject_Z n) = n.
Proof.
  unfold nearest_even. rewrite Qfloor_Z.
  destruct (Qcompare_spec (inject_Z n - inject_Z n) (1 # 2)) as [E|E|E];
    [lra | reflexivity | lra].
Qed.

Lemma nearest_even_mono (y y' : Q) :
  y <= y' -> (nearest_even y <= nearest_even y')%Z.
Proof.
  intros H. pose proof (Qfloor_resp_le _ _ H) as Hf.
  destruct (frac_range y) as [A0 A1]. destruct (frac_range y') as [B0 B1].
  destruct (Z.eq_dec (Qfloor y) (Qfloor y')) as [E|E].
  - unfold nearest_even. rewrite <- E.
    destruct (Qcompare_spec (y - inject_Z (Qfloor y)) (1 # 2)) as [C|C|C];
      destruct (Qcompare_spec (y' - inject_Z (Qfloor y)) (1 # 2)) as [C'|C'|C'];
      try destruct (Z.even (Qfloor y)); try lia; lra.
  - assert (Hlt : (Qfloor y < Qfloor y')%Z) by lia.
    destruct (nearest_even_cases y) as [[-> _]|[-> _]];
      destruct (nearest_even_cases y') as [[-> _]|[-> _]]; lia.
Qed.

Lemma Qfloor_opp_frac (y : Q) :
  inject_Z (Qfloor y) < y -> Qfloor (- y) = (- Qfloor y - 1)%Z.
Proof.
  intros H. destruct (frac_range y) as [A0 A1].
  pose proof (Qfloor_le (- y)) as H1. pose proof (Qlt_floor (- y)) as H2.
  rewrite inject_Z_plus in H2. change (inject_Z 1) with 1 in H2.
  assert (B1 : inject_Z (Qfloor (- y)) < inject_Z (- Qfloor y))
    by (rewrite inject_Z_opp; lra).
  assert (B2 : inject_Z (- Qfloor y - 1 - 1) < inject_Z (Qfloor (- y))).
  { unfold Z.sub. rewrite !inject_Z_plus, !inject_Z_opp.
    change (inject_Z 1) with 1. lra. }
  rewrite <- Zlt_Qlt in B1, B2. lia.
Qed.

Lemma nearest_even_opp (y : Q) : nearest_even (- y) = (- nearest_even y)%Z.
Proof.
  destruct (frac_range y) as [A0 A1].
  destruct (Qeq_dec y (inject_Z (Qfloor y))) as [E|E].
  - rewrite (nearest_even_comp y _ E).
    rewrite (nearest_even_comp (- y) (inject_Z (- Qfloor y))).
    + now rewrite !nearest_even_Z.
    + rewrite inject_Z_opp. now rewrite <- E.
  - assert (Hlt : inject_Z (Qfloor y) < y).
    { destruct (Qlt_le_dec (inject_Z (Qfloor y)) y); [assumption|].
      exfalso. apply E. lra. }
    pose proof (Qfloor_opp_frac y Hlt) as Ef.
    unfold nearest_even. rewrite Ef.
    assert (Ei : inject_Z (- Qfloor y - 1) == - inject_Z (Qfloor y) - 1).
    { unfold Z.sub. rewrite inject_Z_plus, !inject_Z_opp.
      change (inject_Z 1) with 1. ring. }
    destruct (Qcompare_spec (y - inject_Z (Qfloor y)) (1 # 2)) as [C|C|C];
      destruct (Qcompare_spec (- y - inject_Z (- Qfloor y - 1)) (1 # 2))
        as [C'|C'|C']; rewrite Ei in C'; try lra; try lia.
    replace (- Qfloor y - 1)%Z with (- (Qfloor y + 1))%Z by lia.
    rewrite Z.even_opp, Z.even_add. change (Z.even 1) with false.
    destruct (Z.even (Qfloor y)); simpl; lia.
Qed.

Lemma round_eq (x : Q) :
  ~ x == 0 ->
  round x == inject_Z (nearest_even (x / 2 ^ exponent x)) * 2 ^ exponent x.
Proof.
  intros H. unfold round.
  destruct (Qeq_bool x 0) eqn:E; [apply Qeq_bool_iff in E; contradiction|].
  apply Qred_correct.
Qed.

Lemma round_0 (x : Q) : x == 0 -> round x = 0.
Proof.
  intros H. unfold round. apply Qeq_bool_iff in H. now rewrite H.
Qed.

Lemma round_comp (x y : Q) : x == y -> round x = round y.
Proof.
  intros E. unfold round.
  destruct (Qeq_bool x 0) eqn:Ex, (Qeq_bool y 0) eqn:Ey; try reflexivity.
  - apply Qeq_bool_iff in Ex. apply Qeq_bool_neq in Ey. rewrite E in Ex.
    contradiction.
  - apply Qeq_bool_iff in Ey. apply Qeq_bool_neq in Ex. rewrite E in Ex.
    contradiction.
  - apply Qeq_bool_neq in Ex. apply Qred_complete.
    rewrite <- (exponent_comp x y Ex E).
    rewrite (nearest_even_comp (x / 2 ^ exponent x) (y / 2 ^ exponent x));
      [reflexivity|].
    set (p := 2 ^ exponent x). now rewrite E.
Qed.

Lemma round_opp (x : Q) : round (- x) == - round x.
Proof.
  destruct (Qeq_dec x 0) as [E|E].
  - rewrite (round_0 x E), (round_0 (- x)); [reflexivity | lra].
  - assert (E' : ~ - x == 0) by (intro H; apply E; lra).
    rewrite (round_eq x E), (round_eq _ E').
    assert (Ee : exponent (- x) = exponent x).
    { unfold exponent. rewrite (ilog2_comp (Qabs (- x)) (Qabs x));
        [reflexivity | now apply Qabs_gt_0 | apply Qabs_opp]. }
    rewrite Ee.
    rewrite (nearest_even_comp (- x / 2 ^ exponent x) (- (x / 2 ^ exponent x))).
    + rewrite nearest_even_opp, inject_Z_opp. ring.
    + field. pose proof (pow2_pos (exponent x)). lra.
Qed.

Lemma round_err (x : Q) :
  ~ x == 0 -> Qabs (round x - x) <= 2 ^ (exponent x - 1).
Proof.
  intros H. rewrite (round_eq x H). set (e := exponent x).
  pose proof (pow2_pos e) as Pe.
  pose proof (nearest_even_err (x / 2 ^ e)) as Hn.
  set (n := inject_Z (nearest_even (x / 2 ^ e))) in *.
  assert (E : n * 2 ^ e - x == (n - x / 2 ^ e) * 2 ^ e) by (field; lra).
  rewrite E, Qabs_Qmult, (Qabs_pos (2 ^ e)) by lra.
  rewrite pow2_pred.
  set (a := Qabs (n - x / 2 ^ e)) in *. set (p := 2 ^ e) in *.
  assert (E2 : p / 2 == (1 # 2) * p) by field. rewrite E2. nra.
Qed.

Lemma round_near (x : Q) (k : Z) :
  (-1022 <= k)%Z -> Qabs x <= 2 ^ k -> Qabs (round x - x) <= 2 ^ (k - 53).
Proof.
  intros Hk Hx. destruct (Qeq_dec x 0) as [E|E].
  - rewrite (round_0 x E).
    assert (E0 : 0 - x == 0) by lra. rewrite E0. simpl Qabs.
    apply Qlt_le_weak, pow2_pos.
  - eapply Qle_trans; [apply (round_err x E)|].
    apply pow2_le. pose proof (exponent_bound x k E Hx Hk). lia.
Qed.

Lemma pow2_sub (a b : Z) : 2 ^ (a - b) == 2 ^ a / 2 ^ b.
Proof.
  pose proof (pow2_pos b).
  assert (E : 2 ^ a == 2 ^ (a - b) * 2 ^ b)
    by (rewrite <- pow2_add; now replace (a - b + b)%Z with a by lia).
  rewrite E. field. lra.
Qed.

Lemma round_fix_lt (m e : Z) :
  (Z.abs m < 2 ^ 53)%Z -> (-1074 <= e)%Z ->
  round (inject_Z m * 2 ^ e) == inject_Z m * 2 ^ e.
Proof.
  intros Hm He. set (x := inject_Z m * 2 ^ e).
  pose proof (pow2_pos e) as Pe.
  destruct (Qeq_dec x 0) as [E|E]; [rewrite (round_0 x E); now rewrite E|].
  rewrite (round_eq x E).
  assert (Hx : Qabs x < 2 ^ (53 + e)).
  { unfold x. rewrite Qabs_Qmult, (Qabs_pos (2 ^ e)) by lra.
    rewrite pow2_add.
    assert (A : Qabs (inject_Z m) < 2 ^ 53).
    { change (Qabs (inject_Z m)) with (inject_Z (Z.abs m)).
      rewrite (pow2_Z 53) by lia. rewrite <- Zlt_Qlt. exact Hm. }
    pose proof (Qabs_nonneg (inject_Z m)).
    set (a := Qabs (inject_Z m)) in *. set (p := 2 ^ e) in *.
    set (q := 2 ^ 53) in *. nra. }
  assert (Hex : (exponent x <= e)%Z).
  { destruct (ilog2_spec (Qabs x) (Qabs_gt_0 x E)) as [H1 _].
    assert (A : (ilog2 (Qabs x) < 53 + e)%Z) by (apply pow2_lt_inv; lra).
    unfold exponent. lia. }
  set (ex := exponent x) in *.
  assert (Ey : x / 2 ^ ex == inject_Z (m * 2 ^ (e - ex))).
  { rewrite inject_Z_mult, <- (pow2_Z (e - ex)) by lia.
    rewrite pow2_sub. unfold x. field. pose proof (pow2_pos ex). lra. }
  rewrite (nearest_even_comp _ _ Ey), nearest_even_Z.
  rewrite inject_Z_mult, <- (pow2_Z (e - ex)) by lia.
  rewrite pow2_sub. unfold x. field. pose proof (pow2_pos ex). lra.
Qed.

Lemma round_fix (m e : Z) :
  (Z.abs m <= 2 ^ 53)%Z -> (-1074 <= e)%Z ->
  round (inject_Z m * 2 ^ e) == inject_Z m * 2 ^ e.
Proof.
  intros Hm He.
  destruct (Z.eq_dec (Z.abs m) (2 ^ 53)) as [E|E].
  - assert (Em : inject_Z m * 2 ^ e == inject_Z (m / 2) * 2 ^ (e + 1)).
    { rewrite pow2_succ.
      assert (E2 : m = (2 * (m / 2))%Z).
      { destruct (Z.abs_eq_or_opp m) as [A|A]; rewrite A in E.
        - rewrite E. reflexivity.
        - assert (m = (- 2 ^ 53)%Z) by lia. subst m. reflexivity. }
      rewrite E2 at 1. rewrite inject_Z_mult. change (inject_Z 2) with 2. ring. }
    rewrite (round_comp _ _ Em), Em. apply round_fix_lt; [|lia].
    destruct (Z.abs_eq_or_opp m) as [A|A]; rewrite A in E.
    + rewrite E. reflexivity.
    + assert (m = (- 2 ^ 53)%Z) by lia. subst m. reflexivity.
  - apply round_fix_lt; lia.
Qed.

Lemma round_Z (n : Z) :
  (Z.abs n <= 2 ^ 53)%Z -> round (inject_Z n) == inject_Z n.
Proof.
  intros H. pose proof (round_fix n 0 H ltac:(lia)) as E.
  change (2 ^ 0) with 1 in E.
  rewrite (round_comp (inject_Z n) (inject_Z n * 1)) by ring.
  rewrite E. ring.
Qed.

Lemma round_le_pos (x y : Q) : 0 < x -> x <= y -> round x <= round y.
Proof.
  intros Hx Hxy.
  assert (Ex : ~ x == 0) by lra. assert (Ey : ~ y == 0) by lra.
  rewrite (round_eq x Ex), (round_eq y Ey).
  assert (Hxa : Qabs x == x) by (apply Qabs_pos; lra).
  assert (Hya : Qabs y == y) by (apply Qabs_pos; lra).
  assert (Hm : (exponent x <= exponent y)%Z)
    by (apply exponent_mono; [exact Ex | lra]).
  pose proof (exponent_ge x) as Gx.
  set (ex := exponent x) in *. set (ey := exponent y) in *.
  pose proof (pow2_pos ex) as Px. pose proof (pow2_pos ey) as Py.
  destruct (Z.eq_dec ex ey) as [E|E].
  - rewrite <- E.
    assert (Hn : (nearest_even (x / 2 ^ ex) <= nearest_even (y / 2 ^ ex))%Z).
    { apply nearest_even_mono. apply Qmult_le_compat_r; [exact Hxy|].
      apply Qlt_le_weak, Qinv_lt_0_compat, Px. }
    rewrite Zle_Qle in Hn.
    set (a := inject_Z (nearest_even (x / 2 ^ ex))) in *.
    set (b := inject_Z (nearest_even (y / 2 ^ ex))) in *.
    set (p := 2 ^ ex) in *. nra.
  - assert (Hlt : (ex < ey)%Z) by lia.
    pose proof (exponent_lt x Ex) as Bx. fold ex in Bx.
    assert (Hey : (-1074 < exponent y)%Z) by (fold ey; lia).
    pose proof (exponent_le y Ey Hey) as By. fold ey in By.
    rewrite Hxa in Bx. rewrite Hya in By.
    (* round x <= 2^(ex+53) *)
    assert (A : (nearest_even (x / 2 ^ ex) <= 2 ^ 53)%Z).
    { rewrite <- (nearest_even_Z (2 ^ 53)). apply nearest_even_mono.
      rewrite <- (pow2_Z 53) by lia.
      apply Qle_shift_div_r; [exact Px|]. rewrite <- pow2_add.
      replace (53 + ex)%Z with (ex + 53)%Z by lia. lra. }
    assert (B : (2 ^ 52 <= nearest_even (y / 2 ^ ey))%Z).
    { rewrite <- (nearest_even_Z (2 ^ 52)) at 1. apply nearest_even_mono.
      rewrite <- (pow2_Z 52) by lia.
      apply Qle_shift_div_l; [exact Py|]. rewrite <- pow2_add.
      replace (52 + ey)%Z with (ey + 52)%Z by lia. lra. }
    rewrite Zle_Qle in A, B. rewrite <- pow2_Z in A, B by lia.
    set (a := inject_Z (nearest_even (x / 2 ^ ex))) in *.
    set (b := inject_Z (nearest_even (y / 2 ^ ey))) in *.
    assert (C : 2 ^ (ex + 53) <= 2 ^ (ey + 52)) by (apply pow2_le; lia).
    rewrite !pow2_add in C.
    set (p := 2 ^ ex) in *. set (q := 2 ^ ey) in *.
    set (u := 2 ^ 53) in *. set (v := 2 ^ 52) in *.
    assert (a * p <= u * p) by nra.
    assert (v * q <= b * q) by nra.
    lra.
Qed.

Lemma round_nonneg (x : Q) : 0 <= x -> 0 <= round x.
Proof.
  intros H. destruct (Qeq_dec x 0) as [E|E]; [now rewrite (round_0 x E)|].
  rewrite (round_eq x E). pose proof (pow2_pos (exponent x)) as P.
  assert (A : (0 <= nearest_even (x / 2 ^ exponent x))%Z).
  { rewrite <- (nearest_even_Z 0) at 1. apply nearest_even_mono.
    change (inject_Z 0) with 0. apply Qle_shift_div_l; [exact P | lra]. }
  rewrite Zle_Qle in A. change (inject_Z 0) with 0 in A.
  set (a := inject_Z _) in *. set (p := 2 ^ _) in *. nra.
Qed.

Lemma round_le (x y : Q) : x <= y -> round x <= round y.
Proof.
  intros H.
  destruct (Qlt_le_dec 0 x) as [Hx|Hx]; [now apply round_le_pos|].
  destruct (Qlt_le_dec y 0) as [Hy|Hy].
  - pose proof (round_le_pos (- y) (- x) ltac:(lra) ltac:(lra)) as R.
    rewrite !round_opp in R. lra.
  - pose proof (round_nonneg y Hy).
    pose proof (round_nonneg (- x) ltac:(lra)) as R.
    rewrite round_opp in R. lra.
Qed.

Lemma round_rel (x : Q) :
  Qabs (round x - x) <= Qabs x * 2 ^ (-53) + 2 ^ (-1075).
Proof.
  pose proof (Qabs_nonneg x) as Hx.
  pose proof (pow2_pos (-53)) as P1. pose proof (pow2_pos (-1075)) as P2.
  destruct (Qeq_dec x 0) as [E|E].
  - rewrite (round_0 x E).
    assert (E0 : 0 - x == 0) by lra. rewrite E0. simpl Qabs.
    set (a := Qabs x) in *. set (u := 2 ^ (-53)) in *. nra.
  - eapply Qle_trans; [apply (round_err x E)|].
    pose proof (exponent_ge x) as G.
    destruct (Z.eq_dec (exponent x) (-1074)) as [E1|E1].
    + rewrite E1. change (-1074 - 1)%Z with (-1075)%Z.
      set (a := Qabs x) in *. set (u := 2 ^ (-53)) in *. nra.
    + pose proof (exponent_le x E ltac:(lia)) as L.
      replace (exponent x - 1)%Z with (exponent x + 52 + -53)%Z by lia.
      rewrite pow2_add.
      set (a := Qabs x) in *. set (u := 2 ^ (-53)) in *.
      set (q := 2 ^ (exponent x + 52)) in *. set (v := 2 ^ (-1075)) in *. nra.
Qed.

Lemma round_near_lt (x : Q) (k : Z) :
  (-1021 <= k)%Z -> Qabs x < 2 ^ k -> Qabs (round x - x) <= 2 ^ (k - 54).
Proof.
  intros Hk Hx. destruct (Qeq_dec x 0) as [E|E].
  - rewrite (round_0 x E).
    assert (E0 : 0 - x == 0) by lra. rewrite E0. simpl Qabs.
    apply Qlt_le_weak, pow2_pos.
  - eapply Qle_trans; [apply (round_err x E)|].
    apply pow2_le.
    destruct (ilog2_spec (Qabs x) (Qabs_gt_0 x E)) as [H1 _].
    assert (A : (ilog2 (Qabs x) < k)%Z) by (apply pow2_lt_inv; lra).
    unfold exponent. lia.
Qed.

Lemma is_float_scaled (m e : Z) :
  (Z.abs m <= 2 ^ 53)%Z -> (-1074 <= e)%Z -> is_float (inject_Z m * 2 ^ e).
Proof. apply round_fix. Qed.

Lemma is_float_comp (x y : Q) : x == y -> is_float x -> is_float y.
Proof.
  unfold is_float. intros E H. rewrite <- (round_comp x y E). now rewrite H.
Qed.

(** The result of a rounding is a double. *)
Lemma round_is_float (x : Q) : is_float (round x).
Proof.
  destruct (Qeq_dec x 0) as [E|E].
  - rewrite (round_0 x E). unfold is_float. now rewrite (round_0 0).
  - eapply is_float_comp; [symmetry; apply (round_eq x E)|].
    apply is_float_scaled; [|apply exponent_ge].
    pose proof (exponent_lt x E) as L. pose proof (pow2_pos (exponent x)) as P.
    set (e := exponent x) in *.
    assert (A : Qabs (x / 2 ^ e) <= 2 ^ 53).
    { unfold Qdiv. rewrite Qabs_Qmult, Qabs_Qinv, (Qabs_pos (2 ^ e)) by lra.
      apply Qle_shift_div_r; [exact P|]. rewrite <- pow2_add.
      replace (53 + e)%Z with (e + 53)%Z by lia. lra. }
    apply Qabs_Qle_condition in A. destruct A as [A1 A2].
    rewrite (pow2_Z 53) in A1, A2 by lia.
    rewrite <- inject_Z_opp in A1.
    pose proof (nearest_even_mono _ _ A1) as B1.
    pose proof (nearest_even_mono _ _ A2) as B2.
    rewrite nearest_even_Z in B1, B2. lia.
Qed.

End FloatFacts.

(** ** SharedClock *)

Section SharedClockFacts.
Import SharedClock.

(** While paused, every read returns the same value, whatever the wall
    clock shows. *)
Lemma paused_reads_frozen (c : t) (wall wall' : Q) :
  paused c = true -> get_time c wall = get_time c wall'.
Proof. unfold get_time. intros ->. reflexivity. Qed.

(** A second [pause] and a second [resume] change nothing. *)
Lemma pause_idempotent (c : t) (wall wall' : Q) :
  pause (pause c wall) wall' = pause c wall.
Proof. unfold pause. destruct (paused c) eqn:E; simpl; rewrite ?E; reflexivity. Qed.

Lemma resume_idempotent (c : t) (wall wall' : Q) :
  resume (resume c wall) wall' = resume c wall.
Proof. unfold resume. destruct (paused c) eqn:E; simpl; rewrite ?E; reflexivity. Qed.

(** Right after [resume] the clock shows what it showed right before
    [pause]: the paused duration is not counted. *)
Lemma pause_resume_no_growth (c : t) (wall_p wall_r : Q) :
  paused c = false ->
  get_time (resume (pause c wall_p) wall_r) wall_r == get_time c wall_p.
Proof.
  intros E. unfold resume, pause, get_time. rewrite E. simpl. ring.
Qed.

(** The read of a paused clock is off by the wall-clock time of the last
    start or resume. *)
Lemma paused_read_offset (c : t) (wall_p wall : Q) :
  paused c = false ->
  get_time (pause c wall_p) wall == get_time c wall_p + start_time c.
Proof.
  intros E. unfold pause, get_time. rewrite E. simpl. ring.
Qed.

End SharedClockFacts.

(** C1 (the code departs from the claim).  A clock created at wall time
    1000 shows 3 at wall time 1003.  Paused there, it shows 1003 for as long
    as it is paused: a jump by the creation time 1000.  Resumed at 1008 it
    shows 3 again: the returned time has run backward from 1003 to 3. *)
Theorem shared_clock_jumps_across_pause :
  let c0 := SharedClock.init 1000 in
  let c1 := SharedClock.pause c0 1003 in
  let c2 := SharedClock.resume c1 1008 in
  SharedClock.get_time c0 1003 = 3 /\
  SharedClock.get_time c1 1004 = 1003 /\
  SharedClock.get_time c1 1008 = 1003 /\
  SharedClock.get_time c2 1008 = 3 /\
  fst (SharedClock.run c0
         [(1003, SharedClock.Read); (1003, SharedClock.Pause);
          (1004, SharedClock.Read); (1008, SharedClock.Resume);
          (1008, SharedClock.Read)]) = [3; 1003; 3].
Proof. vm_compute. repeat split; reflexivity. Qed.

(** ** FrameRateLimiter *)

Section FrameRateLimiterFacts.
Import FrameRateLimiter.

(** Both branches of the pacing test clear the counter, so a call that
    returns leaves it at zero, stall or not. *)
Lemma wait_clears_counter (l : t) (t_in t_out : Q) :
  fst (wait_for_next_frame l t_in t_out) = Ok true ->
  frame_skip_count (snd (wait_for_next_frame l t_in t_out)) = 0%Z.
Proof.
  unfold wait_for_next_frame.
  destruct (Qltb (max_frame_time l) (t_in - last_frame_time l)).
  - destruct (10 <? frame_skip_count (set_skip l (frame_skip_count l + 1)))%Z;
      simpl; [discriminate |].
    intros _. destruct (Qltb _ _); reflexivity.
  - simpl. intros _. destruct (Qltb _ _); reflexivity.
Qed.

(** With the counter below ten on entry the call returns [True]. *)
Lemma wait_returns (l : t) (t_in t_out : Q) :
  (frame_skip_count l <= 9)%Z ->
  fst (wait_for_next_frame l t_in t_out) = Ok true.
Proof.
  intros H. unfold wait_for_next_frame.
  destruct (Qltb (max_frame_time l) (t_in - last_frame_time l)).
  - simpl. destruct (10 <? frame_skip_count l + 1)%Z eqn:E.
    + apply Z.ltb_lt in E. lia.
    + reflexivity.
  - reflexivity.
Qed.

(** Hence the render loop never sees the fatal condition: from a counter
    below ten, whatever the wall clock does, every call returns [True]. *)
Lemma waits_never_raise (ts : list (Q * Q)) :
  forall l : t,
    (frame_skip_count l <= 9)%Z ->
    fst (waits l ts) = map (fun _ => Ok true) ts.
Proof.
  induction ts as [|[t_in t_out] ts IH]; intros l H; simpl; [reflexivity|].
  pose proof (wait_returns l t_in t_out H) as Hr.
  pose proof (wait_clears_counter l t_in t_out Hr) as Hc.
  destruct (wait_for_next_frame l t_in t_out) as [r l'] eqn:E.
  simpl in Hr, Hc. subst r.
  specialize (IH l' ltac:(lia)).
  destruct (waits l' ts) as [rs l'']. simpl in *. now rewrite IH.
Qed.

End FrameRateLimiterFacts.

(** C2 (the code departs from the claim).  A limiter for 30 frames per
    second is called twelve times, one second apart: each call sees an
    interval far above the hang threshold of 0.1 s, twelve consecutive
    stalls.  Every call returns [True] and the stall counter is back at zero
    after the last one; nothing is raised. *)
Theorem frame_limiter_twelve_stalls_not_fatal :
  exists l0,
    FrameRateLimiter.init 30 = Ok l0 /\
    FrameRateLimiter.max_frame_time l0 = 0.1 /\
    let stalls := map (fun k => (1000 + inject_Z (Z.of_nat k),
                                 1000 + inject_Z (Z.of_nat k)))
                      (seq 1 12) in
    fst (FrameRateLimiter.waits l0 stalls) = repeat (Ok true) 12 /\
    FrameRateLimiter.frame_skip_count
      (snd (FrameRateLimiter.waits l0 stalls)) = 0%Z.
Proof.
  eexists. split; [reflexivity|]. vm_compute. repeat split; reflexivity.
Qed.

(** ** CircuitBreaker *)

Section CircuitBreakerFacts.
Import CircuitBreaker.
Context {W R : Type}.
Implicit Types (b : t) (f : @delegate W R) (w : W).

(** Closed: the call goes through and a success leaves the breaker as it
    was, failure counter included. *)
Lemma call_closed_ok b f tg tf w r w' :
  state b = CLOSED -> f w = (Ok r, w') ->
  call b f tg tf w = (Ok r, b, w').
Proof. intros Hs Hf. unfold call. rewrite Hs, Hf, Hs. reflexivity. Qed.

(** Closed: a failure adds one to the counter, records the time, and opens
    the breaker once the counter has reached the threshold. *)
Lemma call_closed_raise b f tg tf w e w' :
  state b = CLOSED -> f w = (Raise e, w') ->
  call b f tg tf w =
  (Raise e,
   mk (failure_threshold b) (recovery_timeout b) (failure_count b + 1) tf
      (if (failure_threshold b <=? failure_count b + 1)%Z then OPEN
       else CLOSED),
   w').
Proof. intros Hs Hf. unfold call. rewrite Hs, Hf, Hs. reflexivity. Qed.

(** Open and not recovered: rejected, and neither the breaker nor the
    world of the delegate changes, whatever the delegate is. *)
Lemma call_open_rejected b f tg tf w :
  state b = OPEN -> tg - last_failure_time b <= recovery_timeout b ->
  call b f tg tf w = (Raise (Exception "Circuit breaker is OPEN"), b, w).
Proof.
  intros Hs Ht. unfold call. rewrite Hs.
  apply Qltb_false in Ht. rewrite Ht. reflexivity.
Qed.

(** Open and recovered: the trial call goes through; its success closes
    the breaker and zeroes the counter. *)
Lemma call_open_trial_ok b f tg tf w r w' :
  state b = OPEN -> recovery_timeout b < tg - last_failure_time b ->
  f w = (Ok r, w') ->
  call b f tg tf w =
  (Ok r,
   mk (failure_threshold b) (recovery_timeout b) 0 (last_failure_time b) CLOSED,
   w').
Proof.
  intros Hs Ht Hf. unfold call. rewrite Hs.
  apply Qltb_true in Ht. rewrite Ht. simpl. rewrite Hf. reflexivity.
Qed.

(** Open and recovered: a failed trial records the new failure time and,
    the counter being at the threshold, opens the breaker again. *)
Lemma call_open_trial_raise b f tg tf w e w' :
  state b = OPEN -> recovery_timeout b < tg - last_failure_time b ->
  (failure_threshold b <= failure_count b + 1)%Z ->
  f w = (Raise e, w') ->
  call b f tg tf w =
  (Raise e,
   mk (failure_threshold b) (recovery_timeout b) (failure_count b + 1) tf OPEN,
   w').
Proof.
  intros Hs Ht Hn Hf. unfold call. rewrite Hs.
  apply Qltb_true in Ht. rewrite Ht. simpl. rewrite Hf.
  apply Z.leb_le in Hn. rewrite Hn. reflexivity.
Qed.

Lemma failures_cons (r : Result R) (rs : list (Result R)) :
  failures (r :: rs) = ((if raised r then 1 else 0) + failures rs)%Z.
Proof.
  unfold failures. simpl. destruct (raised r); simpl List.length; lia.
Qed.

Lemma failures_nonneg (rs : list (Result R)) : (0 <= failures rs)%Z.
Proof. unfold failures. lia. Qed.

(** A closed breaker lets every call through for as long as the failures,
    however they are interleaved with successes, stay below the threshold;
    its counter is then the number of failures so far. *)
Lemma calls_closed (cs : list (@delegate W R * Q * Q)) :
  forall b w,
    state b = CLOSED ->
    (failure_count b + failures (fst (invoke_all cs w)) < failure_threshold b)%Z ->
    let '(rs, b', w') := calls b cs w in
    rs = fst (invoke_all cs w) /\ w' = snd (invoke_all cs w) /\
    state b' = CLOSED /\
    failure_count b' = (failure_count b + failures (fst (invoke_all cs w)))%Z /\
    failure_threshold b' = failure_threshold b /\
    recovery_timeout b' = recovery_timeout b.
Proof.
  induction cs as [|[[f tg] tf] cs IH]; intros b w Hs Hlt.
  - cbn. unfold failures. cbn. repeat split; lia || assumption.
  - cbn [calls invoke_all] in *. destruct (f w) as [r w1] eqn:Hf.
    destruct (invoke_all cs w1) as [rs w2] eqn:Hall. cbn [fst snd] in *.
    rewrite failures_cons in *. pose proof (failures_nonneg rs) as Hnn.
    destruct r as [a|e]; cbn [raised] in *.
    + rewrite (call_closed_ok b f tg tf w a w1 Hs Hf).
      specialize (IH b w1 Hs). rewrite Hall in IH. cbn [fst snd] in IH.
      specialize (IH ltac:(lia)).
      destruct (calls b cs w1) as [[rs' b'] w'].
      destruct IH as (-> & -> & H1 & H2 & H3 & H4).
      repeat split; try assumption; lia.
    + rewrite (call_closed_raise b f tg tf w e w1 Hs Hf).
      destruct (failure_threshold b <=? failure_count b + 1)%Z eqn:E;
        [apply Z.leb_le in E; lia|].
      set (b1 := mk _ _ _ _ _).
      specialize (IH b1 w1 eq_refl). rewrite Hall in IH.
      cbn [fst snd failure_count failure_threshold recovery_timeout b1] in IH.
      specialize (IH ltac:(lia)).
      destruct (calls b1 cs w1) as [[rs' b'] w'].
      destruct IH as (-> & -> & H1 & H2 & H3 & H4).
      repeat split; try assumption; lia.
Qed.

End CircuitBreakerFacts.

(** C3 (as amended).  The counter counts the failures since the breaker
    was created, successes in between not resetting it.  A fresh breaker
    with threshold [n] stays closed, lets every call through and counts
    while [n - 1] calls have failed; the [n]-th failure opens it.  From then
    on a call is rejected, the delegate not invoked, while no more than
    [recovery_timeout] has passed since that failure; the first call after
    that is a trial whose success closes the breaker with the counter zeroed
    and whose failure leaves it open with the failure time renewed, so that
    the next call is rejected again. *)
Theorem circuit_breaker_counts_all_failures {W R : Type}
    (n : Z) (rt : Q) (cs : list (@CircuitBreaker.delegate W R * Q * Q))
    (w : W) (f : @CircuitBreaker.delegate W R) (tg tf : Q) (e : exn) (w1 : W) :
  let rs := fst (CircuitBreaker.invoke_all cs w) in
  let w0 := snd (CircuitBreaker.invoke_all cs w) in
  let b := snd (fst (CircuitBreaker.calls (CircuitBreaker.init n rt) cs w)) in
  let b1 := snd (fst (CircuitBreaker.call b f tg tf w0)) in
  CircuitBreaker.failures rs = (n - 1)%Z ->
  f w0 = (Raise e, w1) ->
  CircuitBreaker.calls (CircuitBreaker.init n rt) cs w = (rs, b, w0) /\
  CircuitBreaker.state b = CircuitBreaker.CLOSED /\
  CircuitBreaker.failure_count b = (n - 1)%Z /\
  CircuitBreaker.call b f tg tf w0 = (Raise e, b1, w1) /\
  b1 = CircuitBreaker.mk n rt n tf CircuitBreaker.OPEN /\
  (forall (g : @CircuitBreaker.delegate W R) tg' tf' w',
      tg' - tf <= rt ->
      CircuitBreaker.call b1 g tg' tf' w' =
      (Raise (Exception "Circuit breaker is OPEN"), b1, w')) /\
  (forall (g : @CircuitBreaker.delegate W R) tg' tf' w' r w'',
      rt < tg' - tf -> g w' = (Ok r, w'') ->
      CircuitBreaker.call b1 g tg' tf' w' =
      (Ok r, CircuitBreaker.mk n rt 0 tf CircuitBreaker.CLOSED, w'')) /\
  (forall (g : @CircuitBreaker.delegate W R) tg' tf' w' e' w'',
      rt < tg' - tf -> g w' = (Raise e', w'') ->
      CircuitBreaker.call b1 g tg' tf' w' =
      (Raise e', CircuitBreaker.mk n rt (n + 1) tf' CircuitBreaker.OPEN, w'') /\
      forall (g2 : @CircuitBreaker.delegate W R) tg2 tf2 w2,
        tg2 - tf' <= rt ->
        fst (fst (CircuitBreaker.call
                    (CircuitBreaker.mk n rt (n + 1) tf' CircuitBreaker.OPEN)
                    g2 tg2 tf2 w2))
        = Raise (Exception "Circuit breaker is OPEN")).
Proof.
  intros rs w0 b b1 Hfail Hf.
  pose proof (calls_closed cs (CircuitBreaker.init n rt) w eq_refl) as Hc.
  simpl in Hc. fold rs in Hc. specialize (Hc ltac:(lia)).
  subst b1 b.
  destruct (CircuitBreaker.calls (CircuitBreaker.init n rt) cs w)
    as [[rs' b] w'] eqn:Hcalls.
  destruct Hc as (-> & Hw & Hs & Hn & Hthr & Hrt). simpl in *.
  fold w0 in Hw. subst w'.
  rewrite (call_closed_raise b f tg tf w0 e w1 Hs Hf). simpl.
  rewrite Hthr, Hrt, Hn, Hfail.
  replace (n - 1 + 1)%Z with n by lia. rewrite Z.leb_refl.
  repeat split; try reflexivity; try lia; try assumption.
  - intros g tg' tf' w' Ht. now apply call_open_rejected.
  - intros g tg' tf' w' r w'' Ht Hg.
    now rewrite (call_open_trial_ok _ g tg' tf' w' r w'').
  - rewrite (call_open_trial_raise _ g tg' tf' w' e' w'');
      simpl; try lia; try reflexivity; assumption.
  - intros g2 tg2 tf2 w2 Ht. now rewrite call_open_rejected.
Qed.

(** The breaker of [circuit_breaker_counts_all_failures] at threshold 2:
    a failure, a success, a failure. *)
Lemma circuit_breaker_counts_all_failures_witness :
  let bad : @CircuitBreaker.delegate unit unit :=
    fun w => (Raise (Exception "down"), w) in
  let good : @CircuitBreaker.delegate unit unit := fun w => (Ok tt, w) in
  let cs := [(bad, 1, 1); (good, 2, 2)] in
  let w0 := snd (CircuitBreaker.invoke_all cs tt) in
  CircuitBreaker.failures (fst (CircuitBreaker.invoke_all cs tt)) = (2 - 1)%Z /\
  bad w0 = (Raise (Exception "down"), tt) /\
  snd (fst (CircuitBreaker.call
              (snd (fst (CircuitBreaker.calls (CircuitBreaker.init 2 60) cs tt)))
              bad 3 3 w0))
  = CircuitBreaker.mk 2 60 2 3 CircuitBreaker.OPEN.
Proof.
  intros bad good cs w0.
  split; [reflexivity | split; [reflexivity |]].
  exact (proj1 (proj2 (proj2 (proj2 (proj2
           (circuit_breaker_counts_all_failures 2 60 cs tt bad 3 3
              (Exception "down") tt eq_refl eq_refl)))))).
Defined.

(** C3 (as stated, refuted).  Threshold 2: a failure, then a success, then
    a failure.  The success leaves the counter at 1, the second failure
    opens the breaker although no two failures were consecutive, and the
    fourth call is rejected. *)
Lemma circuit_breaker_success_keeps_count :
  let bad : @CircuitBreaker.delegate unit unit :=
    fun w => (Raise (Exception "down"), w) in
  let good : @CircuitBreaker.delegate unit unit := fun w => (Ok tt, w) in
  let after cs := snd (fst (CircuitBreaker.calls (CircuitBreaker.init 2 60)
                              cs tt)) in
  CircuitBreaker.failure_count (after [(bad, 1, 1)]) = 1%Z /\
  CircuitBreaker.failure_count (after [(bad, 1, 1); (good, 2, 2)]) = 1%Z /\
  CircuitBreaker.state (after [(bad, 1, 1); (good, 2, 2); (bad, 3, 3)])
  = CircuitBreaker.OPEN /\
  fst (fst (CircuitBreaker.calls (CircuitBreaker.init 2 60)
              [(bad, 1, 1); (good, 2, 2); (bad, 3, 3); (good, 4, 4)] tt))
  = [Raise (Exception "down"); Ok tt; Raise (Exception "down");
     Raise (Exception "Circuit breaker is OPEN")].
Proof. vm_compute. repeat split; reflexivity. Qed.

(** ** Truncation *)

Lemma py_int_nonneg (x : Q) : 0 <= x -> py_int x = Qfloor x.
Proof.
  destruct x as [n d]. unfold Qle, py_int, Qfloor. simpl. intros H.
  apply Z.quot_div_nonneg; lia.
Qed.

Lemma py_int_nonpos (x : Q) : x <= 0 -> py_int x = (- Qfloor (- x))%Z.
Proof.
  destruct x as [n d]. unfold Qle, py_int, Qfloor, Qopp. simpl. intros H.
  rewrite <- (Z.opp_involutive n) at 1.
  rewrite Z.quot_opp_l by lia. f_equal.
  apply Z.quot_div_nonneg; lia.
Qed.

(** Truncation depends on the value of the rational only. *)
Lemma py_int_comp (x y : Q) : x == y -> py_int x = py_int y.
Proof.
  intros E. destruct (Qlt_le_dec x 0) as [H|H].
  - rewrite (py_int_nonpos x), (py_int_nonpos y) by lra.
    f_equal. apply Qfloor_comp. now rewrite E.
  - rewrite (py_int_nonneg x), (py_int_nonneg y) by lra.
    now apply Qfloor_comp.
Qed.

Lemma py_int_inject_Z (z : Z) : py_int (inject_Z z) = z.
Proof. unfold py_int. simpl. apply Z.quot_1_r. Qed.

(** ** Effects *)

Section EffectFacts.
Import Effect Float.

Lemma running_eqb (s : AnimationState) :
  AnimationState_eqb s RUNNING = true <-> s = RUNNING.
Proof. destruct s; simpl; split; congruence. Qed.

Lemma ease_comp (t t' : Q) : t == t' -> _ease_in_out t = _ease_in_out t'.
Proof.
  intros E. unfold _ease_in_out, mul, sub.
  rewrite (round_comp (t * t) (t' * t')) by now rewrite E.
  rewrite (round_comp (2 * t) (2 * t')) by now rewrite E.
  reflexivity.
Qed.

Lemma fade_channel_comp (s e : Z) (w w' : Q) :
  w == w' -> fade_channel s e w = fade_channel s e w'.
Proof.
  intros E. unfold fade_channel, add, mul.
  rewrite (round_comp (of_int (e - s) * w) (of_int (e - s) * w'))
    by now rewrite E.
  reflexivity.
Qed.

Lemma fade_color_comp (sc ec : color) (w w' : Q) :
  w == w' -> fade_color sc ec w = fade_color sc ec w'.
Proof.
  intros E. destruct sc as [[sr sg] sb], ec as [[er eg] eb]. simpl.
  now rewrite !(fade_channel_comp _ _ w w' E).
Qed.

(** The constants of double arithmetic met below. *)
Lemma ulp_52 : 2 ^ (-52) == 2 * 2 ^ (-53).
Proof. reflexivity. Qed.

Lemma ulp_51 : 2 ^ (-51) == 4 * 2 ^ (-53).
Proof. reflexivity. Qed.

Lemma ulp_45 : 2 ^ (-45) == 256 * 2 ^ (-53).
Proof. reflexivity. Qed.

Lemma ulp_44 : 2 ^ (-44) == 512 * 2 ^ (-53).
Proof. reflexivity. Qed.

Lemma ulp_small : 8192 * 2 ^ (-53) <= rounding_slack.
Proof. unfold rounding_slack. vm_compute. discriminate. Qed.

(** The progress the code computes from the quotient [t]. *)
Lemma progress_near (t : Q) :
  0 <= t ->
  0 <= Qmin 1 (round t) /\ Qmin 1 (round t) <= 1 /\
  Qabs (Qmin 1 (round t) - Qmin 1 t) <= 2 ^ (-53).
Proof.
  intros H0. pose proof (pow2_pos (-53)) as Pu.
  assert (F1 : round 1 == 1) by reflexivity.
  pose proof (round_nonneg t H0) as R0.
  split; [apply Q.min_glb; lra|]. split; [apply Q.le_min_l|].
  destruct (Qlt_le_dec t 1) as [H1|H1].
  - pose proof (round_le t 1 (Qlt_le_weak _ _ H1)) as R1. rewrite F1 in R1.
    rewrite !Q.min_r by lra.
    apply (round_near t 0); [lia|].
    change (2 ^ 0) with 1. apply Qabs_Qle_condition. split; lra.
  - pose proof (round_le 1 t H1) as R1. rewrite F1 in R1.
    rewrite !Q.min_l by lra.
    assert (E : 1 - 1 == 0) by ring. rewrite E. simpl Qabs. lra.
Qed.

(** The double evaluation of the easing stays within 21 roundings of the
    exact smoothstep. *)
Lemma ease_near (p' p : Q) :
  0 <= p' -> p' <= 1 -> 0 <= p -> p <= 1 ->
  Qabs (p' - p) <= 2 ^ (-53) ->
  Qabs (_ease_in_out p' - spec_smoothstep p) <= 21 * 2 ^ (-53).
Proof.
  intros Hp0 Hp1 Hq0 Hq1 Hd. pose proof (pow2_pos (-53)) as Pu.
  unfold _ease_in_out, mul, sub, spec_smoothstep.
  assert (F0 : round 0 == 0) by reflexivity.
  assert (F1 : round 1 == 1) by reflexivity.
  assert (F2 : round 2 == 2) by reflexivity.
  assert (F3 : round 3 == 3) by reflexivity.
  (* t * t *)
  assert (Hpp : 0 <= p' * p' /\ p' * p' <= 1) by (split; nra).
  pose proof (round_near (p' * p') 0 ltac:(lia)) as Ea.
  change (2 ^ 0) with 1 in Ea. change (0 - 53)%Z with (-53)%Z in Ea.
  specialize (Ea ltac:(apply Qabs_Qle_condition; split; lra)).
  pose proof (round_le 0 (p' * p') (proj1 Hpp)) as A0. rewrite F0 in A0.
  pose proof (round_le (p' * p') 1 (proj2 Hpp)) as A1. rewrite F1 in A1.
  set (A := round (p' * p')) in *.
  (* 2 * t *)
  pose proof (round_near (2 * p') 1 ltac:(lia)) as Em.
  change (2 ^ 1) with 2 in Em. change (1 - 53)%Z with (-52)%Z in Em.
  specialize (Em ltac:(apply Qabs_Qle_condition; split; lra)).
  rewrite ulp_52 in Em.
  pose proof (round_le 0 (2 * p') ltac:(lra)) as M0. rewrite F0 in M0.
  pose proof (round_le (2 * p') 2 ltac:(lra)) as M2. rewrite F2 in M2.
  set (M := round (2 * p')) in *.
  (* 3 - 2 * t *)
  pose proof (round_near (3 - M) 2 ltac:(lia)) as Eb.
  change (2 ^ 2) with 4 in Eb. change (2 - 53)%Z with (-51)%Z in Eb.
  specialize (Eb ltac:(apply Qabs_Qle_condition; split; lra)).
  rewrite ulp_51 in Eb.
  pose proof (round_le 0 (3 - M) ltac:(lra)) as B0. rewrite F0 in B0.
  pose proof (round_le (3 - M) 3 ltac:(lra)) as B3. rewrite F3 in B3.
  set (B := round (3 - M)) in *.
  (* the product *)
  assert (Hab : 0 <= A * B /\ A * B <= 3) by (split; nra).
  pose proof (round_near (A * B) 2 ltac:(lia)) as Ec.
  change (2 ^ 2) with 4 in Ec. change (2 - 53)%Z with (-51)%Z in Ec.
  specialize (Ec ltac:(apply Qabs_Qle_condition; split; lra)).
  rewrite ulp_51 in Ec.
  set (C := round (A * B)) in *. set (u := 2 ^ (-53)) in *.
  apply Qabs_Qle_condition in Ea, Em, Eb, Ec, Hd.
  assert (Hs : 0 <= p' + p /\ p' + p <= 2) by (split; lra).
  assert (H1 : - (2 * u) <= (p' - p) * (p' + p) /\ (p' - p) * (p' + p) <= 2 * u)
    by (split; nra).
  assert (HX : - (3 * u) <= A - p * p /\ A - p * p <= 3 * u) by (split; nra).
  assert (HY : - (8 * u) <= B - (3 - 2 * p) /\ B - (3 - 2 * p) <= 8 * u)
    by (split; lra).
  assert (HXB : - (9 * u) <= (A - p * p) * B /\ (A - p * p) * B <= 9 * u)
    by (split; nra).
  assert (Hq2 : 0 <= p * p /\ p * p <= 1) by (split; nra).
  assert (HPY : - (8 * u) <= p * p * (B - (3 - 2 * p))
                /\ p * p * (B - (3 - 2 * p)) <= 8 * u) by (split; nra).
  apply Qabs_Qle_condition.
  assert (E : C - (3 * (p * p) - 2 * (p * p * p))
              == (C - A * B) + (A - p * p) * B + p * p * (B - (3 - 2 * p)))
    by ring.
  rewrite E. split; lra.
Qed.

End EffectFacts.
Section FadeFacts.
Import Effect Float.

Lemma inject_Z_range (n a b : Z) :
  (a <= n <= b)%Z -> inject_Z a <= inject_Z n /\ inject_Z n <= inject_Z b.
Proof. intros [H1 H2]. split; rewrite <- Zle_Qle; assumption. Qed.

Lemma of_int_exact (n : Z) : (Z.abs n <= 2 ^ 53)%Z -> of_int n == inject_Z n.
Proof. apply round_Z. Qed.

Lemma fade_channel_exact (s e : Z) (w : Q) :
  (Z.abs s <= 2 ^ 52)%Z -> (Z.abs e <= 2 ^ 52)%Z ->
  fade_channel s e w
  = py_int (round (inject_Z s + round (inject_Z (e - s) * w))).
Proof.
  intros Hs He. unfold fade_channel, add, mul.
  change (2 ^ 52)%Z with 4503599627370496%Z in Hs, He.
  assert (E1 : of_int s == inject_Z s)
    by (apply of_int_exact; change (2 ^ 53)%Z with 9007199254740992%Z; lia).
  assert (E2 : of_int (e - s) == inject_Z (e - s))
    by (apply of_int_exact; change (2 ^ 53)%Z with 9007199254740992%Z; lia).
  rewrite (round_comp (of_int (e - s) * w) (inject_Z (e - s) * w))
    by now rewrite E2.
  f_equal. apply round_comp. now rewrite E1.
Qed.

Lemma fade_channel_0 (s e : Z) :
  (Z.abs s <= 2 ^ 52)%Z -> (Z.abs e <= 2 ^ 52)%Z -> fade_channel s e 0 = s.
Proof.
  intros Hs He. rewrite (fade_channel_exact s e 0 Hs He).
  rewrite (round_comp (inject_Z (e - s) * 0) 0) by ring.
  rewrite (round_0 0) by reflexivity.
  rewrite (round_comp (inject_Z s + 0) (inject_Z s)) by ring.
  rewrite (py_int_comp _ (inject_Z s)); [apply py_int_inject_Z|].
  apply round_Z. change (2 ^ 52)%Z with 4503599627370496%Z in Hs.
  change (2 ^ 53)%Z with 9007199254740992%Z. lia.
Qed.

Lemma fade_channel_1 (s e : Z) :
  (Z.abs s <= 2 ^ 52)%Z -> (Z.abs e <= 2 ^ 52)%Z -> fade_channel s e 1 = e.
Proof.
  intros Hs He. rewrite (fade_channel_exact s e 1 Hs He).
  change (2 ^ 52)%Z with 4503599627370496%Z in Hs, He.
  assert (Ed : round (inject_Z (e - s)) == inject_Z (e - s))
    by (apply round_Z; change (2 ^ 53)%Z with 9007199254740992%Z; lia).
  rewrite (round_comp (inject_Z (e - s) * 1) (inject_Z (e - s))) by ring.
  rewrite (round_comp (inject_Z s + round (inject_Z (e - s))) (inject_Z e)).
  - rewrite (py_int_comp _ (inject_Z e)); [apply py_int_inject_Z|].
    apply round_Z. change (2 ^ 53)%Z with 9007199254740992%Z. lia.
  - rewrite Ed. unfold Z.sub. rewrite inject_Z_plus, inject_Z_opp. ring.
Qed.

(** At the weight one half a channel is the mean of its two ends, cut to an
    integer. *)
Lemma fade_channel_half (s e : Z) :
  (0 <= s <= 255)%Z -> (0 <= e <= 255)%Z ->
  fade_channel s e (1 # 2) = ((s + e) / 2)%Z.
Proof.
  intros Hs He.
  rewrite fade_channel_exact
    by (change (2 ^ 52)%Z with 4503599627370496%Z; lia).
  assert (Ed : inject_Z (e - s) == inject_Z e - inject_Z s)
    by (unfold Z.sub; rewrite inject_Z_plus, inject_Z_opp; ring).
  rewrite (round_comp (inject_Z (e - s) * (1 # 2))
             (inject_Z (e - s) * 2 ^ (-1))) by reflexivity.
  pose proof (round_fix (e - s) (-1)
                ltac:(change (2 ^ 53)%Z with 9007199254740992%Z; lia)
                ltac:(lia)) as E1.
  rewrite (round_comp (inject_Z s + round (inject_Z (e - s) * 2 ^ (-1)))
             (inject_Z (s + e) * 2 ^ (-1))).
  - pose proof (round_fix (s + e) (-1)
                  ltac:(change (2 ^ 53)%Z with 9007199254740992%Z; lia)
                  ltac:(lia)) as E2.
    rewrite (py_int_comp _ (inject_Z (s + e) / inject_Z 2)).
    + rewrite py_int_nonneg.
      * symmetry. apply Zdiv_Qdiv.
      * apply Qle_shift_div_l; [reflexivity|].
        rewrite Qmult_0_l. rewrite <- (Zle_Qle 0). lia.
    + rewrite E2. change (2 ^ (-1)) with (/ 2). change (inject_Z 2) with 2.
      field.
  - rewrite E1, Ed, inject_Z_plus. change (2 ^ (-1)) with (/ 2). field.
Qed.

(** A channel computed at a weight near [w] is the integer part of a value
    near the exact interpolation at [w]. *)
Lemma fade_channel_near (s e : Z) (w' w : Q) :
  (0 <= s <= 255)%Z -> (0 <= e <= 255)%Z ->
  0 <= w -> w <= 1 ->
  Qabs (w' - w) <= 21 * 2 ^ (-53) ->
  truncates_near (fade_channel s e w')
                 (inject_Z s + (inject_Z e - inject_Z s) * w).
Proof.
  intros Hs He Hw0 Hw1 Hd.
  rewrite fade_channel_exact
    by (change (2 ^ 52)%Z with 4503599627370496%Z; lia).
  eexists. split; [reflexivity|].
  pose proof (pow2_pos (-53)) as Pu.
  assert (Hu : 2 ^ (-53) <= 1 # 1000000) by (vm_compute; discriminate).
  assert (Ed : inject_Z (e - s) == inject_Z e - inject_Z s)
    by (unfold Z.sub; rewrite inject_Z_plus, inject_Z_opp; ring).
  pose proof (inject_Z_range s 0 255 Hs) as Bs.
  pose proof (inject_Z_range e 0 255 He) as Be.
  change (inject_Z 0) with 0 in Bs, Be.
  change (inject_Z 255) with 255 in Bs, Be.
  set (S := inject_Z s) in *. set (D := inject_Z (e - s)) in *.
  set (E := inject_Z e) in *. set (u := 2 ^ (-53)) in *.
  apply Qabs_Qle_condition in Hd.
  assert (BD : - (255) <= D /\ D <= 255) by (split; lra).
  assert (Hdw : - (255 * (21 * u)) <= D * (w' - w)
                /\ D * (w' - w) <= 255 * (21 * u)) by (split; nra).
  assert (HDw : - (255) <= D * w /\ D * w <= 255) by (split; nra).
  assert (EDw : D * w' == D * w + D * (w' - w)) by ring.
  pose proof (round_near (D * w') 8 ltac:(lia)) as Em.
  change (2 ^ 8) with 256 in Em. change (8 - 53)%Z with (-45)%Z in Em.
  specialize (Em ltac:(apply Qabs_Qle_condition; split; lra)).
  rewrite ulp_45 in Em. fold u in Em. apply Qabs_Qle_condition in Em.
  set (m := round (D * w')) in *.
  pose proof (round_near (S + m) 9 ltac:(lia)) as Ex.
  change (2 ^ 9) with 512 in Ex. change (9 - 53)%Z with (-44)%Z in Ex.
  specialize (Ex ltac:(apply Qabs_Qle_condition; split; lra)).
  rewrite ulp_44 in Ex. fold u in Ex. apply Qabs_Qle_condition in Ex.
  set (x := round (S + m)) in *.
  pose proof ulp_small as Hsl. fold u in Hsl.
  apply Qabs_Qle_condition.
  assert (Eg : x - (S + (E - S) * w) == (x - (S + m)) + (m - D * w') + D * (w' - w))
    by (rewrite EDw, Ed; ring).
  rewrite Eg. split; lra.
Qed.

End FadeFacts.

(** C8 (as amended).  A running fade with a non-zero duration returns a
    frame that holds one colour for all its pixels.  With [elapsed] the
    elapsed time the code computes and [p] the progress [elapsed / duration]
    capped at 1 (and not raised to 0 from below), each channel of the colour
    is, when the progress is not negative, the integer part of a value
    within the rounding slack of the exact smoothstep interpolation at [p]
    between the two displayable colours.  The colour is exactly the start
    colour at progress 0, the end colour from progress 1 on, and the mean of
    the two colours, cut to integers, at progress 1/2. *)
Theorem fade_update_smoothstep (e : Effect.t) (sc ec : color) (d now : Q) :
  Effect.kind e = Effect.Fade sc ec d ->
  Effect.state e = RUNNING ->
  ~ d == 0 ->
  displayable sc -> displayable ec ->
  let elapsed := Float.sub now (Effect.start_time e) in
  let t := elapsed / d in
  let p := Qmin 1 t in
  exists c,
    Effect.update e now =
    (Ok (Some (AnimationFrame.mk now
                 (map (fun _ => c) (Effect.pixel_indices e))
                 (Effect.pixel_indices e) 1 (Effect.effect_id e))), e) /\
    p <= 1 /\
    (0 <= t -> 0 <= p) /\
    (0 <= t ->
     let '(sr, sg, sb) := sc in
     let '(er, eg, eb) := ec in
     let '(r, g, b) := c in
     truncates_near r (spec_fade_channel sr er p) /\
     truncates_near g (spec_fade_channel sg eg p) /\
     truncates_near b (spec_fade_channel sb eb p)) /\
    (t == 0 -> c = sc) /\
    (1 <= t -> c = ec) /\
    (t == 1 # 2 ->
     let '(sr, sg, sb) := sc in
     let '(er, eg, eb) := ec in
     c = ((sr + er) / 2, (sg + eg) / 2, (sb + eb) / 2)%Z).
Proof.
  intros Hk Hs Hd Hsc Hec elapsed t p.
  set (p' := Qmin 1 (Float.round t)).
  exists (Effect.fade_color sc ec (Effect._ease_in_out p')).
  assert (Hp1 : p <= 1) by apply Q.le_min_l.
  assert (F1 : Float.round 1 == 1) by reflexivity.
  split; [|split; [exact Hp1 | split; [|split; [|split; [|split]]]]].
  - unfold Effect.update. rewrite Hk, Hs. simpl.
    unfold Effect.fade_update.
    destruct (Qeq_bool d 0) eqn:E; [apply Qeq_bool_iff in E; contradiction|].
    reflexivity.
  - intros Ht. apply Q.min_glb; lra.
  - intros Ht. destruct (progress_near t Ht) as (Q0 & Q1 & Qd).
    change (Qmin 1 (Float.round t)) with p' in Q0, Q1, Qd.
    change (Qmin 1 t) with p in Qd.
    assert (Hp0 : 0 <= p) by (apply Q.min_glb; lra).
    pose proof (ease_near p' p Q0 Q1 Hp0 Hp1 Qd) as Hw.
    assert (S0 : 0 <= spec_smoothstep p /\ spec_smoothstep p <= 1).
    { unfold spec_smoothstep.
      assert (Hpp : 0 <= p * p) by nra.
      assert (Hqq : 0 <= (1 - p) * (1 - p)) by nra.
      split.
      - assert (H : 0 <= p * p * (3 - 2 * p))
          by (apply Qmult_le_0_compat; [exact Hpp | lra]).
        assert (E : p * p * (3 - 2 * p) == 3 * (p * p) - 2 * (p * p * p))
          by ring.
        rewrite E in H. exact H.
      - assert (H : 0 <= (1 - p) * (1 - p) * (1 + 2 * p))
          by (apply Qmult_le_0_compat; [exact Hqq | lra]).
        assert (E : (1 - p) * (1 - p) * (1 + 2 * p)
                    == 1 - (3 * (p * p) - 2 * (p * p * p))) by ring.
        rewrite E in H. lra. }
    destruct sc as [[sr sg] sb], ec as [[er eg] eb].
    unfold displayable in Hsc, Hec. cbn [Effect.fade_color].
    unfold spec_fade_channel.
    repeat split; apply fade_channel_near; try lia; try tauto.
  - intros Ht.
    assert (E0 : p' == 0).
    { unfold p'. rewrite (round_0 t Ht). now rewrite Q.min_r. }
    rewrite (fade_color_comp sc ec _ 0)
      by (rewrite (ease_comp p' 0 E0); reflexivity).
    destruct sc as [[sr sg] sb], ec as [[er eg] eb].
    unfold displayable in Hsc, Hec. cbn [Effect.fade_color].
    rewrite !fade_channel_0
      by (change (2 ^ 52)%Z with 4503599627370496%Z; lia).
    reflexivity.
  - intros Ht.
    assert (E1 : p' == 1).
    { unfold p'. pose proof (round_le 1 t Ht) as R. rewrite F1 in R.
      now apply Q.min_l. }
    rewrite (fade_color_comp sc ec _ 1)
      by (rewrite (ease_comp p' 1 E1); reflexivity).
    destruct sc as [[sr sg] sb], ec as [[er eg] eb].
    unfold displayable in Hsc, Hec. cbn [Effect.fade_color].
    rewrite !fade_channel_1
      by (change (2 ^ 52)%Z with 4503599627370496%Z; lia).
    reflexivity.
  - intros Ht.
    assert (Eh : p' == 1 # 2).
    { unfold p'. rewrite (round_comp t (1 # 2) Ht).
      change (Float.round (1 # 2)) with (1 # 2). now rewrite Q.min_r. }
    rewrite (fade_color_comp sc ec _ (1 # 2))
      by (rewrite (ease_comp p' (1 # 2) Eh); reflexivity).
    destruct sc as [[sr sg] sb], ec as [[er eg] eb].
    unfold displayable in Hsc, Hec. cbn [Effect.fade_color].
    rewrite !fade_channel_half by lia.
    reflexivity.
Qed.

(** A two-second fade from black to (200, 100, 50), one second in. *)
Lemma fade_update_smoothstep_witness :
  let e := Effect.start
             (Effect.FadeEffect "fade" (0, 0, 0)%Z (200, 100, 50)%Z 2
                                (Some [0; 1]%Z)) 10 in
  Effect.kind e = Effect.Fade (0, 0, 0)%Z (200, 100, 50)%Z 2 /\
  Effect.state e = RUNNING /\
  ~ 2 == 0 /\
  displayable (0, 0, 0)%Z /\ displayable (200, 100, 50)%Z /\
  Float.sub 11 (Effect.start_time e) / 2 == 1 # 2 /\
  fst (Effect.update e 11) =
  Ok (Some (AnimationFrame.mk 11 [(100, 50, 25); (100, 50, 25)]%Z
                              [0; 1]%Z 1 "fade")).
Proof.
  intros e.
  assert (Hd : ~ 2 == 0) by (intro H; discriminate H).
  assert (H1 : displayable (0, 0, 0)%Z) by (unfold displayable; lia).
  assert (H2 : displayable (200, 100, 50)%Z) by (unfold displayable; lia).
  assert (Ht : Float.sub 11 (Effect.start_time e) / 2 == 1 # 2)
    by reflexivity.
  split; [reflexivity | split; [reflexivity | split; [exact Hd |
    split; [exact H1 | split; [exact H2 | split; [exact Ht |]]]]]].
  destruct (fade_update_smoothstep e (0, 0, 0)%Z (200, 100, 50)%Z 2 11
              eq_refl eq_refl Hd H1 H2)
    as (c & Hu & _ & _ & _ & _ & _ & Hh).
  rewrite Hu, (Hh Ht). reflexivity.
Defined.

(** C8 (as stated, refuted).  A two-second fade from black to
    (100, 100, 100) started at time 10 and updated at time 8: the progress is
    -1, the weight 5 and the colour (500, 500, 500), where a progress
    clamped to 0 would give the start colour.  And a ten-second fade from
    black to (250, 250, 250), seven seconds in: the exact interpolation is
    196 and the code, rounding at each step, returns 195. *)
Lemma fade_progress_not_clamped_below :
  let e := Effect.start
             (Effect.FadeEffect "fade" (0, 0, 0)%Z (100, 100, 100)%Z 2
                                (Some [0]%Z)) 10 in
  let t := Float.sub 8 (Effect.start_time e) / 2 in
  let e' := Effect.start
              (Effect.FadeEffect "fade" (0, 0, 0)%Z (250, 250, 250)%Z 10
                                 (Some [0]%Z)) 0 in
  t == -1 /\
  Qmin 1 t == -1 /\
  spec_clamped_progress t == 0 /\
  fst (Effect.update e 8) =
  Ok (Some (AnimationFrame.mk 8 [(500, 500, 500)%Z] [0%Z] 1 "fade")) /\
  spec_fade_channel 0 100 (spec_clamped_progress t) == 0 /\
  fst (Effect.update e' 7) =
  Ok (Some (AnimationFrame.mk 7 [(195, 195, 195)%Z] [0%Z] 1 "fade")) /\
  spec_fade_channel 0 250 (7 / 10) == 196.
Proof. vm_compute. repeat split; reflexivity. Qed.

(** C6 (as amended).  Right after [start] an effect is not complete when:
    it is a blink or a weather effect (with the non-negative timeout every
    constructor sets), a fade with a positive duration, or a heat map whose
    iteration counter is still below its cap.  For a fade with duration [d]
    started at [now], [is_complete] at a later time holds exactly when the
    elapsed time the code computes, the double nearest to the difference of
    the two times, is at least [d]: whenever the exact difference is at
    least the double [d], and only when it is within one rounding of
    that. *)
Theorem is_complete_after_start (e : Effect.t) (now : Q) :
  0 <= Effect.timeout e ->
  match Effect.kind e with
  | Effect.Blink _ _ _ _ => True
  | Effect.Weather _ _ _ => True
  | Effect.Fade _ _ d => 0 < d
  | Effect.HeatMap _ max_iterations current_iteration _ =>
      (current_iteration < max_iterations)%Z
  | Effect.Custom _ done => done now = false
  end ->
  Effect.state (Effect.start e now) = RUNNING /\
  Effect.is_complete (Effect.start e now) now = false /\
  forall later,
    match Effect.kind e with
    | Effect.Fade _ _ d =>
        (Effect.is_complete (Effect.start e now) later = true
         <-> d <= Float.sub later now) /\
        (Float.is_float d -> d <= later - now ->
         Effect.is_complete (Effect.start e now) later = true) /\
        (Effect.is_complete (Effect.start e now) later = true ->
         now < later /\
         d <= (later - now) * (1 + 2 ^ (-53)) + 2 ^ (-1075))
    | _ => True
    end.
Proof.
  intros Ht Hk. split; [reflexivity|].
  assert (E0 : Float.sub now now = 0)
    by (unfold Float.sub; apply round_0; ring).
  unfold Effect.is_complete, Effect.is_timed_out.
  cbn [Effect.kind Effect.start Effect.start_time Effect.timeout].
  destruct (Effect.kind e)
    as [c dc br pe | ty i ph | sc ec d | da m cur fs | upd done].
  - split; [|trivial]. rewrite E0. apply Qltb_false. lra.
  - split; [|trivial]. rewrite E0. apply Qltb_false. lra.
  - split.
    + rewrite E0. destruct (Qle_bool d 0) eqn:E; [|reflexivity].
      apply Qle_bool_iff in E. lra.
    + intros later. split; [apply Qle_bool_iff|]. split.
      * intros Hf Hle. apply Qle_bool_iff. unfold Float.sub.
        pose proof (round_le d (later - now) Hle) as R.
        unfold Float.is_float in Hf. lra.
      * intros Hc. apply Qle_bool_iff in Hc. unfold Float.sub in Hc.
        assert (Hpos : 0 < later - now).
        { destruct (Qlt_le_dec 0 (later - now)) as [H|H]; [exact H|].
          pose proof (round_le (later - now) 0 H) as R.
          rewrite (round_0 0) in R by reflexivity. lra. }
        split; [lra|].
        pose proof (round_rel (later - now)) as R.
        rewrite (Qabs_pos (later - now)) in R by lra.
        apply Qabs_Qle_condition in R.
        set (x := later - now) in *. set (r := Float.round x) in *.
        set (u := 2 ^ (-53)) in *. set (v := 2 ^ (-1075)) in *.
        lra.
  - split; [|trivial]. apply Z.leb_gt. exact Hk.
  - split; [exact Hk | trivial].
Qed.

(** A two-second fade started at time 10: not complete at the start, nor
    at the double nearest to 11.999; complete at time 12. *)
Lemma is_complete_after_start_witness :
  let e := Effect.FadeEffect "fade" (0, 0, 0)%Z (255, 255, 255)%Z 2 None in
  0 <= Effect.timeout e /\
  0 < 2 /\
  Float.is_float 2 /\
  2 <= 12 - 10 /\
  Effect.is_complete (Effect.start e 10) 10 = false /\
  Effect.is_complete (Effect.start e 10) (Float.round 11.999) = false /\
  Effect.is_complete (Effect.start e 10) 12 = true.
Proof.
  intros e.
  assert (H0 : 0 <= Effect.timeout e) by (intro H; discriminate H).
  assert (H2 : 0 < 2) by reflexivity.
  assert (Hf : Float.is_float 2) by reflexivity.
  assert (Hl : 2 <= 12 - 10) by (intro H; discriminate H).
  split; [exact H0 | split; [exact H2 | split; [exact Hf | split;
    [exact Hl |]]]].
  destruct (is_complete_after_start e 10 H0 H2) as (_ & Hc & Hlater).
  split; [exact Hc | split; [reflexivity|]].
  exact (proj1 (proj2 (Hlater 12)) Hf Hl).
Defined.

(** Every constructor sets the timeout to 30, and a new heat map has done
    no iteration. *)
Lemma fresh_effects (id ty : string) (c sc ec : color) (dc br i d : Q)
    (data : list Q) (m : Z) (px : option (list Z)) :
  (forall e, Effect.BlinkEffect id c dc br px = Ok e ->
             Effect.timeout e = 30 /\ exists p, Effect.kind e = Effect.Blink c dc br p) /\
  (let e := Effect.WeatherEffect id ty i px in
   Effect.timeout e = 30 /\ Effect.kind e = Effect.Weather ty i 0) /\
  (let e := Effect.FadeEffect id sc ec d px in
   Effect.timeout e = 30 /\ Effect.kind e = Effect.Fade sc ec d) /\
  (let e := Effect.HeatMapEffect id data m px in
   Effect.timeout e = 30 /\ Effect.kind e = Effect.HeatMap data m 0 0.02).
Proof.
  repeat split.
  - unfold Effect.BlinkEffect in H. destruct (Qeq_bool br 0); [discriminate|].
    injection H as <-. reflexivity.
  - unfold Effect.BlinkEffect in H. destruct (Qeq_bool br 0); [discriminate|].
    injection H as <-. eexists. reflexivity.
Qed.

(** C6 (as stated, refuted).  A heat map with a cap of one iteration is not
    complete right after its first start; after its one productive update it
    is started again and is complete at once.  So are, right after their
    first start, a heat map with a cap of zero and a fade of duration zero.
    And a fade of duration 0.6 started at 0.1 is complete at 0.7, although
    the exact distance of the two doubles is below the duration: the
    elapsed time the code compares is the rounded difference. *)
Lemma heat_map_complete_right_after_start :
  let h := Effect.HeatMapEffect "heat" [0.5] 1 None in
  let h1 := snd (Effect.run h [Effect.Start 0; Effect.Update 0]) in
  let start := Float.round 0.1 in
  let later := Float.round 0.7 in
  let d := Float.round 0.6 in
  Effect.is_complete (Effect.start h 0) 0 = false /\
  productive_count (fst (Effect.run h [Effect.Start 0; Effect.Update 0])) = 1%nat /\
  Effect.state (Effect.start h1 5) = RUNNING /\
  Effect.is_complete (Effect.start h1 5) 5 = true /\
  Effect.is_complete
    (Effect.start (Effect.HeatMapEffect "heat" [0.5] 0 None) 0) 0 = true /\
  Effect.is_complete
    (Effect.start (Effect.FadeEffect "fade" black black 0 None) 0) 0 = true /\
  Effect.is_complete
    (Effect.start (Effect.FadeEffect "fade" black black d None) start) later
  = true /\
  later - start < d.
Proof. vm_compute. repeat split; reflexivity. Qed.

(** ** HeatMap iteration cap *)

Section HeatMapFacts.
Import Effect.

Lemma productive_count_cons (r : Result (option AnimationFrame.t)) rs :
  productive_count (r :: rs)
  = ((if productive r then 1 else 0) + productive_count rs)%nat.
Proof. unfold productive_count. simpl. destruct (productive r); reflexivity. Qed.

(** The iteration counter of a heat map goes up by one at each productive
    update, is changed by nothing else, and never passes the cap. *)
Lemma heat_map_run (ops : list op) :
  forall (e : t) data m cur fs,
    kind e = HeatMap data m cur fs ->
    let '(rs, e') := run e ops in
    let cur' := (cur + Z.of_nat (productive_count rs))%Z in
    kind e' = HeatMap data m cur' fs /\
    (cur' <= Z.max cur m)%Z /\
    Forall (fun r => exists o, r = Ok o) rs.
Proof.
  induction ops as [|o ops IH]; intros e data m cur fs Hk.
  - simpl. unfold productive_count. simpl. rewrite Z.add_0_r.
    repeat split; [exact Hk | lia | constructor].
  - destruct o as [now| | | |now]; simpl;
      try (apply (IH _ data m cur fs); exact Hk).
    unfold update. rewrite Hk.
    destruct (negb (AnimationState_eqb (state e) RUNNING)).
    + specialize (IH e data m cur fs Hk).
      destruct (run e ops) as [rs e']. rewrite productive_count_cons. simpl.
      destruct IH as (H1 & H2 & H3). repeat split; try assumption.
      constructor; [eexists; reflexivity | assumption].
    + destruct (m <=? cur)%Z eqn:E.
      * specialize (IH e data m cur fs Hk).
        destruct (run e ops) as [rs e']. rewrite productive_count_cons. simpl.
        destruct IH as (H1 & H2 & H3). repeat split; try assumption.
        constructor; [eexists; reflexivity | assumption].
      * apply Z.leb_gt in E.
        specialize (IH (set_kind e (HeatMap data m (cur + 1) fs))
                       data m (cur + 1)%Z fs eq_refl).
        destruct (run _ ops) as [rs e']. rewrite productive_count_cons.
        cbn [productive]. destruct IH as (H1 & H2 & H3).
        replace (cur + Z.of_nat (1 + productive_count rs))%Z
          with (cur + 1 + Z.of_nat (productive_count rs))%Z by lia.
        repeat split; [assumption | lia |].
        constructor; [eexists; reflexivity | assumption].
Qed.

End HeatMapFacts.

(** C7.  Over any sequence of calls on a new heat map, the updates that
    return a frame number at most [max_iterations]; once that many have
    returned a frame, whatever is called next, no update returns a frame or
    raises, and [is_complete] holds at every time. *)
Theorem heat_map_iteration_cap (id : string) (data : list Q) (m : Z)
    (px : option (list Z)) (ops : list Effect.op) :
  let h := Effect.HeatMapEffect id data m px in
  let rs := fst (Effect.run h ops) in
  let h' := snd (Effect.run h ops) in
  (Z.of_nat (productive_count rs) <= Z.max 0 m)%Z /\
  ((m <= Z.of_nat (productive_count rs))%Z ->
   forall (more : list Effect.op) (now : Q),
     fst (Effect.run h' more) = map (fun _ => Ok None) (fst (Effect.run h' more)) /\
     productive_count (fst (Effect.run h' more)) = 0%nat /\
     fst (Effect.update (Effect.start h' now) now) = Ok None /\
     Effect.is_complete (snd (Effect.run h' more)) now = true).
Proof.
  intros h rs h'.
  pose proof (heat_map_run ops h data m 0%Z 0.02 eq_refl) as H.
  subst rs h'. destruct (Effect.run h ops) as [rs h'].
  destruct H as (Hk & Hle & _). simpl fst. simpl snd. simpl in Hk, Hle.
  split; [exact Hle|]. intros Hm more now.
  pose proof (heat_map_run more h' data m _ 0.02 Hk) as H.
  destruct (Effect.run h' more) as [rs2 h2]. simpl fst. simpl snd.
  destruct H as (Hk2 & Hle2 & Hok).
  assert (Hz : productive_count rs2 = 0%nat) by lia.
  repeat split.
  - clear Hk2 Hle2. induction Hok as [|r rs2 [o ->] Hok IH]; [reflexivity|].
    rewrite productive_count_cons in Hz.
    destruct o as [f|]; simpl in Hz; [discriminate|].
    simpl. f_equal. apply IH. exact Hz.
  - exact Hz.
  - unfold Effect.update. simpl. rewrite Hk.
    destruct (m <=? Z.of_nat (productive_count rs))%Z eqn:E; [reflexivity|].
    apply Z.leb_gt in E. lia.
  - unfold Effect.is_complete. rewrite Hk2. apply Z.leb_le. lia.
Qed.

(** ** The effect table *)

(** C9.  [add_effect] with an id that is in the table returns [False] and
    the controller, table and registered effect included, is as before;
    [remove_effect] with an id that is not in the table returns [False] and
    the controller is as before.  Both return a plain boolean. *)
Theorem add_remove_rejected (c : AnimationController.t) (effect : Effect.t)
    (effect_id : string) :
  AnimationController.contains (Effect.effect_id effect)
                               (AnimationController.effects c) = true ->
  AnimationController.contains effect_id
                               (AnimationController.effects c) = false ->
  AnimationController.add_effect c effect = (false, c) /\
  AnimationController.lookup (Effect.effect_id effect)
    (AnimationController.effects (snd (AnimationController.add_effect c effect)))
  = AnimationController.lookup (Effect.effect_id effect)
                               (AnimationController.effects c) /\
  AnimationController.remove_effect c effect_id = (false, c).
Proof.
  intros Hin Hout.
  unfold AnimationController.add_effect, AnimationController.remove_effect.
  rewrite Hin, Hout. simpl. repeat split; reflexivity.
Qed.

(** A table that holds the fade "home": a blink of the same id is
    rejected, and so is the removal of "wind". *)
Lemma add_remove_rejected_witness :
  let home := Effect.FadeEffect "home" (0, 0, 0)%Z (0, 255, 0)%Z 2 None in
  let other := Effect.WeatherEffect "home" "rain" 1 None in
  exists c0,
    AnimationController.init None 30 0 0 = Ok c0 /\
    let c := snd (AnimationController.add_effect c0 home) in
    AnimationController.contains (Effect.effect_id other)
                                 (AnimationController.effects c) = true /\
    AnimationController.contains "wind" (AnimationController.effects c) = false /\
    AnimationController.add_effect c other = (false, c) /\
    AnimationController.lookup "home" (AnimationController.effects c) = Some home /\
    AnimationController.remove_effect c "wind" = (false, c).
Proof.
  intros home other. eexists. split; [reflexivity|].
  intros c.
  assert (Hin : AnimationController.contains (Effect.effect_id other)
                  (AnimationController.effects c) = true) by reflexivity.
  assert (Hout : AnimationController.contains "wind"
                   (AnimationController.effects c) = false) by reflexivity.
  destruct (add_remove_rejected c other "wind" Hin Hout) as (Ha & _ & Hr).
  split; [exact Hin | split; [exact Hout | split; [exact Ha | split;
    [reflexivity | exact Hr]]]].
Defined.

(** ** The compositor *)

Section CompositorFacts.
Import AnimationController.

Lemma list_set_length {A : Type} (l : list A) (n : nat) (x : A) :
  List.length (list_set l n x) = List.length l.
Proof.
  revert n. induction l as [|y l IH]; intros [|n]; simpl; auto.
Qed.

Lemma list_set_nth {A : Type} (l : list A) (n k : nat) (x d : A) :
  (n < List.length l)%nat ->
  nth k (list_set l n x) d = if Nat.eqb k n then x else nth k l d.
Proof.
  revert n k. induction l as [|y l IH]; intros n k H; simpl in H; [lia|].
  destruct n as [|n], k as [|k]; simpl; try reflexivity.
  apply IH. lia.
Qed.

Lemma blend_at_length (buf buf' : list color) (i : Z) (p : color) :
  blend_at buf i p = Ok buf' -> List.length buf' = List.length buf.
Proof.
  unfold blend_at. destruct (i <? _)%Z; [|intros [= <-]; reflexivity].
  destruct (py_index _ i) as [pos|]; simpl; [|discriminate].
  intros [= <-]. apply list_set_length.
Qed.

Lemma blend_at_out_of_range (buf : list color) (i : Z) (p : color) :
  (Z.of_nat (List.length buf) <= i)%Z -> blend_at buf i p = Ok buf.
Proof.
  intros H. unfold blend_at.
  destruct (i <? _)%Z eqn:E; [apply Z.ltb_lt in E; lia | reflexivity].
Qed.

(** A write that returns changes the one position its index denotes. *)
Lemma blend_at_nth (buf buf' : list color) (i : Z) (p : color) (k : nat) :
  blend_at buf i p = Ok buf' ->
  (k < List.length buf)%nat ->
  nth k buf' black =
  if hits (List.length buf) k i then blend (nth k buf black) p
  else nth k buf black.
Proof.
  unfold blend_at, py_index, hits. intros H Hk.
  destruct (i <? Z.of_nat (List.length buf))%Z eqn:E1.
  - apply Z.ltb_lt in E1. destruct (0 <=? i)%Z eqn:E2.
    + apply Z.leb_le in E2.
      destruct (i <? Z.of_nat (List.length buf))%Z eqn:E3;
        [|apply Z.ltb_ge in E3; lia].
      simpl in H. injection H as <-.
      rewrite list_set_nth by lia.
      destruct (Nat.eqb k (Z.to_nat i)) eqn:E4.
      * apply Nat.eqb_eq in E4. subst k.
        replace (i =? Z.of_nat (Z.to_nat i))%Z with true
          by (symmetry; apply Z.eqb_eq; lia).
        reflexivity.
      * apply Nat.eqb_neq in E4.
        replace (i =? Z.of_nat k)%Z with false
          by (symmetry; apply Z.eqb_neq; lia).
        replace (i =? Z.of_nat k - Z.of_nat (List.length buf))%Z with false
          by (symmetry; apply Z.eqb_neq; lia).
        reflexivity.
    + apply Z.leb_gt in E2.
      destruct (- Z.of_nat (List.length buf) <=? i)%Z eqn:E3;
        simpl in H; [|discriminate].
      apply Z.leb_le in E3. injection H as <-.
      rewrite list_set_nth by lia.
      replace (i =? Z.of_nat k)%Z with false
        by (symmetry; apply Z.eqb_neq; lia).
      destruct (Nat.eqb k (Z.to_nat (i + Z.of_nat (List.length buf)))) eqn:E4.
      * apply Nat.eqb_eq in E4.
        replace (i =? Z.of_nat k - Z.of_nat (List.length buf))%Z with true
          by (symmetry; apply Z.eqb_eq; lia).
        subst k. reflexivity.
      * apply Nat.eqb_neq in E4.
        replace (i =? Z.of_nat k - Z.of_nat (List.length buf))%Z with false
          by (symmetry; apply Z.eqb_neq; lia).
        reflexivity.
  - apply Z.ltb_ge in E1. injection H as <-.
    replace (i =? Z.of_nat k)%Z with false
      by (symmetry; apply Z.eqb_neq; lia).
    replace (i =? Z.of_nat k - Z.of_nat (List.length buf))%Z with false
      by (symmetry; apply Z.eqb_neq; lia).
    reflexivity.
Qed.

(** A write raises only for an index below minus the length. *)
Lemma blend_at_returns (buf : list color) (i : Z) (p : color) :
  (- Z.of_nat (List.length buf) <= i)%Z -> exists buf', blend_at buf i p = Ok buf'.
Proof.
  intros H. unfold blend_at, py_index.
  destruct (i <? Z.of_nat (List.length buf))%Z eqn:E1; [|eexists; reflexivity].
  destruct (0 <=? i)%Z; simpl.
  - eexists; reflexivity.
  - destruct (- Z.of_nat (List.length buf) <=? i)%Z eqn:E3;
      [eexists; reflexivity | apply Z.leb_gt in E3; lia].
Qed.

Lemma apply_pairs_length (l : list (Z * color)) :
  forall buf buf', apply_pairs buf l = Ok buf' ->
                   List.length buf' = List.length buf.
Proof.
  induction l as [|[i p] l IH]; intros buf buf'; simpl.
  - intros [= <-]. reflexivity.
  - destruct (blend_at buf i p) as [b1|] eqn:E; simpl; [|discriminate].
    intros H. rewrite (IH _ _ H). eapply blend_at_length, E.
Qed.

Lemma apply_pairs_app (l1 l2 : list (Z * color)) :
  forall buf, apply_pairs buf (l1 ++ l2)
              = (b <- apply_pairs buf l1 ;; apply_pairs b l2).
Proof.
  induction l1 as [|[i p] l1 IH]; intros buf; simpl; [reflexivity|].
  destruct (blend_at buf i p) as [b1|]; simpl; [apply IH | reflexivity].
Qed.

(** Position [k] of the result is the fold of the blend over the colours
    sent to [k], in the order of the entries, from the value it had. *)
Lemma apply_pairs_nth (l : list (Z * color)) (k : nat) :
  forall buf buf',
    apply_pairs buf l = Ok buf' ->
    (k < List.length buf)%nat ->
    nth k buf' black
    = fold_left blend (writes_to (List.length buf) k l) (nth k buf black).
Proof.
  induction l as [|[i p] l IH]; intros buf buf'; simpl.
  - intros [= <-] _. reflexivity.
  - destruct (blend_at buf i p) as [b1|] eqn:E; simpl; [|discriminate].
    intros H Hk.
    pose proof (blend_at_length _ _ _ _ E) as Hl.
    rewrite (IH _ _ H) by lia. rewrite Hl.
    rewrite (blend_at_nth _ _ _ _ k E Hk).
    unfold writes_to. simpl.
    destruct (hits (List.length buf) k i); reflexivity.
Qed.

Lemma skipn_nth_error {A : Type} (l : list A) :
  forall i x, nth_error l i = Some x -> skipn i l = x :: skipn (S i) l.
Proof.
  induction l as [|y l IH]; intros [|i] x; simpl; try discriminate.
  - intros [= ->]. reflexivity.
  - intros H. rewrite (IH _ _ H). reflexivity.
Qed.

(** The inner loop over [enumerate(frame.pixels)] with its test
    [i < len(frame.indices)] visits the pairs of the two lists. *)
Lemma apply_pixels_pairs (pixels : list color) :
  forall buf indices i,
    apply_pixels buf indices i pixels
    = apply_pairs buf (combine (skipn i indices) pixels).
Proof.
  induction pixels as [|p pixels IH]; intros buf indices i.
  - simpl. now rewrite combine_nil.
  - simpl. unfold apply_pixel.
    destruct (nth_error indices i) as [idx|] eqn:E.
    + rewrite (skipn_nth_error _ _ _ E). simpl.
      destruct (blend_at buf idx p); simpl; [apply IH | reflexivity].
    + apply nth_error_None in E. simpl. rewrite IH.
      rewrite !skipn_all2 by lia. reflexivity.
Qed.

Lemma apply_frame_pairs (buf : list color) (f : AnimationFrame.t) :
  apply_frame buf f = apply_pairs buf (pairs_of f).
Proof. unfold apply_frame. now rewrite apply_pixels_pairs. Qed.

Lemma apply_frames_pairs (fs : list AnimationFrame.t) :
  forall buf, apply_frames buf fs = apply_pairs buf (List.concat (map pairs_of fs)).
Proof.
  induction fs as [|f fs IH]; intros buf; simpl; [reflexivity|].
  rewrite apply_pairs_app, apply_frame_pairs.
  destruct (apply_pairs buf (pairs_of f)); simpl; [apply IH | reflexivity].
Qed.

End CompositorFacts.

Section CompositorRange.
Import AnimationController.

Lemma combine_fst_snd {A B : Type} (l : list (A * B)) :
  combine (map fst l) (map snd l) = l.
Proof. induction l as [|[a b] l IH]; simpl; [|rewrite IH]; reflexivity. Qed.

Lemma pairs_of_restrict (n : nat) (f : AnimationFrame.t) :
  pairs_of (restrict n f)
  = writable (Z.of_nat n) (AnimationFrame.indices f) (AnimationFrame.pixels f).
Proof. unfold pairs_of, restrict. simpl. apply combine_fst_snd. Qed.

(** Dropping the entries with an index from the length on, and the colours
    without an index, changes neither the buffer nor whether the loop
    raises. *)
Lemma apply_pairs_writable (indices : list Z) :
  forall pixels buf,
    apply_pairs buf (writable (Z.of_nat (List.length buf)) indices pixels)
    = apply_pairs buf (combine indices pixels).
Proof.
  induction indices as [|i indices IH]; intros [|p pixels] buf; simpl;
    try reflexivity.
  destruct (i <? Z.of_nat (List.length buf))%Z eqn:E.
  - simpl. destruct (blend_at buf i p) as [b1|] eqn:Eb; simpl; [|reflexivity].
    rewrite <- (blend_at_length _ _ _ _ Eb). apply IH.
  - apply Z.ltb_ge in E. rewrite (blend_at_out_of_range buf i p E). simpl.
    apply IH.
Qed.

Lemma apply_frame_restrict (buf : list color) (f : AnimationFrame.t) :
  apply_frame buf (restrict (List.length buf) f) = apply_frame buf f.
Proof.
  rewrite !apply_frame_pairs, pairs_of_restrict. apply apply_pairs_writable.
Qed.

Lemma apply_frames_restrict (fs : list AnimationFrame.t) :
  forall buf,
    apply_frames buf (map (restrict (List.length buf)) fs) = apply_frames buf fs.
Proof.
  induction fs as [|f fs IH]; intros buf; simpl; [reflexivity|].
  rewrite apply_frame_restrict.
  destruct (apply_frame buf f) as [b1|] eqn:E; simpl; [|reflexivity].
  rewrite apply_frame_pairs in E.
  rewrite <- (apply_pairs_length _ _ _ E). apply IH.
Qed.

Lemma insert_keyed_map {A B : Type} (g : A -> B) (x : Z * A) (l : list (Z * A)) :
  insert_keyed (on_snd g x) (map (on_snd g) l)
  = map (on_snd g) (insert_keyed x l).
Proof.
  induction l as [|y l IH]; simpl; [reflexivity|].
  destruct (fst x <=? fst y)%Z; simpl; [reflexivity | now rewrite IH].
Qed.

Lemma sort_keyed_map {A B : Type} (g : A -> B) (l : list (Z * A)) :
  sort_keyed (map (on_snd g) l) = map (on_snd g) (sort_keyed l).
Proof.
  induction l as [|x l IH]; simpl; [reflexivity|].
  now rewrite IH, insert_keyed_map.
Qed.

Lemma sort_keys_map (effs : table) (g : AnimationFrame.t -> AnimationFrame.t)
    (fs : list AnimationFrame.t) :
  (forall f, AnimationFrame.effect_id (g f) = AnimationFrame.effect_id f) ->
  sort_keys effs (map g fs)
  = (keyed <- sort_keys effs fs ;; Ok (map (on_snd g) keyed)).
Proof.
  intros Hg. induction fs as [|f fs IH]; simpl; [reflexivity|].
  rewrite Hg. destruct (lookup _ effs); [|reflexivity].
  rewrite IH. destruct (sort_keys effs fs); reflexivity.
Qed.

Lemma sort_frames_map (effs : table) (g : AnimationFrame.t -> AnimationFrame.t)
    (fs : list AnimationFrame.t) :
  (forall f, AnimationFrame.effect_id (g f) = AnimationFrame.effect_id f) ->
  sort_frames effs (map g fs)
  = (sorted <- sort_frames effs fs ;; Ok (map g sorted)).
Proof.
  intros Hg. unfold sort_frames. rewrite (sort_keys_map effs g fs Hg).
  destruct (sort_keys effs fs) as [keyed|]; simpl; [|reflexivity].
  rewrite sort_keyed_map, !map_map. reflexivity.
Qed.

Lemma sort_keys_snd (effs : table) (fs : list AnimationFrame.t) :
  forall keyed, sort_keys effs fs = Ok keyed -> map snd keyed = fs.
Proof.
  induction fs as [|f fs IH]; simpl; intros keyed.
  - intros [= <-]. reflexivity.
  - destruct (lookup _ effs); [|discriminate].
    destruct (sort_keys effs fs) as [l|]; simpl; [|discriminate].
    intros [= <-]. simpl. now rewrite (IH l).
Qed.

Lemma sort_keys_returns (effs : table) (fs : list AnimationFrame.t) :
  (forall f, In f fs -> contains (AnimationFrame.effect_id f) effs = true) ->
  exists keyed, sort_keys effs fs = Ok keyed.
Proof.
  induction fs as [|f fs IH]; intros H; simpl; [eexists; reflexivity|].
  pose proof (H f (or_introl eq_refl)) as Hf. unfold contains in Hf.
  destruct (lookup _ effs); [|discriminate].
  destruct IH as [l ->]; [intros g Hg; apply H; now right|].
  simpl. eexists; reflexivity.
Qed.

Lemma insert_keyed_perm {A : Type} (x : Z * A) (l : list (Z * A)) :
  Permutation (insert_keyed x l) (x :: l).
Proof.
  induction l as [|y l IH]; simpl; [reflexivity|].
  destruct (fst x <=? fst y)%Z; [reflexivity|].
  rewrite IH. apply perm_swap.
Qed.

Lemma sort_keyed_perm {A : Type} (l : list (Z * A)) :
  Permutation (sort_keyed l) l.
Proof.
  induction l as [|x l IH]; simpl; [reflexivity|].
  rewrite insert_keyed_perm. now constructor.
Qed.

Lemma insert_keyed_sorted {A : Type} (x : Z * A) (l : list (Z * A)) :
  Sorted (fun a b => (fst a <= fst b)%Z) l ->
  Sorted (fun a b => (fst a <= fst b)%Z) (insert_keyed x l).
Proof.
  induction l as [|y l IH]; simpl; intros H.
  - repeat constructor.
  - destruct (fst x <=? fst y)%Z eqn:E.
    + apply Z.leb_le in E. constructor; [exact H | constructor; exact E].
    + apply Z.leb_gt in E. inversion H as [|? ? Hs Hh]; subst.
      constructor; [apply IH; exact Hs|].
      destruct l as [|z l]; simpl.
      * constructor. lia.
      * destruct (fst x <=? fst z)%Z; constructor; [lia|].
        inversion Hh; subst. assumption.
Qed.

Lemma sort_keyed_sorted {A : Type} (l : list (Z * A)) :
  StronglySorted (fun a b => (fst a <= fst b)%Z) (sort_keyed l).
Proof.
  apply Sorted_StronglySorted; [intros a b c' H1 H2; lia|].
  induction l as [|x l IH]; simpl; [constructor|].
  now apply insert_keyed_sorted.
Qed.

Lemma apply_pairs_returns (l : list (Z * color)) :
  forall buf,
    (forall i p, In (i, p) l -> (- Z.of_nat (List.length buf) <= i)%Z) ->
    exists buf', apply_pairs buf l = Ok buf'.
Proof.
  induction l as [|[i p] l IH]; intros buf H; simpl; [eexists; reflexivity|].
  destruct (blend_at_returns buf i p) as [b1 E];
    [apply (H i p); now left|].
  rewrite E. simpl. apply IH. intros j q Hj.
  rewrite (blend_at_length _ _ _ _ E). apply (H j q). now right.
Qed.

Lemma nth_repeat_black (n k : nat) : nth k (repeat black n) black = black.
Proof.
  revert k. induction n as [|n IH]; intros [|k]; simpl; auto.
Qed.

Lemma fold_blend_writes_app (n k : nat) (l1 l2 : list (Z * color)) :
  writes_to n k (l1 ++ l2) = writes_to n k l1 ++ writes_to n k l2.
Proof. unfold writes_to. now rewrite filter_app, map_app. Qed.

Lemma writes_to_concat_nil (n k : nat) (ls : list (list (Z * color))) :
  (forall l, In l ls -> writes_to n k l = []) ->
  writes_to n k (List.concat ls) = [].
Proof.
  induction ls as [|l ls IH]; intros H; simpl; [reflexivity|].
  rewrite fold_blend_writes_app, (H l) by now left.
  apply IH. intros l' Hl'. apply H. now right.
Qed.

(** What [_combine_effects] returns with a pixel driver of [n] pixels. *)
Lemma combine_effects_inv (c : t) (led : LedStrip.t)
    (frames : list AnimationFrame.t) (cf : AnimationFrame.t) :
  led_controller c = Some led ->
  _combine_effects c frames = Ok (Some cf) ->
  exists keyed combined rest,
    sort_keys (effects c) frames = Ok keyed /\
    map snd (sort_keyed keyed) = combined :: rest /\
    apply_frames (repeat black (Z.to_nat (LedStrip.number led)))
                 (combined :: rest) = Ok (AnimationFrame.pixels cf) /\
    cf = AnimationFrame.mk (AnimationFrame.timestamp combined)
           (AnimationFrame.pixels cf)
           (Effect.range (Z.to_nat (LedStrip.number led)))
           (AnimationFrame.brightness combined) "combined".
Proof.
  intros Hled. unfold _combine_effects, sort_frames, buffer_length.
  destruct frames as [|f0 frames]; [discriminate|].
  rewrite Hled.
  destruct (sort_keys (effects c) (f0 :: frames)) as [keyed|]; [|discriminate].
  simpl bind.
  destruct (map snd (sort_keyed keyed)) as [|combined rest] eqn:Es;
    [discriminate|].
  destruct (apply_frames _ (combined :: rest)) as [px|] eqn:Ea;
    [|discriminate].
  simpl. intros [= <-]. exists keyed, combined, rest. simpl.
  repeat split; assumption || reflexivity.
Qed.

End CompositorRange.

Section CompositorClaims.
Import AnimationController.

Lemma sorted_frames_in (effs : table) (frames : list AnimationFrame.t)
    (keyed : list (Z * AnimationFrame.t)) (f : AnimationFrame.t) :
  sort_keys effs frames = Ok keyed ->
  In f (map snd (sort_keyed keyed)) -> In f frames.
Proof.
  intros Hk Hin. rewrite <- (sort_keys_snd _ _ _ Hk).
  eapply Permutation_in; [|exact Hin].
  apply Permutation_map, sort_keyed_perm.
Qed.

(** With a pixel driver, [_combine_effects] returns a frame when there are
    frames, each from a registered effect, and no index lies below minus
    the pixel count. *)
Lemma combine_effects_returns (c : t) (led : LedStrip.t)
    (frames : list AnimationFrame.t) :
  led_controller c = Some led ->
  frames <> [] ->
  (forall f, In f frames ->
             contains (AnimationFrame.effect_id f) (effects c) = true) ->
  (forall f i, In f frames -> In i (AnimationFrame.indices f) ->
               (- Z.of_nat (Z.to_nat (LedStrip.number led)) <= i)%Z) ->
  exists cf, _combine_effects c frames = Ok (Some cf).
Proof.
  intros Hled Hne Hreg Hidx. set (n := Z.to_nat (LedStrip.number led)) in *.
  destruct (sort_keys_returns _ _ Hreg) as [keyed Hk].
  unfold _combine_effects, sort_frames, buffer_length.
  destruct frames as [|f0 frames]; [contradiction|].
  rewrite Hk, Hled. cbn [bind].
  destruct (map snd (sort_keyed keyed)) as [|combined rest] eqn:Es.
  - pose proof (Permutation_length
                  (Permutation_map snd (sort_keyed_perm keyed))) as Hl.
    rewrite Es, (sort_keys_snd _ _ _ Hk) in Hl. discriminate Hl.
  - fold n. rewrite apply_frames_pairs.
    destruct (apply_pairs_returns
                (List.concat (map pairs_of (combined :: rest)))
                (repeat black n)) as [px Hpx].
    + intros i p Hin. rewrite repeat_length.
      apply in_concat in Hin. destruct Hin as (l & Hl & Hip).
      apply in_map_iff in Hl. destruct Hl as (f & <- & Hf).
      apply (Hidx f i).
      * apply (sorted_frames_in _ _ _ _ Hk). rewrite Es. exact Hf.
      * unfold pairs_of in Hip. eapply in_combine_l, Hip.
    + rewrite Hpx. cbn [bind]. eexists. reflexivity.
Qed.

End CompositorClaims.

(** C10.  With a pixel driver of [n] pixels, a combined frame has exactly
    [n] pixels, for the indices 0 to [n - 1], black wherever no frame entry
    points.  The entries of a frame with an index of [n] or more, and its
    colours past the end of its index list, make no difference to what
    [_combine_effects] returns or raises; and with every frame coming from a
    registered effect and no index below [-n], it returns a frame. *)
Theorem combined_frame_covers_strip (c : AnimationController.t)
    (led : LedStrip.t) (frames : list AnimationFrame.t) :
  AnimationController.led_controller c = Some led ->
  let n := Z.to_nat (LedStrip.number led) in
  (forall cf,
      AnimationController._combine_effects c frames = Ok (Some cf) ->
      List.length (AnimationFrame.pixels cf) = n /\
      AnimationFrame.indices cf = map Z.of_nat (seq 0 n) /\
      forall k,
        (k < n)%nat ->
        (forall f, In f frames ->
                   AnimationController.writes_to n k
                     (AnimationController.pairs_of f) = []) ->
        nth k (AnimationFrame.pixels cf) black = black) /\
  AnimationController._combine_effects c
    (map (AnimationController.restrict n) frames)
  = AnimationController._combine_effects c frames /\
  (frames <> [] ->
   (forall f, In f frames ->
              AnimationController.contains (AnimationFrame.effect_id f)
                (AnimationController.effects c) = true) ->
   (forall f i, In f frames -> In i (AnimationFrame.indices f) ->
                (- Z.of_nat n <= i)%Z) ->
   exists cf, AnimationController._combine_effects c frames = Ok (Some cf)).
Proof.
  intros Hled n. split; [|split].
  - intros cf Hcf.
    destruct (combine_effects_inv c led frames cf Hled Hcf)
      as (keyed & combined & rest & Hk & Hs & Ha & Hcfeq).
    fold n in Ha, Hcfeq. rewrite apply_frames_pairs in Ha.
    pose proof (apply_pairs_length _ _ _ Ha) as Hlen.
    rewrite repeat_length in Hlen.
    split; [exact Hlen|]. split; [rewrite Hcfeq; reflexivity|].
    intros k Hkn Hno.
    rewrite (apply_pairs_nth _ k _ _ Ha) by (rewrite repeat_length; exact Hkn).
    rewrite repeat_length, nth_repeat_black.
    rewrite writes_to_concat_nil; [reflexivity|].
    intros l Hl. apply in_map_iff in Hl. destruct Hl as (f & <- & Hf).
    apply Hno. apply (sorted_frames_in _ _ _ _ Hk). rewrite Hs. exact Hf.
  - unfold AnimationController._combine_effects.
    destruct frames as [|f0 frames]; [reflexivity|].
    cbn [map].
    change (AnimationController.restrict n f0
              :: map (AnimationController.restrict n) frames)
      with (map (AnimationController.restrict n) (f0 :: frames)).
    rewrite sort_frames_map by reflexivity.
    destruct (AnimationController.sort_frames _ (f0 :: frames))
      as [[|combined rest]|]; try reflexivity.
    cbn [bind map]. unfold AnimationController.buffer_length.
    rewrite Hled. cbn [bind]. fold n.
    pose proof (apply_frames_restrict (combined :: rest) (repeat black n)) as H.
    rewrite repeat_length in H. cbn [map] in H. rewrite H.
    reflexivity.
  - intros Hne Hreg Hidx.
    exact (combine_effects_returns c led frames Hled Hne Hreg Hidx).
Qed.

(** A strip of three pixels; a frame with an entry for pixel 5 and a fourth
    colour that has no index. *)
Lemma combined_frame_covers_strip_witness :
  let led := LedStrip.mk 3 [] in
  let home := Effect.FadeEffect "home" (0, 0, 0)%Z (0, 255, 0)%Z 2 None in
  let c := AnimationController.mk (Some led) 30
             (FrameRateLimiter.mk 30 (1 / 30) 0 0 0.1) (SharedClock.init 0)
             [("home"%string, home)] None RUNNING 0 0 0 in
  let f := AnimationFrame.mk 0
             [(255, 0, 0); (0, 255, 0); (0, 0, 255); (255, 255, 255)]%Z
             [0; 5; 1]%Z 1 "home" in
  AnimationController.led_controller c = Some led /\
  AnimationController._combine_effects c [f]
  = Ok (Some (AnimationFrame.mk 0 [(127, 0, 0); (0, 0, 127); (0, 0, 0)]%Z
                                [0; 1; 2]%Z 1 "combined")) /\
  AnimationController._combine_effects c [AnimationController.restrict 3 f]
  = Ok (Some (AnimationFrame.mk 0 [(127, 0, 0); (0, 0, 127); (0, 0, 0)]%Z
                                [0; 1; 2]%Z 1 "combined")).
Proof.
  intros led home c f.
  split; [reflexivity | split; [reflexivity |]].
  exact (eq_trans
           (proj1 (proj2 (combined_frame_covers_strip c led [f] eq_refl)))
           eq_refl).
Defined.

Section BlendFacts.
Import AnimationController.

(** On colour values, which are not negative and which a double holds
    exactly, the blend is the floor of the mean: halving and adding such
    values needs no rounding. *)
Lemma blend_channel_mean (cur p : Z) :
  (0 <= cur + p)%Z -> (Z.abs cur <= 2 ^ 52)%Z -> (Z.abs p <= 2 ^ 52)%Z ->
  blend_channel cur p = ((cur + p) / 2)%Z.
Proof.
  intros H Hc Hp. unfold blend_channel, Float.add, Float.mul.
  change (2 ^ 52)%Z with 4503599627370496%Z in Hc, Hp.
  change (Float.sub 1 alpha) with (1 # 2).
  assert (Ec : Float.of_int cur == inject_Z cur)
    by (apply round_Z; change (2 ^ 53)%Z with 9007199254740992%Z; lia).
  assert (Ep : Float.of_int p == inject_Z p)
    by (apply round_Z; change (2 ^ 53)%Z with 9007199254740992%Z; lia).
  assert (Hh : 2 ^ (-1) == 1 # 2) by reflexivity.
  rewrite (round_comp (Float.of_int cur * (1 # 2)) (inject_Z cur * 2 ^ (-1)))
    by (rewrite Ec, Hh; reflexivity).
  rewrite (round_comp (Float.of_int p * alpha) (inject_Z p * 2 ^ (-1)))
    by (rewrite Ep, Hh; unfold alpha; ring).
  pose proof (round_fix cur (-1)
                ltac:(change (2 ^ 53)%Z with 9007199254740992%Z; lia)
                ltac:(lia)) as E1.
  pose proof (round_fix p (-1)
                ltac:(change (2 ^ 53)%Z with 9007199254740992%Z; lia)
                ltac:(lia)) as E2.
  pose proof (round_fix (cur + p) (-1)
                ltac:(change (2 ^ 53)%Z with 9007199254740992%Z; lia)
                ltac:(lia)) as E3.
  rewrite (round_comp _ (inject_Z (cur + p) * 2 ^ (-1)))
    by (rewrite E1, E2, inject_Z_plus; ring).
  rewrite (py_int_comp _ (inject_Z (cur + p) / inject_Z 2)).
  - rewrite py_int_nonneg.
    + symmetry. apply Zdiv_Qdiv.
    + apply Qle_shift_div_l; [reflexivity|].
      rewrite Qmult_0_l. rewrite <- (Zle_Qle 0). exact H.
  - rewrite E3, Hh. change (inject_Z 2) with 2. field.
Qed.

Lemma sort_two {A : Type} (v1 v2 : Z) (a1 a2 : A) :
  (v1 <= v2)%Z ->
  sort_keyed [(v1, a1); (v2, a2)] = [(v1, a1); (v2, a2)] /\
  ((v1 < v2)%Z -> sort_keyed [(v2, a2); (v1, a1)] = [(v1, a1); (v2, a2)]).
Proof.
  intros H. simpl.
  destruct (v1 <=? v2)%Z eqn:E1; [|apply Z.leb_gt in E1; lia].
  split; [reflexivity|]. intros Hlt.
  destruct (v2 <=? v1)%Z eqn:E2; [apply Z.leb_le in E2; lia|].
  reflexivity.
Qed.

(** The sort is stable: the entries of one key keep the order they came
    in. *)
Lemma insert_keyed_filter {A : Type} (v : Z) (x : Z * A) (l : list (Z * A)) :
  filter (fun y => (fst y =? v)%Z) (insert_keyed x l)
  = filter (fun y => (fst y =? v)%Z) (x :: l).
Proof.
  induction l as [|y l IH]; [reflexivity|].
  cbn [insert_keyed]. destruct (fst x <=? fst y)%Z eqn:E; [reflexivity|].
  apply Z.leb_gt in E. cbn [filter] in *. rewrite IH.
  destruct (fst x =? v)%Z eqn:Ex; [|reflexivity].
  apply Z.eqb_eq in Ex.
  destruct (fst y =? v)%Z eqn:Ey; [|reflexivity].
  apply Z.eqb_eq in Ey. lia.
Qed.

Lemma sort_keyed_stable {A : Type} (v : Z) (l : list (Z * A)) :
  filter (fun y => (fst y =? v)%Z) (sort_keyed l)
  = filter (fun y => (fst y =? v)%Z) l.
Proof.
  induction l as [|x l IH]; [reflexivity|].
  cbn [sort_keyed]. rewrite insert_keyed_filter. cbn [filter].
  now rewrite IH.
Qed.

Lemma sort_keys_priority (effs : table) (fs : list AnimationFrame.t) :
  forall keyed,
    sort_keys effs fs = Ok keyed ->
    forall v f, In (v, f) keyed ->
      exists e, lookup (AnimationFrame.effect_id f) effs = Some e /\
                v = priority_value (Effect.priority e).
Proof.
  induction fs as [|f0 fs IH]; simpl; intros keyed.
  - intros [= <-] v f [].
  - destruct (lookup (AnimationFrame.effect_id f0) effs) as [e0|] eqn:E;
      [|discriminate].
    destruct (sort_keys effs fs) as [l|]; simpl; [|discriminate].
    intros [= <-] v f [[= <- <-]|Hin].
    + exists e0. split; [exact E | reflexivity].
    + now apply (IH l).
Qed.

End BlendFacts.

(** C4 (as amended).  With a pixel driver of [n] pixels and frames that
    come from registered effects with no index below [-n], a combined frame
    is produced.  The frames are applied in ascending order of the priority
    value of their effects, the highest priority first and the lowest
    priority last, frames of equal priority in the order given: the sorted
    list is a permutation of the frames, ascending in the priority value,
    in which the frames of each priority value keep their order.  Each pixel
    of the combined frame is the fold, from black, of the blend over the
    colours sent to it, in that order; the blend of two channel values that
    are not negative, and small enough for a double to hold them exactly, is
    the floor of their mean.  So for two effects that
    each send one colour to a pixel, [a] from the higher priority and [b]
    from the lower, the pixel is [blend (blend black a) b] whichever frame
    came first in the input, and for two effects of one priority it is that
    blend with [a] from the frame that came first; the timestamp and the
    brightness are those of the frame applied first. *)
Theorem combine_effects_blends_in_priority_order
    (c : AnimationController.t) (led : LedStrip.t)
    (frames : list AnimationFrame.t) :
  AnimationController.led_controller c = Some led ->
  frames <> [] ->
  (forall f, In f frames ->
             AnimationController.contains (AnimationFrame.effect_id f)
               (AnimationController.effects c) = true) ->
  (forall f i, In f frames -> In i (AnimationFrame.indices f) ->
               (- Z.of_nat (Z.to_nat (LedStrip.number led)) <= i)%Z) ->
  let n := Z.to_nat (LedStrip.number led) in
  exists cf keyed,
    AnimationController._combine_effects c frames = Ok (Some cf) /\
    AnimationController.sort_keys (AnimationController.effects c) frames
    = Ok keyed /\
    map snd keyed = frames /\
    (forall v f, In (v, f) keyed ->
       exists e,
         AnimationController.lookup (AnimationFrame.effect_id f)
           (AnimationController.effects c) = Some e /\
         v = priority_value (Effect.priority e)) /\
    let sorted := AnimationController.sort_keyed keyed in
    Permutation sorted keyed /\
    StronglySorted (fun x y => (fst x <= fst y)%Z) sorted /\
    (forall v,
        filter (fun x => (fst x =? v)%Z) sorted
        = filter (fun x => (fst x =? v)%Z) keyed) /\
    (forall k,
        (k < n)%nat ->
        nth k (AnimationFrame.pixels cf) black
        = fold_left AnimationController.blend
            (AnimationController.writes_to n k
               (List.concat (map (fun x => AnimationController.pairs_of (snd x))
                                 sorted)))
            black) /\
    (forall cur p,
        (0 <= cur + p)%Z ->
        (Z.abs cur <= 2 ^ 52)%Z -> (Z.abs p <= 2 ^ 52)%Z ->
        AnimationController.blend_channel cur p = ((cur + p) / 2)%Z) /\
    (forall a b,
        (0 <= a <= 2 ^ 52)%Z -> (0 <= b <= 2 ^ 52)%Z ->
        AnimationController.blend_channel
          (AnimationController.blend_channel 0 a) b
        = ((a / 2 + b) / 2)%Z) /\
    (forall v1 f1 v2 f2,
        (v1 <= v2)%Z ->
        keyed = [(v1, f1); (v2, f2)]
        \/ ((v1 < v2)%Z /\ keyed = [(v2, f2); (v1, f1)]) ->
        sorted = [(v1, f1); (v2, f2)] /\
        AnimationFrame.timestamp cf = AnimationFrame.timestamp f1 /\
        AnimationFrame.brightness cf = AnimationFrame.brightness f1 /\
        forall k a b,
          (k < n)%nat ->
          AnimationController.writes_to n k (AnimationController.pairs_of f1)
          = [a] ->
          AnimationController.writes_to n k (AnimationController.pairs_of f2)
          = [b] ->
          nth k (AnimationFrame.pixels cf) black
          = AnimationController.blend (AnimationController.blend black a) b).
Proof.
  intros Hled Hne Hreg Hidx n.
  destruct (combine_effects_returns c led frames Hled Hne Hreg Hidx)
    as [cf Hcf].
  destruct (combine_effects_inv c led frames cf Hled Hcf)
    as (keyed & combined & rest & Hk & Hs & Ha & Hcfeq).
  fold n in Ha, Hcfeq. rewrite <- Hs, apply_frames_pairs in Ha.
  rewrite map_map in Ha.
  assert (Hpix : forall k, (k < n)%nat ->
            nth k (AnimationFrame.pixels cf) black
            = fold_left AnimationController.blend
                (AnimationController.writes_to n k
                   (List.concat
                      (map (fun x => AnimationController.pairs_of (snd x))
                           (AnimationController.sort_keyed keyed))))
                black).
  { intros k Hkn.
    rewrite (apply_pairs_nth _ k _ _ Ha) by (rewrite repeat_length; exact Hkn).
    now rewrite repeat_length, nth_repeat_black. }
  exists cf, keyed. split; [exact Hcf|]. split; [exact Hk|].
  split; [exact (sort_keys_snd _ _ _ Hk)|].
  split; [exact (sort_keys_priority _ _ _ Hk)|].
  intros sorted. split; [apply sort_keyed_perm|].
  split; [apply sort_keyed_sorted|].
  split; [intros v; apply sort_keyed_stable|].
  split; [exact Hpix|].
  split; [exact blend_channel_mean|].
  split.
  { intros a b Ha0 Hb0.
    change (2 ^ 52)%Z with 4503599627370496%Z in Ha0, Hb0.
    rewrite (blend_channel_mean 0 a)
      by (change (2 ^ 52)%Z with 4503599627370496%Z; lia).
    rewrite Z.add_0_l.
    pose proof (Z.div_pos a 2 ltac:(lia) ltac:(lia)) as D0.
    assert (D1 : (a / 2 <= a)%Z)
      by (apply Z.div_le_upper_bound; lia).
    apply blend_channel_mean;
      change (2 ^ 52)%Z with 4503599627370496%Z; lia. }
  intros v1 f1 v2 f2 Hle Hkeyed.
  assert (Hsorted : sorted = [(v1, f1); (v2, f2)]).
  { destruct (sort_two v1 v2 f1 f2 Hle) as [H1 H2].
    unfold sorted. destruct Hkeyed as [-> | [Hlt ->]]; [exact H1 | exact (H2 Hlt)]. }
  split; [exact Hsorted|].
  unfold sorted in Hsorted. rewrite Hsorted in Hs. simpl in Hs.
  injection Hs as <- <-.
  split; [rewrite Hcfeq; reflexivity|].
  split; [rewrite Hcfeq; reflexivity|].
  intros k a b Hkn Hw1 Hw2.
  rewrite (Hpix k Hkn), Hsorted. simpl.
  rewrite app_nil_r, fold_blend_writes_app, Hw1, Hw2. reflexivity.
Qed.

(** A strip of three pixels with a heat map (low priority, blue) and a fade
    (medium priority, red) on pixel 1, the heat map first in the table. *)
Lemma combine_effects_blends_in_priority_order_witness :
  let led := LedStrip.mk 3 [] in
  let heat := Effect.start
                (Effect.HeatMapEffect "heat" [0] 100 (Some [1%Z])) 1 in
  let home := Effect.start
                (Effect.FadeEffect "home" (255, 0, 0)%Z (255, 0, 0)%Z 2
                                   (Some [1%Z])) 1 in
  let c := AnimationController.mk (Some led) 30
             (FrameRateLimiter.mk 30 (1 / 30) 0 0 0.1) (SharedClock.init 0)
             [("heat"%string, heat); ("home"%string, home)]
             None RUNNING 0 0 0 in
  let f_heat := AnimationFrame.mk 2 [(0, 0, 255)%Z] [1%Z] 1 "heat" in
  let f_home := AnimationFrame.mk 2 [(255, 0, 0)%Z] [1%Z] 1 "home" in
  let frames := [f_heat; f_home] in
  fst (AnimationController.update_effects (AnimationController.effects c) 2)
  = frames /\
  AnimationController.led_controller c = Some led /\
  frames <> [] /\
  (forall f, In f frames ->
             AnimationController.contains (AnimationFrame.effect_id f)
               (AnimationController.effects c) = true) /\
  (forall f i, In f frames -> In i (AnimationFrame.indices f) ->
               (- Z.of_nat (Z.to_nat (LedStrip.number led)) <= i)%Z) /\
  exists cf,
    AnimationController._combine_effects c frames = Ok (Some cf) /\
    nth 1 (AnimationFrame.pixels cf) black
    = AnimationController.blend
        (AnimationController.blend black (255, 0, 0)%Z) (0, 0, 255)%Z /\
    nth 1 (AnimationFrame.pixels cf) black = (63, 0, 127)%Z.
Proof.
  intros led heat home c f_heat f_home frames.
  assert (Hne : frames <> []) by discriminate.
  assert (Hreg : forall f, In f frames ->
            AnimationController.contains (AnimationFrame.effect_id f)
              (AnimationController.effects c) = true).
  { intros f [<- | [<- | []]]; reflexivity. }
  assert (Hidx : forall f i, In f frames -> In i (AnimationFrame.indices f) ->
            (- Z.of_nat (Z.to_nat (LedStrip.number led)) <= i)%Z).
  { intros f i [<- | [<- | []]] [<- | []]; simpl; lia. }
  split; [reflexivity|].
  split; [reflexivity|].
  split; [exact Hne|]. split; [exact Hreg|]. split; [exact Hidx|].
  destruct (combine_effects_blends_in_priority_order c led frames
              eq_refl Hne Hreg Hidx)
    as (cf & keyed & Hcf & Hk & _ & _ & _ & _ & _ & _ & _ & _ & Htwo).
  exists cf. split; [exact Hcf|].
  assert (E : keyed = [(4%Z, f_heat); (3%Z, f_home)]).
  { vm_compute in Hk. injection Hk as <-. reflexivity. }
  assert (Hle : (3 <= 4)%Z) by lia.
  destruct (Htwo 3%Z f_home 4%Z f_heat Hle (or_intror (conj eq_refl E)))
    as (_ & _ & _ & Hpx).
  assert (H1 : nth 1 (AnimationFrame.pixels cf) black
               = AnimationController.blend
                   (AnimationController.blend black (255, 0, 0)%Z)
                   (0, 0, 255)%Z).
  { apply Hpx; [simpl; lia | reflexivity | reflexivity]. }
  split; [exact H1 | rewrite H1; reflexivity].
Defined.

(** C4 (as stated, refuted).  The strip, table and tick of the witness
    above: the fade has the higher priority and sends red to pixel 1, the
    heat map the lower priority and sends blue.  The tick sets pixel 1 to
    (63, 0, 127): red was blended first and blue last.  Had the
    higher-priority colour been composited last, the pixel would be
    (127, 0, 63).  And the blend can be the raw colour of the higher
    priority: (100, 100, 100) blended first and (150, 150, 150) second give
    (100, 100, 100). *)
Lemma higher_priority_composited_first :
  let led := LedStrip.mk 3 [] in
  let heat := Effect.start
                (Effect.HeatMapEffect "heat" [0] 100 (Some [1%Z])) 1 in
  let home := Effect.start
                (Effect.FadeEffect "home" (255, 0, 0)%Z (255, 0, 0)%Z 2
                                   (Some [1%Z])) 1 in
  let c := AnimationController.mk (Some led) 30
             (FrameRateLimiter.mk 30 (1 / 30) 0 0 0.1) (SharedClock.init 0)
             [("heat"%string, heat); ("home"%string, home)]
             None RUNNING 0 0 0 in
  let r := AnimationController.update c
             (AnimationController.mk_reads 2 2 2 2) in
  map AnimationFrame.pixels
      (fst (AnimationController.update_effects
              (AnimationController.effects c) 2))
  = [[(0, 0, 255)%Z]; [(255, 0, 0)%Z]] /\
  priority_value (Effect.priority home) = 3%Z /\
  priority_value (Effect.priority heat) = 4%Z /\
  fst r = Ok true /\
  option_map LedStrip.requests (AnimationController.led_controller (snd r))
  = Some [LedStrip.SetPixelColor 0 (0, 0, 0)%Z;
          LedStrip.SetPixelColor 1 (63, 0, 127)%Z;
          LedStrip.SetPixelColor 2 (0, 0, 0)%Z;
          LedStrip.ShowPixels] /\
  AnimationController.spec_higher_priority_last (255, 0, 0)%Z (0, 0, 255)%Z
  = (127, 0, 63)%Z /\
  AnimationController.spec_higher_priority_last (255, 0, 0)%Z (0, 0, 255)%Z
  <> (63, 0, 127)%Z /\
  AnimationController.blend
    (AnimationController.blend black (100, 100, 100)%Z) (150, 150, 150)%Z
  = (100, 100, 100)%Z.
Proof.
  vm_compute. repeat split; try reflexivity. discriminate.
Qed.

(** ** One tick of the controller *)

Section TickFacts.
Import AnimationController.

(** An [update] that raises has written nothing to the effect. *)
Lemma effect_update_raise_keeps (e : Effect.t) (now : Q) (x : exn) :
  fst (Effect.update e now) = Raise x -> snd (Effect.update e now) = e.
Proof.
  unfold Effect.update.
  destruct (Effect.kind e) as [? ? ? ?| ? ? ? | ? ? ? | ? ? ? ? | ? ?];
    try (destruct (negb _); reflexivity).
  - destruct (negb _); [reflexivity|].
    destruct (Effect.weather_update e _ _ now). discriminate.
  - destruct (negb _); [reflexivity|].
    destruct (_ <=? _)%Z; [reflexivity | discriminate].
  - reflexivity.
Qed.

Lemma is_complete_set_state (e : Effect.t) (s : AnimationState) (now : Q) :
  Effect.is_complete (Effect.set_state e s) now = Effect.is_complete e now.
Proof. reflexivity. Qed.

(** The loop body on an effect whose [update] raises: no frame, and the
    effect is left errored, or stopped when it is complete. *)
Lemma update_effect_raise (e : Effect.t) (now : Q) (x : exn) :
  Effect.state e = RUNNING ->
  fst (Effect.update e now) = Raise x ->
  update_effect e now
  = (None, if Effect.is_complete e now
           then Effect.stop (Effect.set_state e ERROR)
           else Effect.set_state e ERROR).
Proof.
  intros Hs Hx. pose proof (effect_update_raise_keeps e now x Hx) as Hk.
  unfold update_effect. rewrite Hs. simpl.
  destruct (Effect.update e now) as [r e']. simpl in Hx, Hk. subst r e'.
  rewrite is_complete_set_state. destruct (Effect.is_complete e now); reflexivity.
Qed.

(** The loop body on an effect that is already errored. *)
Lemma update_effect_errored (e : Effect.t) (now : Q) :
  update_effect (Effect.set_state e ERROR) now
  = (None, if Effect.is_complete e now
           then Effect.stop (Effect.set_state e ERROR)
           else Effect.set_state e ERROR).
Proof.
  unfold update_effect. simpl. rewrite is_complete_set_state.
  destruct (Effect.is_complete e now); reflexivity.
Qed.

(** The loop treats each entry of the table on its own. *)
Lemma update_effects_app (l1 l2 : table) (now : Q) :
  update_effects (l1 ++ l2) now
  = (fst (update_effects l1 now) ++ fst (update_effects l2 now),
     snd (update_effects l1 now) ++ snd (update_effects l2 now)).
Proof.
  induction l1 as [|[k e] l1 IH]; simpl.
  - now destruct (update_effects l2 now).
  - rewrite IH. destruct (update_effect e now) as [[f|] e'];
      destruct (update_effects l1 now) as [fs1 t1]; reflexivity.
Qed.

Lemma update_effects_cons (k : string) (e : Effect.t) (l : table) (now : Q) :
  update_effects ((k, e) :: l) now
  = (match fst (update_effect e now) with
     | Some f => f :: fst (update_effects l now)
     | None => fst (update_effects l now)
     end,
     (k, snd (update_effect e now)) :: snd (update_effects l now)).
Proof.
  simpl. destruct (update_effect e now) as [f e'].
  destruct (update_effects l now). reflexivity.
Qed.

(** What a tick that runs does, in terms of the loop. *)
Lemma update_runs (c : t) (w : reads) (l : FrameRateLimiter.t) :
  state c = RUNNING ->
  FrameRateLimiter.wait_for_next_frame (frame_limiter c) (t_in w) (t_out w)
  = (Ok true, l) ->
  let now := SharedClock.get_time (shared_clock c) (t_clock w) in
  let frames := fst (update_effects (effects c) now) in
  let c2 := set_effects (set_frame_limiter c l)
                        (snd (update_effects (effects c) now)) in
  update c w
  = match frames with
    | [] => (Ok true, _update_performance_metrics c2 (t_metrics w))
    | _ :: _ =>
        match _combine_effects c2 frames with
        | Raise y => (Raise y, c2)
        | Ok combined_frame =>
            (Ok true,
             _update_performance_metrics (_render_frame c2 combined_frame)
                                         (t_metrics w))
        end
    end.
Proof.
  intros Hs Hl now frames c2. unfold update. rewrite Hs, Hl. simpl negb. cbv iota.
  change (shared_clock (set_frame_limiter c l)) with (shared_clock c).
  change (effects (set_frame_limiter c l)) with (effects c).
  fold now. subst frames c2.
  destruct (update_effects (effects c) now) as [fs tbl]. simpl fst. simpl snd.
  destruct fs; reflexivity.
Qed.

End TickFacts.

(** C5 (as amended).  In a tick that runs, let the [update] of one running
    effect raise.  The loop goes on: the frames of the tick are those of the
    entries before and after it in the table, each entry updated as it would
    be on its own, and they are composited and rendered; what [update]
    returns or raises comes from them, not from the effect.  The effect is
    left errored, unless [is_complete] holds for it at this tick, in which
    case the completion test of the same tick stops it.  The tick is the one
    of a controller in which the effect was errored beforehand. *)
Theorem update_contains_effect_exception (c : AnimationController.t)
    (w : AnimationController.reads) (l1 l2 : AnimationController.table)
    (k : string) (e : Effect.t) (x : exn) :
  let now := SharedClock.get_time (AnimationController.shared_clock c)
                                  (AnimationController.t_clock w) in
  let lim := FrameRateLimiter.wait_for_next_frame
               (AnimationController.frame_limiter c)
               (AnimationController.t_in w) (AnimationController.t_out w) in
  AnimationController.state c = RUNNING ->
  fst lim = Ok true ->
  AnimationController.effects c = l1 ++ (k, e) :: l2 ->
  Effect.state e = RUNNING ->
  fst (Effect.update e now) = Raise x ->
  let e' := if Effect.is_complete e now
            then Effect.stop (Effect.set_state e ERROR)
            else Effect.set_state e ERROR in
  let frames := fst (AnimationController.update_effects l1 now)
                ++ fst (AnimationController.update_effects l2 now) in
  let effects' := snd (AnimationController.update_effects l1 now)
                  ++ (k, e') :: snd (AnimationController.update_effects l2 now) in
  let c2 := AnimationController.set_effects
              (AnimationController.set_frame_limiter c (snd lim)) effects' in
  AnimationController.update_effects (AnimationController.effects c) now
  = (frames, effects') /\
  Effect.state e' = (if Effect.is_complete e now then STOPPED else ERROR) /\
  AnimationController.update c w
  = match frames with
    | [] => (Ok true,
             AnimationController._update_performance_metrics
               c2 (AnimationController.t_metrics w))
    | _ :: _ =>
        match AnimationController._combine_effects c2 frames with
        | Raise y => (Raise y, c2)
        | Ok combined_frame =>
            (Ok true,
             AnimationController._update_performance_metrics
               (AnimationController._render_frame c2 combined_frame)
               (AnimationController.t_metrics w))
        end
    end /\
  AnimationController.update c w
  = AnimationController.update
      (AnimationController.set_effects c
         (l1 ++ (k, Effect.set_state e ERROR) :: l2)) w.
Proof.
  intros now lim Hs Hlim Heff Hrun Hx e' frames effects' c2.
  assert (Hloop : AnimationController.update_effects
                    (AnimationController.effects c) now = (frames, effects')).
  { rewrite Heff, update_effects_app, update_effects_cons.
    rewrite (update_effect_raise e now x Hrun Hx). reflexivity. }
  assert (Hloop' : AnimationController.update_effects
                     (l1 ++ (k, Effect.set_state e ERROR) :: l2) now
                   = (frames, effects')).
  { rewrite update_effects_app, update_effects_cons.
    rewrite update_effect_errored. reflexivity. }
  assert (Hw : lim = (Ok true, snd lim))
    by (destruct lim as [r l]; simpl in *; now subst r).
  split; [exact Hloop|].
  split; [unfold e'; destruct (Effect.is_complete e now); reflexivity|].
  pose proof (update_runs c w (snd lim) Hs Hw) as H1.
  cbv zeta in H1. fold now in H1. rewrite Hloop in H1. simpl fst in H1.
  simpl snd in H1.
  split; [exact H1|].
  rewrite H1.
  pose proof (update_runs
                (AnimationController.set_effects c
                   (l1 ++ (k, Effect.set_state e ERROR) :: l2))
                w (snd lim) Hs Hw) as H2.
  cbv zeta in H2.
  change (AnimationController.shared_clock
            (AnimationController.set_effects c
               (l1 ++ (k, Effect.set_state e ERROR) :: l2)))
    with (AnimationController.shared_clock c) in H2.
  change (AnimationController.effects
            (AnimationController.set_effects c
               (l1 ++ (k, Effect.set_state e ERROR) :: l2)))
    with (l1 ++ (k, Effect.set_state e ERROR) :: l2) in H2.
  fold now in H2. rewrite Hloop' in H2. simpl fst in H2. simpl snd in H2.
  rewrite H2. reflexivity.
Qed.

(** A strip of three pixels; between a heat map and a fade, an effect of a
    further subclass whose [update] raises and whose [is_complete] is
    false. *)
Lemma update_contains_effect_exception_witness :
  let led := LedStrip.mk 3 [] in
  let heat := Effect.start
                (Effect.HeatMapEffect "heat" [0] 100 (Some [1%Z])) 1 in
  let bad := Effect.mk "bad" HIGH RUNNING 1 0 30 [0%Z]
               (Effect.Custom (fun _ => Raise (Exception "broken"))
                              (fun _ => false)) in
  let home := Effect.start
                (Effect.FadeEffect "home" (255, 0, 0)%Z (255, 0, 0)%Z 2
                                   (Some [2%Z])) 1 in
  let c := AnimationController.mk (Some led) 30
             (FrameRateLimiter.mk 30 (1 / 30) 0 0 0.1) (SharedClock.init 0)
             [("heat"%string, heat); ("bad"%string, bad);
              ("home"%string, home)]
             None RUNNING 0 0 0 in
  let w := AnimationController.mk_reads 2 2 2 2 in
  let r := AnimationController.update c w in
  AnimationController.state c = RUNNING /\
  fst (FrameRateLimiter.wait_for_next_frame
         (AnimationController.frame_limiter c) 2 2) = Ok true /\
  Effect.state bad = RUNNING /\
  fst (Effect.update bad 2) = Raise (Exception "broken") /\
  fst r = Ok true /\
  map (fun ke => (fst ke, Effect.state (snd ke)))
      (AnimationController.effects (snd r))
  = [("heat"%string, RUNNING); ("bad"%string, ERROR);
     ("home"%string, RUNNING)] /\
  option_map LedStrip.requests (AnimationController.led_controller (snd r))
  = Some [LedStrip.SetPixelColor 0 (0, 0, 0)%Z;
          LedStrip.SetPixelColor 1 (0, 0, 127)%Z;
          LedStrip.SetPixelColor 2 (127, 0, 0)%Z;
          LedStrip.ShowPixels].
Proof.
  intros led heat bad home c w r.
  split; [reflexivity | split; [reflexivity | split; [reflexivity |
    split; [reflexivity |]]]].
  destruct (update_contains_effect_exception c w
              [("heat"%string, heat)] [("home"%string, home)] "bad" bad
              (Exception "broken") eq_refl eq_refl eq_refl eq_refl eq_refl)
    as (_ & _ & H & _).
  unfold r. rewrite H. vm_compute. repeat split; reflexivity.
Defined.

(** C5 (as stated, refuted).  A fade of duration zero is running next to a
    heat map.  Its [update] raises on the division; the tick returns [True]
    and the heat map is updated and rendered; but the fade is complete at
    once, so the tick leaves it stopped, not errored. *)
Lemma raising_effect_left_stopped :
  let led := LedStrip.mk 3 [] in
  let heat := Effect.start
                (Effect.HeatMapEffect "heat" [0] 100 (Some [1%Z])) 1 in
  let home := Effect.start
                (Effect.FadeEffect "home" (255, 0, 0)%Z (255, 0, 0)%Z 0
                                   (Some [2%Z])) 1 in
  let c := AnimationController.mk (Some led) 30
             (FrameRateLimiter.mk 30 (1 / 30) 0 0 0.1) (SharedClock.init 0)
             [("heat"%string, heat); ("home"%string, home)]
             None RUNNING 0 0 0 in
  let r := AnimationController.update c
             (AnimationController.mk_reads 2 2 2 2) in
  Effect.state home = RUNNING /\
  fst (Effect.update home 2) = Raise ZeroDivisionError /\
  fst r = Ok true /\
  map (fun ke => (fst ke, Effect.state (snd ke)))
      (AnimationController.effects (snd r))
  = [("heat"%string, RUNNING); ("home"%string, STOPPED)] /\
  option_map LedStrip.requests (AnimationController.led_controller (snd r))
  = Some [LedStrip.SetPixelColor 0 (0, 0, 0)%Z;
          LedStrip.SetPixelColor 1 (0, 0, 127)%Z;
          LedStrip.SetPixelColor 2 (0, 0, 0)%Z;
          LedStrip.ShowPixels].
Proof. vm_compute. repeat split; reflexivity. Qed.

(** A heat map with a cap of two iterations: three ticks, two frames. *)
Lemma heat_map_iteration_cap_witness :
  let ops := [Effect.Start 0; Effect.Update 0; Effect.Update 1] in
  let h := Effect.HeatMapEffect "heat" [0.1; 0.6] 2 None in
  productive_count (fst (Effect.run h ops)) = 2%nat /\
  fst (Effect.update (Effect.start (snd (Effect.run h ops)) 2) 2) = Ok None /\
  Effect.is_complete (snd (Effect.run h ops)) 2 = true.
Proof.
  intros ops h. split; [reflexivity|].
  destruct (heat_map_iteration_cap "heat" [0.1; 0.6] 2 None ops) as [_ H].
  cbv zeta in H.
  assert (Hm : (2 <= Z.of_nat (productive_count (fst (Effect.run h ops))))%Z)
    by (intro Hc; discriminate Hc).
  destruct (H Hm [] 2) as (_ & _ & Hu & Hc).
  split; [exact Hu | exact Hc].
Defined.

(* ================================================================== *)
(** * Further properties of reliability_manager.py *)

Section ClockRunningTime.
Import SharedClock.

Lemma running_time_comp (ops : list (Q * op)) :
  forall (r : bool) (s s' a a' wall : Q),
    s == s' -> a == a' ->
    running_time r s a ops wall == running_time r s' a' ops wall.
Proof.
  induction ops as [|[w o] ops IH]; intros r s s' a a' wall Hs Ha; simpl.
  - destruct r; [rewrite Hs, Ha|rewrite Ha]; reflexivity.
  - destruct o, r; try (apply IH; assumption).
    + apply IH; [assumption | rewrite Hs, Ha; reflexivity].
    + apply IH; [reflexivity | assumption].
Qed.

(** What a clock returns after any operations, from any state: the running
    time, plus [start_time] when it is paused. *)
Lemma get_time_running_time (ops : list (Q * op)) :
  forall (c : t) (wall : Q),
    get_time (snd (run c ops)) wall
    == (if paused (snd (run c ops)) then start_time (snd (run c ops)) else 0)
       + running_time (negb (paused c)) (start_time c) (pause_offset c)
                      ops wall.
Proof.
  induction ops as [|[w o] ops IH]; intros c wall.
  - simpl. unfold get_time. destruct (paused c); simpl; ring.
  - destruct o; cbn [run].
    + destruct (paused c) eqn:E.
      * replace (pause c w) with c by (unfold pause; now rewrite E).
        rewrite IH, E. reflexivity.
      * replace (pause c w) with (mk (start_time c) true (get_time c w))
          by (unfold pause; now rewrite E).
        rewrite IH. cbn [paused start_time pause_offset negb running_time].
        apply Qplus_comp; [reflexivity|].
        apply running_time_comp; [reflexivity|].
        unfold get_time. rewrite E. ring.
    + destruct (paused c) eqn:E.
      * replace (resume c w) with (mk w false (pause_offset c))
          by (unfold resume; now rewrite E).
        rewrite IH. reflexivity.
      * replace (resume c w) with c by (unfold resume; now rewrite E).
        rewrite IH, E. reflexivity.
    + destruct (run c ops) as [rs c'] eqn:Er. cbn [snd].
      specialize (IH c wall). rewrite Er in IH. exact IH.
Qed.

End ClockRunningTime.

(** X1.  After any pauses, resumes and reads on a new clock, a read taken
    while the clock runs returns the time the clock has spent running; while
    the clock is paused, [pause_offset] holds that time and a read returns it
    increased by [start_time]. *)
Theorem shared_clock_counts_running_time (w0 wall : Q)
    (ops : list (Q * SharedClock.op)) :
  let c := snd (SharedClock.run (SharedClock.init w0) ops) in
  let elapsed := running_time true w0 0 ops wall in
  (SharedClock.paused c = false -> SharedClock.get_time c wall == elapsed) /\
  (SharedClock.paused c = true ->
   SharedClock.pause_offset c == elapsed /\
   SharedClock.get_time c wall == SharedClock.start_time c + elapsed).
Proof.
  intros c elapsed.
  pose proof (get_time_running_time ops (SharedClock.init w0) wall) as H.
  fold c in H. simpl in H. fold elapsed in H.
  split; intros E; rewrite E in H.
  - rewrite H. ring.
  - split; [|exact H].
    unfold SharedClock.get_time in H. rewrite E in H. lra.
Qed.

(** Created at 1000, paused from 1003 to 1008, read at 1010 and, paused
    again at 1012, read at 1020. *)
Lemma shared_clock_counts_running_time_witness :
  let ops := [(1003, SharedClock.Pause); (1008, SharedClock.Resume)] in
  let c := snd (SharedClock.run (SharedClock.init 1000) ops) in
  let c' := snd (SharedClock.run (SharedClock.init 1000)
                   (ops ++ [(1012, SharedClock.Pause)])) in
  SharedClock.paused c = false /\
  SharedClock.get_time c 1010 == 5 /\
  SharedClock.paused c' = true /\
  SharedClock.pause_offset c' == 7.
Proof.
  intros ops c c'.
  split; [reflexivity|].
  split.
  - eapply Qeq_trans;
      [exact (proj1 (shared_clock_counts_running_time 1000 1010 ops) eq_refl)|].
    vm_compute. reflexivity.
  - split; [reflexivity|].
    eapply Qeq_trans;
      [exact (proj1 (proj2 (shared_clock_counts_running_time 1000 1020
                              (ops ++ [(1012, SharedClock.Pause)])) eq_refl))|].
    vm_compute. reflexivity.
Defined.

Section BreakerInvariant.
Import CircuitBreaker.
Context {W R : Type}.

Lemma call_settled (thr : Z) (rt : Q) (b : t) (f : @delegate W R)
    (tg tf : Q) (w : W) :
  settled thr rt b -> settled thr rt (snd (fst (call b f tg tf w))).
Proof.
  intros (Hh & Ho & Hc & Ht & Hr).
  destruct (state b) eqn:Es; [| |congruence].
  - destruct (f w) as [[r|e] w'] eqn:Ef.
    + rewrite (call_closed_ok b f tg tf w r w' Es Ef). cbn [fst snd].
      unfold settled. rewrite Es. repeat split; congruence || assumption.
    + rewrite (call_closed_raise b f tg tf w e w' Es Ef). cbn [fst snd].
      unfold settled. cbn [state failure_count failure_threshold recovery_timeout].
      destruct (failure_threshold b <=? failure_count b + 1)%Z eqn:E.
      * apply Z.leb_le in E.
        split; [discriminate|]. split; [intros _; lia|].
        split; [lia|]. split; assumption.
      * split; [discriminate|]. split; [discriminate|].
        split; [lia|]. split; assumption.
  - specialize (Ho eq_refl).
    destruct (Qlt_le_dec (recovery_timeout b) (tg - last_failure_time b))
      as [Hlt|Hle].
    + destruct (f w) as [[r|e] w'] eqn:Ef.
      * rewrite (call_open_trial_ok b f tg tf w r w' Es Hlt Ef). cbn [fst snd].
        unfold settled.
        cbn [state failure_count failure_threshold recovery_timeout].
        split; [discriminate|]. split; [discriminate|].
        split; [lia|]. split; assumption.
      * rewrite (call_open_trial_raise b f tg tf w e w' Es Hlt ltac:(lia) Ef).
        cbn [fst snd]. unfold settled.
        cbn [state failure_count failure_threshold recovery_timeout].
        split; [discriminate|]. split; [intros _; lia|].
        split; [lia|]. split; assumption.
    + rewrite (call_open_rejected b f tg tf w Es Hle). cbn [fst snd].
      unfold settled. rewrite Es.
      split; [discriminate|]. split; [intros _; lia|].
      split; [lia|]. split; assumption.
Qed.

Lemma calls_settled (thr : Z) (rt : Q) (cs : list (@delegate W R * Q * Q)) :
  forall (b : t) (w : W),
    settled thr rt b -> settled thr rt (snd (fst (calls b cs w))).
Proof.
  induction cs as [|[[f tg] tf] cs IH]; intros b w Hb; [exact Hb|].
  cbn [calls].
  pose proof (call_settled thr rt b f tg tf w Hb) as H1.
  destruct (call b f tg tf w) as [[r b1] w1]. cbn [fst snd] in H1.
  specialize (IH b1 w1 H1).
  destruct (calls b1 cs w1) as [[rs b2] w2]. exact IH.
Qed.

End BreakerInvariant.

(** X2.  Whatever calls a new breaker has served, with whatever outcomes
    and clock readings, it is left closed or open, never half-open; when it
    is open its failure counter is at the threshold or above; and its
    threshold and timeout are the ones it was created with. *)
Theorem circuit_breaker_never_left_half_open {W R : Type}
    (thr : Z) (rt : Q) (cs : list (@CircuitBreaker.delegate W R * Q * Q))
    (w : W) :
  let b := snd (fst (CircuitBreaker.calls (CircuitBreaker.init thr rt) cs w)) in
  CircuitBreaker.state b <> CircuitBreaker.HALF_OPEN /\
  (CircuitBreaker.state b = CircuitBreaker.OPEN ->
   (thr <= CircuitBreaker.failure_count b)%Z) /\
  (0 <= CircuitBreaker.failure_count b)%Z /\
  CircuitBreaker.failure_threshold b = thr /\
  CircuitBreaker.recovery_timeout b = rt.
Proof.
  intros b. apply (calls_settled thr rt cs (CircuitBreaker.init thr rt) w).
  unfold settled. simpl.
  split; [discriminate|]. split; [discriminate|].
  split; [lia|]. split; reflexivity.
Qed.

Section BreakersByName.
Import ReliabilityManager.

Lemma lookup_store_same (name : string) (b : CircuitBreaker.t) (m : breakers) :
  lookup name m <> None -> lookup name (store name b m) = Some b.
Proof.
  induction m as [|[k b0] m IH]; simpl; [congruence|].
  destruct (String.eqb name k) eqn:E; simpl; rewrite E; [reflexivity|].
  exact IH.
Qed.

Lemma lookup_store_other (name other : string) (b : CircuitBreaker.t)
    (m : breakers) :
  other <> name -> lookup other (store name b m) = lookup other m.
Proof.
  intros Hne. induction m as [|[k b0] m IH]; simpl; [reflexivity|].
  destruct (String.eqb name k) eqn:E; simpl.
  - apply String.eqb_eq in E. subst k.
    destruct (String.eqb other name) eqn:E2; [|reflexivity].
    apply String.eqb_eq in E2. contradiction.
  - destruct (String.eqb other k); [reflexivity | exact IH].
Qed.

Lemma lookup_app_new (name other : string) (b : CircuitBreaker.t)
    (m : breakers) :
  lookup other (m ++ [(name, b)])
  = match lookup other m with
    | Some b0 => Some b0
    | None => if String.eqb other name then Some b else None
    end.
Proof.
  induction m as [|[k b0] m IH]; simpl; [reflexivity|].
  destruct (String.eqb other k); [reflexivity | exact IH].
Qed.

Context {W R : Type}.

(** One [safe_call] is a call on the breaker kept under the name, a
    default one if the name is new; it keeps the result under the name and
    leaves every other name alone. *)
Lemma safe_call_step (m : breakers) (name : string)
    (f : @CircuitBreaker.delegate W R) (tg tf : Q) (w : W) :
  let b := match lookup name m with
           | Some b => b
           | None => CircuitBreaker.init 5 60
           end in
  fst (fst (safe_call m name f tg tf w))
  = fst (fst (CircuitBreaker.call b f tg tf w)) /\
  snd (safe_call m name f tg tf w) = snd (CircuitBreaker.call b f tg tf w) /\
  lookup name (snd (fst (safe_call m name f tg tf w)))
  = Some (snd (fst (CircuitBreaker.call b f tg tf w))) /\
  forall other, other <> name ->
    lookup other (snd (fst (safe_call m name f tg tf w))) = lookup other m.
Proof.
  intros b. unfold safe_call, get_circuit_breaker. subst b.
  destruct (lookup name m) as [b|] eqn:El.
  - destruct (CircuitBreaker.call b f tg tf w) as [[r b'] w']. cbn [fst snd].
    repeat split.
    + apply lookup_store_same. congruence.
    + intros other Hne. now apply lookup_store_other.
  - destruct (CircuitBreaker.call (CircuitBreaker.init 5 60) f tg tf w)
      as [[r b'] w']. cbn [fst snd].
    repeat split.
    + apply lookup_store_same. rewrite lookup_app_new, El, String.eqb_refl.
      discriminate.
    + intros other Hne. rewrite lookup_store_other by exact Hne.
      rewrite lookup_app_new.
      destruct (lookup other m); [reflexivity|].
      destruct (String.eqb other name) eqn:E; [|reflexivity].
      apply String.eqb_eq in E. contradiction.
Qed.

Lemma safe_calls_other (cs : list (string * @CircuitBreaker.delegate W R * Q * Q))
    (n : string) :
  (forall c, In c cs -> fst (fst (fst c)) <> n) ->
  forall (m : breakers) (w : W),
    lookup n (snd (fst (safe_calls m cs w))) = lookup n m.
Proof.
  induction cs as [|[[[name f] tg] tf] cs IH]; intros Hcs m w; [reflexivity|].
  cbn [safe_calls].
  destruct (safe_call_step m name f tg tf w) as (_ & _ & _ & Hother).
  destruct (safe_call m name f tg tf w) as [[r m1] w1]. cbn [fst snd] in Hother.
  assert (Hn : n <> name).
  { intros ->. apply (Hcs (name, f, tg, tf)); [now left | reflexivity]. }
  specialize (IH (fun c Hc => Hcs c (or_intror Hc)) m1 w1).
  destruct (safe_calls m1 cs w1) as [[rs m2] w2]. cbn [fst snd] in *.
  rewrite IH. now apply Hother.
Qed.

End BreakersByName.

(** X3.  The breakers of [safe_call] are independent by name: calls made
    under other names, whatever their outcomes, leave the breaker of a name
    as it was, and the next call under that name is a call on that breaker,
    or on a new breaker with threshold 5 and timeout 60 if the name was
    never used, whose new state is kept under the name. *)
Theorem safe_call_breakers_independent {W R : Type}
    (m : ReliabilityManager.breakers)
    (cs : list (string * @CircuitBreaker.delegate W R * Q * Q)) (w : W)
    (n : string) :
  (forall c, In c cs -> fst (fst (fst c)) <> n) ->
  let m' := snd (fst (ReliabilityManager.safe_calls m cs w)) in
  let b := match ReliabilityManager.lookup n m with
           | Some b => b
           | None => CircuitBreaker.init 5 60
           end in
  ReliabilityManager.lookup n m' = ReliabilityManager.lookup n m /\
  forall (f : @CircuitBreaker.delegate W R) (tg tf : Q) (w' : W),
    fst (fst (ReliabilityManager.safe_call m' n f tg tf w'))
    = fst (fst (CircuitBreaker.call b f tg tf w')) /\
    snd (ReliabilityManager.safe_call m' n f tg tf w')
    = snd (CircuitBreaker.call b f tg tf w') /\
    ReliabilityManager.lookup n
      (snd (fst (ReliabilityManager.safe_call m' n f tg tf w')))
    = Some (snd (fst (CircuitBreaker.call b f tg tf w'))).
Proof.
  intros Hcs m' b.
  pose proof (safe_calls_other cs n Hcs m w) as Hl. fold m' in Hl.
  split; [exact Hl|].
  intros f tg tf w'.
  destruct (safe_call_step m' n f tg tf w') as (H1 & H2 & H3 & _).
  rewrite Hl in H1, H2, H3. fold b in H1, H2, H3.
  repeat split; assumption.
Qed.

(** Five failed calls under "net" open its breaker; a call under "led"
    still goes through. *)
Lemma safe_call_breakers_independent_witness :
  let bad : @CircuitBreaker.delegate unit unit :=
    fun w => (Raise (Exception "down"), w) in
  let good : @CircuitBreaker.delegate unit unit := fun w => (Ok tt, w) in
  let cs := map (fun k => ("net"%string, bad, inject_Z k, inject_Z k))
                [1; 2; 3; 4; 5]%Z in
  let m' := snd (fst (ReliabilityManager.safe_calls [] cs tt)) in
  (forall c, In c cs -> fst (fst (fst c)) <> "led"%string) /\
  fst (fst (ReliabilityManager.safe_call m' "net" good 6 6 tt))
  = Raise (Exception "Circuit breaker is OPEN") /\
  fst (fst (ReliabilityManager.safe_call m' "led" good 6 6 tt)) = Ok tt.
Proof.
  intros bad good cs m'.
  assert (Hcs : forall c, In c cs -> fst (fst (fst c)) <> "led"%string).
  { intros c [<- | [<- | [<- | [<- | [<- | []]]]]]; discriminate. }
  split; [exact Hcs|]. split; [reflexivity|].
  destruct (safe_call_breakers_independent [] cs tt "led" Hcs) as [_ H].
  destruct (H good 6 6 tt) as (H1 & _). fold m' in H1.
  rewrite H1. reflexivity.
Defined.

Section ResourceManagerFacts.
Import ResourceManager.
Context {W Res : Type}.

Lemma fold_guarded_map {A : Type} (g : A -> W -> Result unit * W)
    (l : list A) (s : W * list exn) :
  fold_left (fun s a => guarded (g a) s) l s
  = fold_left (fun s c => guarded c s) (map g l) s.
Proof.
  revert s. induction l as [|a l IH]; intros s; simpl; [reflexivity|].
  apply IH.
Qed.

Lemma register_all_lists (regs : list (@registration W Res)) :
  forall rm : @t W Res,
    map (fun rc => snd rc (fst rc)) (resources (register_all rm regs))
    = map (fun rc => snd rc (fst rc)) (resources rm) ++ resource_calls regs /\
    cleanup_handlers (register_all rm regs)
    = cleanup_handlers rm ++ handler_calls regs.
Proof.
  induction regs as [|[r f|f] regs IH]; intros rm; simpl.
  - now rewrite !app_nil_r.
  - destruct (IH (register_resource rm r f)) as [H1 H2].
    rewrite H1, H2. simpl. rewrite map_app, <- app_assoc. split; reflexivity.
  - destruct (IH (register_cleanup rm f)) as [H1 H2].
    rewrite H1, H2. simpl. rewrite <- app_assoc. split; reflexivity.
Qed.

End ResourceManagerFacts.

(** X4.  After any registrations on a new resource manager, [__exit__]
    calls the cleanup of every resource, the last registered first, and then
    every general handler, the first registered first, however the two kinds
    of registration were interleaved; a cleanup that raises stops nothing:
    its exception is logged and the next cleanup is called. *)
Theorem resource_manager_exit_order {W Res : Type}
    (regs : list (@ResourceManager.registration W Res)) (w : W) :
  ResourceManager.__exit__
    (ResourceManager.register_all ResourceManager.init regs) w
  = fold_left (fun s call => ResourceManager.guarded call s)
      (rev (ResourceManager.resource_calls regs)
       ++ ResourceManager.handler_calls regs)
      (w, []).
Proof.
  unfold ResourceManager.__exit__.
  destruct (register_all_lists regs ResourceManager.init) as [H1 H2].
  simpl in H1, H2. rewrite H2.
  rewrite (fold_guarded_map (fun rc => snd rc (fst rc))).
  rewrite map_rev, H1, fold_left_app. reflexivity.
Qed.

(** Two resources and a handler; the cleanup of the second resource
    raises.  The world is the list of the cleanups called. *)
Lemma resource_manager_exit_order_witness :
  let note (s : string) (fails : bool) : list string -> Result unit * list string :=
    fun w => (if fails then Raise (Exception s) else Ok tt, w ++ [s]) in
  let regs := [ResourceManager.Resource "strip"%string (fun r => note r false);
               ResourceManager.Cleanup (note "flush"%string false);
               ResourceManager.Resource "gpio"%string (fun r => note r true)] in
  ResourceManager.__exit__
    (ResourceManager.register_all ResourceManager.init regs) []
  = (["gpio"; "strip"; "flush"]%string, [Exception "gpio"]).
Proof.
  intros note regs.
  rewrite (resource_manager_exit_order regs []). reflexivity.
Defined.

Section HealthMonitorFacts.
Import HealthMonitor.

Lemma skipn_snoc_tl {A : Type} (l : list A) (x : A) (k : nat) :
  (k < List.length l)%nat ->
  tl (skipn k l ++ [x]) = skipn (S k) (l ++ [x]).
Proof.
  revert k. induction l as [|y l IH]; intros k Hk; simpl in Hk; [lia|].
  destruct k as [|k]; [reflexivity|].
  simpl skipn at 1. rewrite IH by lia. reflexivity.
Qed.

(** The history after one more snapshot, when it held the last [M] of the
    snapshots [pre] taken before. *)
Lemma collect_history (h : t) (led : bool) (r : readings)
    (pre : list HealthMetrics.t) (M : nat) :
  (1 <= M)%nat ->
  max_history h = Z.of_nat M ->
  metrics_history h = skipn (List.length pre - M) pre ->
  let m := fst (collect_metrics h led r) in
  let h' := snd (collect_metrics h led r) in
  metrics_history h'
  = skipn (List.length (pre ++ [m]) - M) (pre ++ [m]) /\
  max_history h' = max_history h.
Proof.
  intros HM Hmax Hh m h'. subst m h'. unfold collect_metrics.
  cbn [fst snd metrics_history max_history].
  split; [|reflexivity].
  set (m := HealthMetrics.mk _ _ _ _ _ _ _ _ _ _).
  rewrite Hh, Hmax, !length_app, length_skipn. cbn [List.length].
  destruct (Z.of_nat M <? _)%Z eqn:E.
  - apply Z.ltb_lt in E.
    replace (List.length pre + 1 - M)%nat with (S (List.length pre - M)) by lia.
    apply skipn_snoc_tl. lia.
  - apply Z.ltb_ge in E.
    replace (List.length pre + 1 - M)%nat with 0%nat by lia.
    replace (List.length pre - M)%nat with 0%nat by lia.
    reflexivity.
Qed.

Lemma collects_history (rs : list (bool * readings)) :
  forall (h : t) (pre : list HealthMetrics.t) (M : nat),
    (1 <= M)%nat ->
    max_history h = Z.of_nat M ->
    metrics_history h = skipn (List.length pre - M) pre ->
    metrics_history (snd (collects h rs))
    = skipn (List.length (pre ++ fst (collects h rs)) - M)
            (pre ++ fst (collects h rs)).
Proof.
  induction rs as [|[led r] rs IH]; intros h pre M HM Hmax Hh.
  - simpl. now rewrite app_nil_r.
  - cbn [collects].
    destruct (collect_history h led r pre M HM Hmax Hh) as [H1 H2].
    destruct (collect_metrics h led r) as [m h1]. cbn [fst snd] in H1, H2.
    specialize (IH h1 (pre ++ [m]) M HM ltac:(congruence) H1).
    destruct (collects h1 rs) as [ms h2]. cbn [fst snd] in *.
    rewrite IH, <- app_assoc. reflexivity.
Qed.

Lemma collects_length (rs : list (bool * readings)) :
  forall h : t, List.length (fst (collects h rs)) = List.length rs.
Proof.
  induction rs as [|[led r] rs IH]; intros h; [reflexivity|].
  cbn [collects]. destruct (collect_metrics h led r) as [m h1].
  specialize (IH h1). destruct (collects h1 rs) as [ms h2].
  simpl in *. now rewrite IH.
Qed.

End HealthMonitorFacts.

(** X5.  The history of a new health monitor holds the snapshots returned
    by its [collect_metrics] calls, in order, the last 100 of them once
    there are more: it never grows past 100 entries and the entries dropped
    are the oldest. *)
Theorem health_history_keeps_latest (check_interval : Z) (w0 : Q)
    (rs : list (bool * HealthMonitor.readings)) :
  let h := HealthMonitor.init check_interval w0 in
  let snapshots := fst (HealthMonitor.collects h rs) in
  let history := HealthMonitor.metrics_history
                   (snd (HealthMonitor.collects h rs)) in
  history = skipn (List.length rs - 100) snapshots /\
  List.length history = Nat.min (List.length rs) 100.
Proof.
  intros h snapshots history.
  pose proof (collects_history rs h [] 100 ltac:(lia) eq_refl eq_refl) as H.
  cbn [app] in H. fold snapshots history in H.
  pose proof (collects_length rs h) as Hl. fold snapshots in Hl.
  rewrite Hl in H. split; [exact H|].
  rewrite H, length_skipn, Hl. lia.
Qed.

Section HealthStatusFacts.
Import HealthMonitor.

(** With room for one entry at least, the snapshot just taken is the
    latest of the history. *)
Lemma collect_latest (h : t) (led : bool) (r : readings) :
  (1 <= max_history h)%Z ->
  exists older,
    rev (metrics_history (snd (collect_metrics h led r)))
    = fst (collect_metrics h led r) :: older.
Proof.
  intros HM. unfold collect_metrics. cbn [fst snd metrics_history].
  set (m := HealthMetrics.mk _ _ _ _ _ _ _ _ _ _).
  destruct (max_history h <? _)%Z eqn:E.
  - apply Z.ltb_lt in E. rewrite length_app in E. cbn [List.length] in E.
    destruct (metrics_history h) as [|y l]; [simpl in E; lia|].
    simpl. rewrite rev_app_distr. simpl. eexists. reflexivity.
  - rewrite rev_app_distr. simpl. eexists. reflexivity.
Qed.

End HealthStatusFacts.

(** X6.  [check_health] on a monitor that keeps one snapshot at least
    judges the readings of this very call: it is CRITICAL exactly when the
    memory or the CPU reading is above its critical threshold, or more than
    [heartbeat_timeout] passed between the heartbeat and the status read of
    the call itself, or the LED was tested by this call and failed; the LED
    is tested only when a controller is passed and more than
    [led_test_interval] passed since the last test.  Otherwise it is DEGRADED
    on a warning-level reading, a stale METAR update or a log above 50 MB,
    else HEALTHY; it is never FAILED. *)
Theorem check_health_judges_current_readings (h : HealthMonitor.t)
    (led_controller : bool) (t_heartbeat : Q) (r : HealthMonitor.readings)
    (t_status : Q) :
  (1 <= HealthMonitor.max_history h)%Z ->
  let tested :=
    led_controller
    && Qltb (HealthMonitor.led_test_interval h)
            (HealthMonitor.r_time r - HealthMonitor.led_last_test h) in
  let critical :=
    Qltb (HealthMonitor.memory_critical_mb h) (HealthMonitor.r_memory_mb r)
    || Qltb (HealthMonitor.cpu_critical_percent h)
            (HealthMonitor.r_cpu_percent r)
    || Qltb (HealthMonitor.heartbeat_timeout h) (t_status - t_heartbeat)
    || (tested && negb (HealthMonitor.r_led_test r)) in
  let degraded :=
    Qltb (HealthMonitor.memory_warning_mb h) (HealthMonitor.r_memory_mb r)
    || Qltb (HealthMonitor.cpu_warning_percent h)
            (HealthMonitor.r_cpu_percent r)
    || Qltb (HealthMonitor.metar_timeout h)
            (t_status - HealthMonitor.last_metar_update h)
    || Qltb 50 (HealthMonitor.r_log_size_mb r) in
  let status := fst (ReliabilityManager.check_health h led_controller
                       t_heartbeat r t_status) in
  let h' := snd (ReliabilityManager.check_health h led_controller
                   t_heartbeat r t_status) in
  status = (if critical then HealthStatus.CRITICAL
            else if degraded then HealthStatus.DEGRADED
            else HealthStatus.HEALTHY) /\
  status <> HealthStatus.FAILED /\
  HealthMonitor.should_restart h' t_status = critical /\
  HealthMonitor.last_heartbeat h' = t_heartbeat.
Proof.
  intros HM tested critical degraded status h'.
  subst status h'. unfold ReliabilityManager.check_health.
  set (h1 := HealthMonitor.heartbeat h t_heartbeat).
  destruct (collect_latest h1 led_controller r HM) as [older Hl].
  destruct (HealthMonitor.collect_metrics h1 led_controller r) as [m h2] eqn:Ec.
  cbn [fst snd] in *.
  assert (Hm : m = fst (HealthMonitor.collect_metrics h1 led_controller r))
    by now rewrite Ec.
  assert (Hh : h2 = snd (HealthMonitor.collect_metrics h1 led_controller r))
    by now rewrite Ec.
  assert (Hs : HealthMonitor.get_health_status h2 t_status
               = (if critical then HealthStatus.CRITICAL
                  else if degraded then HealthStatus.DEGRADED
                  else HealthStatus.HEALTHY)).
  { unfold HealthMonitor.get_health_status. rewrite Hl.
    rewrite Hh, Hm. unfold HealthMonitor.collect_metrics.
    cbn [fst snd HealthMonitor.memory_critical_mb
         HealthMonitor.cpu_critical_percent HealthMonitor.heartbeat_timeout
         HealthMonitor.memory_warning_mb HealthMonitor.cpu_warning_percent
         HealthMonitor.metar_timeout HealthMetrics.memory_usage_mb
         HealthMetrics.cpu_usage_percent HealthMetrics.main_loop_heartbeat
         HealthMetrics.led_responsive HealthMetrics.last_metar_update
         HealthMetrics.log_file_size_mb].
    subst h1. cbn [HealthMonitor.heartbeat HealthMonitor.memory_critical_mb
         HealthMonitor.cpu_critical_percent HealthMonitor.heartbeat_timeout
         HealthMonitor.memory_warning_mb HealthMonitor.cpu_warning_percent
         HealthMonitor.metar_timeout HealthMonitor.last_heartbeat
         HealthMonitor.last_metar_update HealthMonitor.led_test_interval
         HealthMonitor.led_last_test].
    fold tested.
    replace (negb (if tested then HealthMonitor.r_led_test r else true))
      with (tested && negb (HealthMonitor.r_led_test r))
      by (destruct tested; reflexivity).
    fold critical. fold degraded. reflexivity. }
  split; [exact Hs|].
  split; [rewrite Hs; destruct critical, degraded; discriminate|].
  split.
  - unfold HealthMonitor.should_restart. rewrite Hs.
    destruct critical, degraded; reflexivity.
  - rewrite Hh. reflexivity.
Qed.

(** A new monitor, a failing LED test, all else in order. *)
Lemma check_health_judges_current_readings_witness :
  let h := HealthMonitor.init 30 1000 in
  let r := HealthMonitor.mk_readings 1010 120 15 false 2 5000 in
  (1 <= HealthMonitor.max_history h)%Z /\
  fst (ReliabilityManager.check_health h true 1010 r 1011)
  = HealthStatus.CRITICAL /\
  fst (ReliabilityManager.check_health h false 1010 r 1011)
  = HealthStatus.DEGRADED.
Proof.
  intros h r.
  assert (HM : (1 <= HealthMonitor.max_history h)%Z) by (intro H; discriminate H).
  split; [exact HM|]. split.
  - rewrite (proj1 (check_health_judges_current_readings h true 1010 r 1011 HM)).
    reflexivity.
  - rewrite (proj1 (check_health_judges_current_readings h false 1010 r 1011 HM)).
    reflexivity.
Defined.

(** X7.  A failed LED test makes the monitor CRITICAL for the snapshot that
    ran the test only.  The next [collect_metrics], when no more than
    [led_test_interval] later, does not test again and records the LED as
    responsive, so that the status is then CRITICAL exactly on account of
    memory, CPU or heartbeat. *)
Theorem led_failure_reported_once (h : HealthMonitor.t)
    (r1 r2 : HealthMonitor.readings) :
  (1 <= HealthMonitor.max_history h)%Z ->
  HealthMonitor.led_test_interval h
  < HealthMonitor.r_time r1 - HealthMonitor.led_last_test h ->
  HealthMonitor.r_led_test r1 = false ->
  HealthMonitor.r_time r2 - HealthMonitor.r_time r1
  <= HealthMonitor.led_test_interval h ->
  let h1 := snd (HealthMonitor.collect_metrics h true r1) in
  let m2 := fst (HealthMonitor.collect_metrics h1 true r2) in
  let h2 := snd (HealthMonitor.collect_metrics h1 true r2) in
  (forall wall,
      HealthMonitor.get_health_status h1 wall = HealthStatus.CRITICAL /\
      HealthMonitor.should_restart h1 wall = true) /\
  HealthMetrics.led_responsive m2 = true /\
  HealthMonitor.led_last_test h2 = HealthMonitor.r_time r1 /\
  forall wall,
    HealthMonitor.should_restart h2 wall
    = Qltb (HealthMonitor.memory_critical_mb h) (HealthMonitor.r_memory_mb r2)
      || Qltb (HealthMonitor.cpu_critical_percent h)
              (HealthMonitor.r_cpu_percent r2)
      || Qltb (HealthMonitor.heartbeat_timeout h)
              (wall - HealthMonitor.last_heartbeat h).
Proof.
  intros HM Hdue Hfail Hsoon h1 m2 h2.
  apply Qltb_true in Hdue. apply Qltb_false in Hsoon.
  assert (Hh1 : HealthMonitor.led_last_test h1 = HealthMonitor.r_time r1
                /\ HealthMonitor.led_test_interval h1
                   = HealthMonitor.led_test_interval h
                /\ HealthMonitor.max_history h1 = HealthMonitor.max_history h).
  { subst h1. unfold HealthMonitor.collect_metrics. cbn. rewrite Hdue.
    repeat split; reflexivity. }
  destruct Hh1 as (Hlast & Hint & Hmax).
  split; [|split; [|split]].
  - intros wall.
    destruct (collect_latest h true r1 HM) as [older Hl]. fold h1 in Hl.
    assert (Hc : HealthMonitor.get_health_status h1 wall
                 = HealthStatus.CRITICAL).
    { unfold HealthMonitor.get_health_status. rewrite Hl.
      unfold HealthMonitor.collect_metrics. cbn [fst HealthMetrics.led_responsive].
      cbn [andb]. rewrite Hdue, Hfail. cbn [negb].
      rewrite !orb_true_r. reflexivity. }
    split; [exact Hc|]. unfold HealthMonitor.should_restart. now rewrite Hc.
  - subst m2. unfold HealthMonitor.collect_metrics at 1.
    cbn [fst HealthMetrics.led_responsive andb]. rewrite Hlast, Hint, Hsoon.
    reflexivity.
  - subst h2. unfold HealthMonitor.collect_metrics at 1.
    cbn [snd HealthMonitor.led_last_test andb]. rewrite Hlast, Hint, Hsoon.
    reflexivity.
  - intros wall.
    destruct (collect_latest h1 true r2 ltac:(lia)) as [older Hl].
    fold h2 m2 in Hl.
    assert (Hresp : HealthMetrics.led_responsive m2 = true).
    { subst m2. unfold HealthMonitor.collect_metrics at 1.
      cbn [fst HealthMetrics.led_responsive andb].
      rewrite Hlast, Hint, Hsoon. reflexivity. }
    unfold HealthMonitor.should_restart, HealthMonitor.get_health_status.
    rewrite Hl, Hresp.
    change (HealthMonitor.memory_critical_mb h2)
      with (HealthMonitor.memory_critical_mb h).
    change (HealthMonitor.cpu_critical_percent h2)
      with (HealthMonitor.cpu_critical_percent h).
    change (HealthMonitor.heartbeat_timeout h2)
      with (HealthMonitor.heartbeat_timeout h).
    change (HealthMetrics.memory_usage_mb m2)
      with (HealthMonitor.r_memory_mb r2).
    change (HealthMetrics.cpu_usage_percent m2)
      with (HealthMonitor.r_cpu_percent r2).
    change (HealthMetrics.main_loop_heartbeat m2)
      with (HealthMonitor.last_heartbeat h).
    cbn [negb]. rewrite orb_false_r.
    match goal with
    | |- match (if ?c then _ else _) with _ => _ end = _ =>
        destruct c; [reflexivity|]
    end.
    match goal with
    | |- match (if ?c then _ else _) with _ => _ end = _ =>
        destruct c; reflexivity
    end.
Qed.

(** A monitor created at 1000 and never tested; the strip fails its test at
    1070 and is not tested again at 1100. *)
Lemma led_failure_reported_once_witness :
  let h := HealthMonitor.init 30 1000 in
  let r1 := HealthMonitor.mk_readings 1070 120 15 false 2 5000 in
  let r2 := HealthMonitor.mk_readings 1100 120 15 false 2 5000 in
  let h1 := snd (HealthMonitor.collect_metrics h true r1) in
  let h2 := snd (HealthMonitor.collect_metrics h1 true r2) in
  (1 <= HealthMonitor.max_history h)%Z /\
  HealthMonitor.led_test_interval h
  < HealthMonitor.r_time r1 - HealthMonitor.led_last_test h /\
  HealthMonitor.r_time r2 - HealthMonitor.r_time r1
  <= HealthMonitor.led_test_interval h /\
  HealthMonitor.should_restart h1 1071 = true /\
  HealthMonitor.should_restart h2 1101 = true /\
  HealthMonitor.should_restart
    (snd (HealthMonitor.collect_metrics (HealthMonitor.heartbeat h1 1099)
                                        true r2)) 1101 = false.
Proof.
  intros h r1 r2 h1 h2.
  assert (HM : (1 <= HealthMonitor.max_history h)%Z) by (intro H; discriminate H).
  assert (Hdue : HealthMonitor.led_test_interval h
                 < HealthMonitor.r_time r1 - HealthMonitor.led_last_test h)
    by reflexivity.
  assert (Hsoon : HealthMonitor.r_time r2 - HealthMonitor.r_time r1
                  <= HealthMonitor.led_test_interval h)
    by (intro H; discriminate H).
  split; [exact HM | split; [exact Hdue | split; [exact Hsoon |]]].
  destruct (led_failure_reported_once h r1 r2 HM Hdue eq_refl Hsoon)
    as (H1 & _ & _ & H2).
  split; [exact (proj2 (H1 1071))|].
  split; [exact (eq_trans (H2 1101) eq_refl) | reflexivity].
Defined.

(* ================================================================== *)
(** * Further properties of animation_controller.py *)

(** ** Floats: truncation and modulo *)

(** Truncation stays between two integers that enclose the value. *)
Lemma py_int_bounds (a b : Z) (x : Q) :
  inject_Z a <= x -> x <= inject_Z b -> (a <= py_int x <= b)%Z.
Proof.
  intros Ha Hb. destruct (Qlt_le_dec x 0) as [Hx|Hx].
  - rewrite py_int_nonpos by lra.
    assert (H1 : (Qfloor (inject_Z (- b)) <= Qfloor (- x))%Z)
      by (apply Qfloor_resp_le; rewrite inject_Z_opp; lra).
    assert (H2 : inject_Z (Qfloor (- x)) <= - x) by apply Qfloor_le.
    rewrite Qfloor_Z in H1.
    assert (H3 : inject_Z (Qfloor (- x)) <= inject_Z (- a))
      by (rewrite inject_Z_opp; lra).
    rewrite <- Zle_Qle in H3. lia.
  - rewrite py_int_nonneg by exact Hx.
    pose proof (Qfloor_resp_le _ _ Ha) as H1.
    pose proof (Qfloor_resp_le _ _ Hb) as H2.
    rewrite Qfloor_Z in H1, H2. lia.
Qed.

Lemma Qfloor_unique (z : Q) (n : Z) :
  inject_Z n <= z -> z < inject_Z (n + 1) -> Qfloor z = n.
Proof.
  intros H1 H2.
  pose proof (Qfloor_resp_le _ _ H1) as H3. rewrite Qfloor_Z in H3.
  pose proof (Qfloor_le z) as H4.
  assert (H5 : inject_Z (Qfloor z) < inject_Z (n + 1)) by lra.
  rewrite <- Zlt_Qlt in H5. lia.
Qed.

(** The modulo of a positive divisor lies from 0 up to the divisor. *)
Lemma py_fmod_range (x m : Q) :
  0 < m -> 0 <= py_fmod x m /\ py_fmod x m < m.
Proof.
  intros Hm. unfold py_fmod.
  pose proof (Qfloor_le (x / m)) as H1.
  pose proof (Qlt_floor (x / m)) as H2. rewrite inject_Z_plus in H2.
  change (inject_Z 1) with 1 in H2.
  set (F := inject_Z (Qfloor (x / m))) in *.
  assert (Hx : x == (x / m) * m) by (field; lra).
  set (y := x / m) in *.
  split.
  - assert (m * F <= m * y) by nra. lra.
  - assert (m * y < m * (F + 1)) by nra. lra.
Qed.

Lemma Qltb_iff (a b a' b' : Q) :
  (a < b <-> a' < b') -> Qltb a b = Qltb a' b'.
Proof.
  intros H. destruct (Qltb a b) eqn:E1, (Qltb a' b') eqn:E2; try reflexivity.
  - apply Qltb_true in E1. apply Qltb_false in E2. apply H in E1. lra.
  - apply Qltb_false in E1. apply Qltb_true in E2. apply H in E2. lra.
Qed.

(** X8.  A running blink is a square wave, up to the rounding of double
    arithmetic at its edges.  With [elapsed] the elapsed time the code
    computes, not negative, a period that is a normal double, and [phase]
    the exact time into the current period, which lies from 0 up to the
    period, [update] returns a frame whose pixels are all lit, at the
    colour, or all dark, and leaves the effect as it is.  The frame is lit
    when the fraction [phase / period] is below the duty cycle by more than
    [2^-50], and dark when it is at or above the duty cycle by [2^-50] or
    more. *)
Theorem blink_square_wave (e : Effect.t) (c : color) (dc br p now : Q) :
  Effect.kind e = Effect.Blink c dc br p ->
  Effect.state e = RUNNING ->
  2 ^ (-1022) <= p ->
  0 <= Float.sub now (Effect.start_time e) ->
  let elapsed := Float.sub now (Effect.start_time e) in
  let phase := elapsed - p * inject_Z (Qfloor (elapsed / p)) in
  0 <= phase /\ phase < p /\
  exists lit : bool,
    Effect.update e now
    = (Ok (Some (AnimationFrame.mk now
                   (map (fun _ => if lit then c else black)
                        (Effect.pixel_indices e))
                   (Effect.pixel_indices e) 1 (Effect.effect_id e))), e) /\
    (phase / p + 2 ^ (-50) < dc -> lit = true) /\
    (dc + 2 ^ (-50) <= phase / p -> lit = false).
Proof.
  intros Hk Hs Hp He elapsed phase.
  pose proof (pow2_pos (-1022)) as Pn.
  assert (Hp0 : 0 < p) by lra.
  destruct (py_fmod_range elapsed p Hp0) as [H0 H1].
  change (py_fmod elapsed p) with phase in H0, H1.
  split; [exact H0|]. split; [exact H1|].
  assert (Hne : Qeq_bool p 0 = false).
  { destruct (Qeq_bool p 0) eqn:E; [|reflexivity].
    apply Qeq_bool_iff in E. lra. }
  set (pos := Float.div (Float.fmod elapsed p) p).
  exists (Qltb pos dc).
  assert (Hup : Effect.update e now
                = (Ok (Some (AnimationFrame.mk now
                     (map (fun _ => if Qltb pos dc then c else black)
                          (Effect.pixel_indices e))
                     (Effect.pixel_indices e) 1 (Effect.effect_id e))), e)).
  { unfold Effect.update. rewrite Hk, Hs. cbn [negb AnimationState_eqb].
    unfold Effect.blink_update. rewrite Hne. fold elapsed. fold pos.
    unfold Effect.frame_of. destruct (Qltb pos dc); reflexivity. }
  split; [exact Hup|].
  (* the computed position is within four roundings of the exact one *)
  assert (Hpos : Qabs (pos - phase / p) <= 4 * 2 ^ (-53)).
  { unfold pos, Float.div, Float.fmod.
    change (py_fmod elapsed p) with phase.
    pose proof (round_rel phase) as Em.
    rewrite (Qabs_pos phase) in Em by exact H0.
    assert (Hs1 : 2 ^ (-1075) == 2 ^ (-1022) * 2 ^ (-53)) by reflexivity.
    rewrite Hs1 in Em.
    pose proof (pow2_pos (-53)) as Pu.
    set (m := Float.round phase) in *.
    set (u := 2 ^ (-53)) in *. set (n := 2 ^ (-1022)) in *.
    apply Qabs_Qle_condition in Em.
    assert (Hmu : - (2 * u * p) <= m - phase /\ m - phase <= 2 * u * p)
      by (split; nra).
    assert (Hz : - (2 * u) <= m / p - phase / p
                 /\ m / p - phase / p <= 2 * u).
    { assert (E : m / p - phase / p == (m - phase) / p) by (field; lra).
      rewrite E. split.
      - apply Qle_shift_div_l; [exact Hp0 | lra].
      - apply Qle_shift_div_r; [exact Hp0 | lra]. }
    assert (Hf : 0 <= phase / p /\ phase / p <= 1).
    { split.
      - apply Qle_shift_div_l; [exact Hp0 | lra].
      - apply Qle_shift_div_r; [exact Hp0 | lra]. }
    assert (Hu : u <= 1 # 4) by (unfold u; vm_compute; discriminate).
    pose proof (round_near (m / p) 1 ltac:(lia)) as Ez.
    change (2 ^ 1) with 2 in Ez. change (1 - 53)%Z with (-52)%Z in Ez.
    specialize (Ez ltac:(apply Qabs_Qle_condition; split; lra)).
    rewrite ulp_52 in Ez. fold u in Ez. apply Qabs_Qle_condition in Ez.
    apply Qabs_Qle_condition. split; lra. }
  apply Qabs_Qle_condition in Hpos.
  assert (Hs2 : 2 ^ (-50) == 8 * 2 ^ (-53)) by reflexivity.
  pose proof (pow2_pos (-53)) as Pu. rewrite Hs2.
  set (u := 2 ^ (-53)) in *. set (f := phase / p) in *.
  split; intros H.
  - apply Qltb_true. lra.
  - apply Qltb_false. lra.
Qed.

(** A yellow blink at 2 Hz with a duty cycle of one half, started at time
    10: lit at 10.2, which is 0.2 s into the period, and dark at 10.3. *)
Lemma blink_square_wave_witness :
  exists e0,
    Effect.BlinkEffect "wind" (255, 255, 0)%Z 0.5 2 (Some [3; 4]%Z) = Ok e0 /\
    let e := Effect.start e0 10 in
    let t1 := Float.round 10.2 in
    let t2 := Float.round 10.3 in
    Effect.kind e = Effect.Blink (255, 255, 0)%Z 0.5 2 (1 # 2) /\
    Effect.state e = RUNNING /\
    2 ^ (-1022) <= 1 # 2 /\
    0 <= Float.sub t1 (Effect.start_time e) /\
    0 <= Float.sub t2 (Effect.start_time e) /\
    fst (Effect.update e t1)
    = Ok (Some (AnimationFrame.mk t1 [(255, 255, 0); (255, 255, 0)]%Z
                                  [3; 4]%Z 1 "wind")) /\
    fst (Effect.update e t2)
    = Ok (Some (AnimationFrame.mk t2 [(0, 0, 0); (0, 0, 0)]%Z
                                  [3; 4]%Z 1 "wind")).
Proof.
  eexists. split; [reflexivity|]. intros e t1 t2.
  assert (Hp : 2 ^ (-1022) <= 1 # 2) by (vm_compute; discriminate).
  assert (H1 : 0 <= Float.sub t1 (Effect.start_time e))
    by (vm_compute; discriminate).
  assert (H2 : 0 <= Float.sub t2 (Effect.start_time e))
    by (vm_compute; discriminate).
  split; [reflexivity | split; [reflexivity | split; [exact Hp |
    split; [exact H1 | split; [exact H2 |]]]]].
  split.
  - destruct (blink_square_wave e (255, 255, 0)%Z 0.5 2 (1 # 2) t1
                eq_refl eq_refl Hp H1) as (_ & _ & lit & Hu & Hl & _).
    rewrite Hu, Hl; [reflexivity | vm_compute; reflexivity].
  - destruct (blink_square_wave e (255, 255, 0)%Z 0.5 2 (1 # 2) t2
                eq_refl eq_refl Hp H2) as (_ & _ & lit & Hu & _ & Hd).
    rewrite Hu, Hd; [reflexivity | vm_compute; discriminate].
Defined.

Section ColourRanges.
Import Effect Float.

(** The waveform shared by rain and snow, [max(0, base + span * tri)] with
    [tri] a triangle wave of period [2 * 3.14159], lies from 0 to 1 when
    [base + span] is at most 1, the roundings included. *)
Lemma weather_wave_range (base span x : Q) :
  0 <= base -> 0 <= span -> is_float span -> round (base + span) <= 1 ->
  0 <= Qmax 0 (add base
                 (mul span
                    (sub 1 (div (Qabs (sub (fmod x (mul 2 (round 3.14159)))
                                           (round 3.14159)))
                                (round 3.14159)))))
  /\ Qmax 0 (add base
               (mul span
                  (sub 1 (div (Qabs (sub (fmod x (mul 2 (round 3.14159)))
                                         (round 3.14159)))
                              (round 3.14159))))) <= 1.
Proof.
  intros Hb Hs Hf Hsum.
  set (pi := round 3.14159). set (m := mul 2 pi).
  assert (Ppi : 0 < pi) by (vm_compute; reflexivity).
  assert (Em : m == 2 * pi) by (vm_compute; reflexivity).
  assert (Fm : round m == m) by (vm_compute; reflexivity).
  assert (Fp : round pi == pi) by (vm_compute; reflexivity).
  assert (Fn : round (- pi) == - pi) by (vm_compute; reflexivity).
  assert (F0 : round 0 == 0) by reflexivity.
  assert (F1 : round 1 == 1) by reflexivity.
  unfold fmod, sub, div, mul at 1, add.
  destruct (py_fmod_range x m ltac:(lra)) as [P0 P1].
  pose proof (round_le 0 (py_fmod x m) P0) as Q0. rewrite F0 in Q0.
  pose proof (round_le (py_fmod x m) m ltac:(lra)) as Q1. rewrite Fm in Q1.
  set (p := round (py_fmod x m)) in *.
  pose proof (round_le (- pi) (p - pi) ltac:(lra)) as D0. rewrite Fn in D0.
  pose proof (round_le (p - pi) pi ltac:(lra)) as D1. rewrite Fp in D1.
  set (d := round (p - pi)) in *.
  assert (Ha : 0 <= Qabs d /\ Qabs d <= pi).
  { split; [apply Qabs_nonneg|]. apply Qabs_Qle_condition. split; lra. }
  set (a := Qabs d) in *.
  assert (Hq : 0 <= a / pi /\ a / pi <= 1).
  { split; [apply Qle_shift_div_l | apply Qle_shift_div_r]; lra. }
  pose proof (round_le 0 (a / pi) (proj1 Hq)) as R0. rewrite F0 in R0.
  pose proof (round_le (a / pi) 1 (proj2 Hq)) as R1. rewrite F1 in R1.
  set (r := round (a / pi)) in *.
  pose proof (round_le 0 (1 - r) ltac:(lra)) as S0. rewrite F0 in S0.
  pose proof (round_le (1 - r) 1 ltac:(lra)) as S1. rewrite F1 in S1.
  set (s1 := round (1 - r)) in *.
  unfold mul.
  pose proof (round_le 0 (span * s1) ltac:(nra)) as T0. rewrite F0 in T0.
  pose proof (round_le (span * s1) span ltac:(nra)) as T1.
  unfold is_float in Hf. rewrite Hf in T1.
  set (s2 := round (span * s1)) in *.
  pose proof (round_nonneg (base + s2) ltac:(lra)) as U0.
  pose proof (round_le (base + s2) (base + span) ltac:(lra)) as U1.
  set (s3 := round (base + s2)) in *.
  split.
  - apply Q.le_max_l.
  - apply Q.max_lub; lra.
Qed.

Lemma channel_range (x intensity : Q) :
  0 <= x -> x <= 1 -> 0 <= intensity -> intensity <= 1 ->
  (0 <= py_int (mul (mul 255 x) intensity) <= 255)%Z.
Proof.
  intros Hx0 Hx1 Hi0 Hi1. unfold mul.
  assert (F0 : round 0 == 0) by reflexivity.
  assert (Fb : round 255 == 255) by reflexivity.
  pose proof (round_le 0 (255 * x) ltac:(lra)) as A0. rewrite F0 in A0.
  pose proof (round_le (255 * x) 255 ltac:(lra)) as A1. rewrite Fb in A1.
  set (a := round (255 * x)) in *.
  pose proof (round_le 0 (a * intensity) ltac:(nra)) as B0. rewrite F0 in B0.
  pose proof (round_le (a * intensity) 255 ltac:(nra)) as B1.
  rewrite Fb in B1.
  now apply py_int_bounds.
Qed.

Lemma rain_pixel_range (intensity phase : Q) (index : Z) :
  0 <= intensity -> intensity <= 1 ->
  exists b, _rain_pixel intensity index phase = (0, 0, b)%Z
            /\ (0 <= b <= 255)%Z.
Proof.
  intros H0 H1. unfold _rain_pixel. cbv zeta.
  eexists. split; [reflexivity|].
  assert (Hb0 : 0 <= 0.5) by (vm_compute; discriminate).
  assert (Hf : is_float 0.5) by (vm_compute; reflexivity).
  assert (Hs : round (0.5 + 0.5) <= 1) by (vm_compute; discriminate).
  destruct (weather_wave_range 0.5 0.5
              (add phase (mul (of_int index) (round 0.1))) Hb0 Hb0 Hf Hs)
    as [Ha Hb].
  apply channel_range; assumption.
Qed.

Lemma snow_pixel_range (intensity phase : Q) (index : Z) :
  0 <= intensity -> intensity <= 1 ->
  exists v, _snow_pixel intensity index phase = (v, v, v)
            /\ (0 <= v <= 255)%Z.
Proof.
  intros H0 H1. unfold _snow_pixel. cbv zeta.
  eexists. split; [reflexivity|].
  assert (Hb0 : 0 <= round 0.3) by (vm_compute; discriminate).
  assert (Hs0 : 0 <= round 0.7) by (vm_compute; discriminate).
  assert (Hf : is_float (round 0.7)) by (vm_compute; reflexivity).
  assert (Hs : round (round 0.3 + round 0.7) <= 1)
    by (vm_compute; discriminate).
  destruct (weather_wave_range (round 0.3) (round 0.7)
              (add phase (mul (of_int index) (round 0.2))) Hb0 Hs0 Hf Hs)
    as [Ha Hb].
  apply channel_range; assumption.
Qed.

End ColourRanges.

(** X9.  A running weather effect with an intensity from 0 to 1 returns a
    frame with one colour per pixel index, every channel from 0 to 255, and
    the intensity as brightness: rain is pure blue, snow is grey, lightning
    is white or black, and any other effect type is black.  The call stores
    twice the elapsed time as the phase. *)
Theorem weather_frame_displayable (e : Effect.t) (ty : string)
    (intensity ph now : Q) :
  Effect.kind e = Effect.Weather ty intensity ph ->
  Effect.state e = RUNNING ->
  0 <= intensity -> intensity <= 1 ->
  exists px,
    Effect.update e now
    = (Ok (Some (AnimationFrame.mk now px (Effect.pixel_indices e) intensity
                                   (Effect.effect_id e))),
       Effect.set_kind e
         (Effect.Weather ty intensity
            (Float.mul (Float.sub now (Effect.start_time e)) 2))) /\
    List.length px = List.length (Effect.pixel_indices e) /\
    Forall displayable px /\
    (ty = "rain"%string ->
     Forall (fun c => exists b, c = (0, 0, b)%Z) px) /\
    (ty = "snow"%string ->
     Forall (fun c => exists v, c = (v, v, v)) px) /\
    (ty = "lightning"%string ->
     Forall (fun c => c = (255, 255, 255)%Z \/ c = (0, 0, 0)%Z) px) /\
    (ty <> "rain"%string -> ty <> "snow"%string -> ty <> "lightning"%string ->
     Forall (fun c => c = (0, 0, 0)%Z) px).
Proof.
  intros Hk Hs H0 H1.
  unfold Effect.update. rewrite Hk, Hs. simpl negb. cbv iota.
  unfold Effect.weather_update. eexists. split; [reflexivity|].
  set (phase := Float.mul (Float.sub now (Effect.start_time e)) 2).
  split; [apply length_map|].
  repeat split.
  - apply Forall_map, Forall_forall. intros i _.
    destruct (String.eqb ty "rain").
    { destruct (rain_pixel_range intensity phase i H0 H1) as (b & -> & Hb).
      simpl. lia. }
    destruct (String.eqb ty "snow").
    { destruct (snow_pixel_range intensity phase i H0 H1) as (v & -> & Hv).
      simpl. lia. }
    destruct (String.eqb ty "lightning"); [|simpl; lia].
    unfold Effect._lightning_pixel. destruct (Qltb _ _); simpl; lia.
  - intros ->. apply Forall_map, Forall_forall. intros i _.
    rewrite String.eqb_refl.
    destruct (rain_pixel_range intensity phase i H0 H1) as (b & -> & _).
    eexists. reflexivity.
  - intros ->. apply Forall_map, Forall_forall. intros i _. simpl String.eqb.
    destruct (snow_pixel_range intensity phase i H0 H1) as (v & -> & _).
    eexists. reflexivity.
  - intros ->. apply Forall_map, Forall_forall. intros i _. simpl String.eqb.
    unfold Effect._lightning_pixel. destruct (Qltb _ _); auto.
  - intros Hr Hn Hl. apply Forall_map, Forall_forall. intros i _.
    apply String.eqb_neq in Hr, Hn, Hl. rewrite Hr, Hn, Hl. reflexivity.
Qed.

(** Rain at full intensity on three pixels, a second after the start. *)
Lemma weather_frame_displayable_witness :
  let e := Effect.start
             (Effect.WeatherEffect "alert" "rain" 1 (Some [0; 1; 2]%Z)) 5 in
  Effect.kind e = Effect.Weather "rain" 1 0 /\
  Effect.state e = RUNNING /\
  0 <= 1 /\ 1 <= 1 /\
  exists px,
    fst (Effect.update e 6)
    = Ok (Some (AnimationFrame.mk 6 px [0; 1; 2]%Z 1 "alert")) /\
    Forall displayable px /\
    px = [(0, 0, 208); (0, 0, 212); (0, 0, 216)]%Z.
Proof.
  intros e.
  assert (H0 : 0 <= 1) by (intro H; discriminate H).
  assert (H1 : 1 <= 1) by (intro H; discriminate H).
  split; [reflexivity | split; [reflexivity | split; [exact H0 |
    split; [exact H1 |]]]].
  destruct (weather_frame_displayable e "rain" 1 0 6 eq_refl eq_refl H0 H1)
    as (px & Hu & _ & Hd & _).
  exists px. split; [rewrite Hu; reflexivity|]. split; [exact Hd|].
  assert (E : fst (Effect.update e 6)
              = Ok (Some (AnimationFrame.mk 6
                            [(0, 0, 208); (0, 0, 212); (0, 0, 216)]%Z
                            [0; 1; 2]%Z 1 "alert")))
    by (vm_compute; reflexivity).
  rewrite Hu in E. cbn [fst] in E. now injection E.
Defined.

Section RampFacts.
Import Effect Float.

Lemma truncates_near_Z (n : Z) : truncates_near n (inject_Z n).
Proof.
  exists (inject_Z n). split; [symmetry; apply py_int_inject_Z|].
  assert (E : inject_Z n - inject_Z n == 0) by ring. rewrite E.
  intro H. discriminate H.
Qed.

(** A rising quarter of the ramp, [int(255 * x * 4)]. *)
Lemma ramp_up (x : Q) :
  0 <= x -> x <= 1 # 4 ->
  let y := mul (mul 255 x) 4 in
  0 <= y /\ y <= 255 /\ Qabs (y - 255 * (4 * x)) <= 512 * 2 ^ (-53).
Proof.
  intros H0 H1 y. unfold y, mul. pose proof (pow2_pos (-53)) as Pu.
  assert (F0 : round 0 == 0) by reflexivity.
  assert (Fa : round (255 # 4) == 255 # 4) by reflexivity.
  assert (Fb : round 255 == 255) by reflexivity.
  pose proof (round_le 0 (255 * x) ltac:(lra)) as A0. rewrite F0 in A0.
  pose proof (round_le (255 * x) (255 # 4) ltac:(lra)) as A1. rewrite Fa in A1.
  pose proof (round_near (255 * x) 6 ltac:(lia)) as Ea.
  change (2 ^ 6) with 64 in Ea. change (6 - 53)%Z with (-47)%Z in Ea.
  specialize (Ea ltac:(apply Qabs_Qle_condition; split; lra)).
  assert (U47 : 2 ^ (-47) == 64 * 2 ^ (-53)) by reflexivity.
  rewrite U47 in Ea. apply Qabs_Qle_condition in Ea.
  set (a := round (255 * x)) in *.
  pose proof (round_le 0 (a * 4) ltac:(lra)) as B0. rewrite F0 in B0.
  pose proof (round_le (a * 4) 255 ltac:(lra)) as B1. rewrite Fb in B1.
  pose proof (round_near (a * 4) 8 ltac:(lia)) as Eb.
  change (2 ^ 8) with 256 in Eb. change (8 - 53)%Z with (-45)%Z in Eb.
  specialize (Eb ltac:(apply Qabs_Qle_condition; split; lra)).
  rewrite ulp_45 in Eb. apply Qabs_Qle_condition in Eb.
  set (b := round (a * 4)) in *. set (u := 2 ^ (-53)) in *.
  split; [exact B0|]. split; [exact B1|].
  apply Qabs_Qle_condition. split; lra.
Qed.

(** A falling quarter of the ramp, [int(255 * (1 - x * 4))]. *)
Lemma ramp_down (x : Q) :
  0 <= x -> x <= 1 # 4 ->
  let y := mul 255 (sub 1 (mul x 4)) in
  0 <= y /\ y <= 255 /\ Qabs (y - 255 * (1 - 4 * x)) <= 766 * 2 ^ (-53).
Proof.
  intros H0 H1 y. unfold y, mul, sub. pose proof (pow2_pos (-53)) as Pu.
  assert (F0 : round 0 == 0) by reflexivity.
  assert (F1 : round 1 == 1) by reflexivity.
  assert (Fb : round 255 == 255) by reflexivity.
  pose proof (round_le 0 (x * 4) ltac:(lra)) as A0. rewrite F0 in A0.
  pose proof (round_le (x * 4) 1 ltac:(lra)) as A1. rewrite F1 in A1.
  pose proof (round_near (x * 4) 0 ltac:(lia)) as Ea.
  change (2 ^ 0) with 1 in Ea. change (0 - 53)%Z with (-53)%Z in Ea.
  specialize (Ea ltac:(apply Qabs_Qle_condition; split; lra)).
  apply Qabs_Qle_condition in Ea.
  set (a := round (x * 4)) in *.
  pose proof (round_le 0 (1 - a) ltac:(lra)) as B0. rewrite F0 in B0.
  pose proof (round_le (1 - a) 1 ltac:(lra)) as B1. rewrite F1 in B1.
  pose proof (round_near (1 - a) 0 ltac:(lia)) as Eb.
  change (2 ^ 0) with 1 in Eb. change (0 - 53)%Z with (-53)%Z in Eb.
  specialize (Eb ltac:(apply Qabs_Qle_condition; split; lra)).
  apply Qabs_Qle_condition in Eb.
  set (b := round (1 - a)) in *.
  pose proof (round_le 0 (255 * b) ltac:(lra)) as C0. rewrite F0 in C0.
  pose proof (round_le (255 * b) 255 ltac:(lra)) as C1. rewrite Fb in C1.
  pose proof (round_near (255 * b) 8 ltac:(lia)) as Ec.
  change (2 ^ 8) with 256 in Ec. change (8 - 53)%Z with (-45)%Z in Ec.
  specialize (Ec ltac:(apply Qabs_Qle_condition; split; lra)).
  rewrite ulp_45 in Ec. apply Qabs_Qle_condition in Ec.
  set (c := round (255 * b)) in *. set (u := 2 ^ (-53)) in *.
  split; [exact C0|]. split; [exact C1|].
  apply Qabs_Qle_condition. split; lra.
Qed.

(** The distance of a value from the start of its quarter, [value - base]. *)
Lemma quarter_offset (v base : Q) :
  base <= v -> v <= base + (1 # 4) ->
  let x := sub v base in
  0 <= x /\ x <= 1 # 4 /\ Qabs (x - (v - base)) <= 2 ^ (-53).
Proof.
  intros H0 H1 x. unfold x, sub. pose proof (pow2_pos (-53)) as Pu.
  assert (F0 : round 0 == 0) by reflexivity.
  assert (Fq : round (1 # 4) == 1 # 4) by reflexivity.
  pose proof (round_le 0 (v - base) ltac:(lra)) as A0. rewrite F0 in A0.
  pose proof (round_le (v - base) (1 # 4) ltac:(lra)) as A1. rewrite Fq in A1.
  split; [exact A0|]. split; [exact A1|].
  apply (round_near (v - base) 0); [lia|].
  change (2 ^ 0) with 1. apply Qabs_Qle_condition. split; lra.
Qed.

Lemma near_of_bound (y x : Q) (k : Q) :
  Qabs (y - x) <= k * 2 ^ (-53) -> k <= 8192 ->
  truncates_near (py_int y) x.
Proof.
  intros H Hk. exists y. split; [reflexivity|].
  pose proof ulp_small as Hs. pose proof (pow2_pos (-53)) as Pu.
  set (u := 2 ^ (-53)) in *.
  eapply Qle_trans; [exact H|]. nra.
Qed.

Lemma heat_color_comp (v v' : Q) : v == v' -> heat_color v = heat_color v'.
Proof.
  intros E. unfold heat_color, mul, sub.
  rewrite (Qltb_iff v 0.25 v' 0.25) by now rewrite E.
  rewrite (Qltb_iff v 0.5 v' 0.5) by now rewrite E.
  rewrite (Qltb_iff v 0.75 v' 0.75) by now rewrite E.
  rewrite (round_comp (255 * v) (255 * v')) by now rewrite E.
  rewrite (round_comp (v - 0.25) (v' - 0.25)) by now rewrite E.
  rewrite (round_comp (v - 0.5) (v' - 0.5)) by now rewrite E.
  rewrite (round_comp (v - 0.75) (v' - 0.75)) by now rewrite E.
  reflexivity.
Qed.

(** The colour of a value from 0 to 1 is displayable and follows the exact
    ramp. *)
Lemma heat_color_on_ramp (v : Q) :
  0 <= v -> v <= 1 ->
  displayable (heat_color v) /\ near_color (heat_color v) (spec_heat_ramp v).
Proof.
  intros H0 H1. unfold heat_color, spec_heat_ramp, displayable, near_color.
  pose proof (pow2_pos (-53)) as Pu.
  pose proof (truncates_near_Z 0) as N0.
  pose proof (truncates_near_Z 255) as N255.
  change (inject_Z 0) with 0 in N0. change (inject_Z 255) with 255 in N255.
  destruct (Qltb v 0.25) eqn:E1.
  { apply Qltb_true in E1.
    destruct (ramp_up v H0 ltac:(lra)) as (Y0 & Y1 & Yd).
    split.
    - split; [lia|]. split; [|lia]. now apply py_int_bounds.
    - split; [exact N0|]. split; [|exact N255].
      apply (near_of_bound _ _ 512 Yd). intro H; discriminate H. }
  apply Qltb_false in E1. destruct (Qltb v 0.5) eqn:E2.
  { apply Qltb_true in E2.
    destruct (quarter_offset v 0.25 E1 ltac:(lra)) as (X0 & X1 & Xd).
    destruct (ramp_down _ X0 X1) as (Y0 & Y1 & Yd).
    split.
    - split; [lia|]. split; [lia|]. now apply py_int_bounds.
    - split; [exact N0|]. split; [exact N255|].
      apply (near_of_bound _ _ 1786); [|intro H; discriminate H].
      apply Qabs_Qle_condition in Xd, Yd. apply Qabs_Qle_condition.
      set (x := sub v 0.25) in *. set (u := 2 ^ (-53)) in *.
      set (y := mul 255 (sub 1 (mul x 4))) in *. split; lra. }
  apply Qltb_false in E2. destruct (Qltb v 0.75) eqn:E3.
  { apply Qltb_true in E3.
    destruct (quarter_offset v 0.5 E2 ltac:(lra)) as (X0 & X1 & Xd).
    destruct (ramp_up _ X0 X1) as (Y0 & Y1 & Yd).
    split.
    - split; [|split; lia]. now apply py_int_bounds.
    - split; [|split; [exact N255 | exact N0]].
      apply (near_of_bound _ _ 1532); [|intro H; discriminate H].
      apply Qabs_Qle_condition in Xd, Yd. apply Qabs_Qle_condition.
      set (x := sub v 0.5) in *. set (u := 2 ^ (-53)) in *.
      set (y := mul (mul 255 x) 4) in *. split; lra. }
  apply Qltb_false in E3.
  destruct (quarter_offset v 0.75 E3 ltac:(lra)) as (X0 & X1 & Xd).
  destruct (ramp_down _ X0 X1) as (Y0 & Y1 & Yd).
  split.
  - split; [lia|]. split; [|lia]. now apply py_int_bounds.
  - split; [exact N255|]. split; [|exact N0].
    apply (near_of_bound _ _ 1786); [|intro H; discriminate H].
    apply Qabs_Qle_condition in Xd, Yd. apply Qabs_Qle_condition.
    set (x := sub v 0.75) in *. set (u := 2 ^ (-53)) in *.
    set (y := mul 255 (sub 1 (mul x 4))) in *. split; lra.
Qed.

Lemma Forall2_right {A B : Type} (R : A -> B -> Prop) (P : B -> Prop)
    (l : list A) (l' : list B) :
  Forall2 R l l' -> (forall a b, R a b -> P b) -> Forall P l'.
Proof.
  intros H HP. induction H as [|a b l l' Hab H IH]; constructor;
    [exact (HP a b Hab) | exact IH].
Qed.

End RampFacts.

(** X10.  A running heat map below its iteration cap returns a frame with
    one colour per data value and counts one iteration more, changing
    nothing else.  For a value from 0 to 1 the colour is displayable and
    follows the ramp from blue through cyan, green and yellow to red: each
    channel is the integer part of a value within the rounding slack of the
    exact ramp, and the colour is exactly blue at 0, cyan at 0.25, green at
    0.5, yellow at 0.75 and red at 1. *)
Theorem heat_map_frame_on_ramp (e : Effect.t) (data : list Q)
    (m cur : Z) (fs now : Q) :
  Effect.kind e = Effect.HeatMap data m cur fs ->
  Effect.state e = RUNNING ->
  (cur < m)%Z ->
  Forall (fun v => 0 <= v /\ v <= 1) data ->
  exists px,
    Effect.update e now
    = (Ok (Some (AnimationFrame.mk now px (Effect.pixel_indices e) 1
                                   (Effect.effect_id e))),
       Effect.set_kind e (Effect.HeatMap data m (cur + 1) fs)) /\
    Forall2 (fun v c =>
               displayable c /\
               near_color c (spec_heat_ramp v) /\
               (v == 0 -> c = (0, 0, 255)%Z) /\
               (v == 0.25 -> c = (0, 255, 255)%Z) /\
               (v == 0.5 -> c = (0, 255, 0)%Z) /\
               (v == 0.75 -> c = (255, 255, 0)%Z) /\
               (v == 1 -> c = (255, 0, 0)%Z))
            data px.
Proof.
  intros Hk Hs Hc Hd. exists (map Effect.heat_color data). split.
  - unfold Effect.update. rewrite Hk, Hs. simpl negb. cbv iota.
    apply Z.leb_gt in Hc. rewrite Hc. reflexivity.
  - clear Hk. induction Hd as [|v data [H0 H1] Hd IH]; simpl; constructor;
      [|exact IH].
    destruct (heat_color_on_ramp v H0 H1) as [Hdisp Hnear].
    split; [exact Hdisp|]. split; [exact Hnear|].
    repeat split; intros E; rewrite (heat_color_comp _ _ E);
      vm_compute; reflexivity.
Qed.

(** A new heat map over the doubles nearest to 0.1 and 0.6 and over 1,
    started and updated once. *)
Lemma heat_map_frame_on_ramp_witness :
  let data := [Float.round 0.1; Float.round 0.6; 1] in
  let e := Effect.start (Effect.HeatMapEffect "heat" data 100 None) 0 in
  Effect.kind e = Effect.HeatMap data 100 0 0.02 /\
  Effect.state e = RUNNING /\
  (0 < 100)%Z /\
  Forall (fun v => 0 <= v /\ v <= 1) data /\
  exists px,
    fst (Effect.update e 1)
    = Ok (Some (AnimationFrame.mk 1 px [0; 1; 2]%Z 1 "heat")) /\
    Forall displayable px /\
    px = [(0, 102, 255); (101, 255, 0); (255, 0, 0)]%Z.
Proof.
  intros data e.
  assert (Hd : Forall (fun v => 0 <= v /\ v <= 1) data).
  { repeat constructor; vm_compute; discriminate. }
  split; [reflexivity | split; [reflexivity | split; [reflexivity |
    split; [exact Hd |]]]].
  destruct (heat_map_frame_on_ramp e data 100 0 0.02 1
              eq_refl eq_refl eq_refl Hd) as (px & Hu & Hf).
  exists px. split; [rewrite Hu; reflexivity|]. split.
  - apply (Forall2_right _ _ _ _ Hf). intros v c H. exact (proj1 H).
  - assert (E : fst (Effect.update e 1)
                = Ok (Some (AnimationFrame.mk 1
                              [(0, 102, 255); (101, 255, 0); (255, 0, 0)]%Z
                              [0; 1; 2]%Z 1 "heat")))
      by (vm_compute; reflexivity).
    rewrite Hu in E. cbn [fst] in E. now injection E.
Defined.

Section EaseRange.
Import Effect Float.

(** A double of a given binade is an integer number of its last place. *)
Lemma float_mantissa (x : Q) (k : Z) :
  is_float x -> (-1022 <= k)%Z -> 2 ^ k <= x -> x < 2 ^ (k + 1) ->
  exists M : Z, x == inject_Z M * 2 ^ (k - 52).
Proof.
  intros Hf Hk H1 H2. pose proof (pow2_pos k) as Pk.
  assert (E : ~ x == 0) by lra.
  assert (Ha : Qabs x == x) by (apply Qabs_pos; lra).
  assert (Ee : exponent x = (k - 52)%Z).
  { rewrite (exponent_in x k); [lia | rewrite Ha; exact H1
                                 | rewrite Ha; exact H2]. }
  exists (nearest_even (x / 2 ^ (k - 52))).
  rewrite <- Ee. rewrite <- (round_eq x E). symmetry. exact Hf.
Qed.

Lemma nearest_even_floor (y : Q) (n : Z) :
  inject_Z n <= y -> y < inject_Z n + (1 # 2) -> nearest_even y = n.
Proof.
  intros H1 H2.
  assert (Ef : Qfloor y = n).
  { apply Qfloor_unique; [exact H1|].
    rewrite inject_Z_plus. change (inject_Z 1) with 1. lra. }
  destruct (nearest_even_cases y) as [[E _]|[_ H]]; rewrite Ef in *;
    [exact E | lra].
Qed.

(** The easing of a progress the code can compute lies from 0 to 1, the
    roundings included. *)
Lemma ease_range (t : Q) :
  0 <= t ->
  0 <= _ease_in_out (Qmin 1 (round t))
  /\ _ease_in_out (Qmin 1 (round t)) <= 1.
Proof.
  intros Ht.
  assert (F0 : round 0 == 0) by reflexivity.
  assert (F1 : round 1 == 1) by reflexivity.
  assert (F2 : round 2 == 2) by reflexivity.
  assert (F3 : round 3 == 3) by reflexivity.
  assert (Fq : round (1 # 4) == 1 # 4) by reflexivity.
  pose proof (round_nonneg t Ht) as Hq0.
  pose proof (round_is_float t) as Hqf.
  set (q := round t) in *.
  destruct (Qlt_le_dec q 1) as [Hq1|Hq1].
  2: { rewrite (ease_comp (Qmin 1 q) 1) by (apply Q.min_l; exact Hq1).
       change (_ease_in_out 1) with 1. split; intro H; discriminate H. }
  rewrite (ease_comp (Qmin 1 q) q) by (apply Q.min_r; lra).
  unfold _ease_in_out, mul, sub.
  assert (Hqq : 0 <= q * q /\ q * q < 1) by (split; nra).
  pose proof (round_le 0 (q * q) (proj1 Hqq)) as A0. rewrite F0 in A0.
  pose proof (round_le (q * q) 1 ltac:(lra)) as A1. rewrite F1 in A1.
  pose proof (round_le 0 (2 * q) ltac:(lra)) as M0. rewrite F0 in M0.
  pose proof (round_le (2 * q) 2 ltac:(lra)) as M2. rewrite F2 in M2.
  pose proof (round_le 1 (3 - round (2 * q)) ltac:(lra)) as B1.
  rewrite F1 in B1.
  pose proof (round_le (3 - round (2 * q)) 3 ltac:(lra)) as B3.
  rewrite F3 in B3.
  split.
  { apply round_nonneg.
    set (A := round (q * q)) in *. set (B := round (3 - round (2 * q))) in *.
    nra. }
  apply Qle_trans with (round 1); [apply round_le | rewrite F1; apply Qle_refl].
  destruct (Qlt_le_dec (1 # 2) q) as [Hh|Hh].
  2: { pose proof (round_le (q * q) (1 # 4) ltac:(nra)) as A4.
       rewrite Fq in A4.
       set (A := round (q * q)) in *.
       set (B := round (3 - round (2 * q))) in *. nra. }
  (* a double between one half and one *)
  destruct (float_mantissa q (-1) Hqf ltac:(lia)) as [m Hm].
  { change (2 ^ (-1)) with (1 # 2). lra. }
  { change (2 ^ (-1 + 1)) with 1. exact Hq1. }
  change (-1 - 52)%Z with (-53)%Z in Hm.
  assert (Hu : 2 ^ (-53) == 1 # 9007199254740992) by reflexivity.
  assert (Hm' : inject_Z m == q * 9007199254740992)
    by (rewrite Hm, Hu; field).
  assert (Z1 : (4503599627370496 < m)%Z).
  { rewrite Zlt_Qlt. change (inject_Z 4503599627370496) with 4503599627370496.
    lra. }
  assert (Z2 : (m < 9007199254740992)%Z).
  { rewrite Zlt_Qlt. change (inject_Z 9007199254740992) with 9007199254740992.
    lra. }
  assert (EM : round (2 * q) == 2 * q).
  { rewrite (round_comp (2 * q) (inject_Z m * 2 ^ (-52)))
      by (rewrite ulp_52, Hm; ring).
    rewrite round_fix by (change (2 ^ 53)%Z with 9007199254740992%Z; lia).
    rewrite ulp_52, Hm. ring. }
  assert (EB : round (3 - round (2 * q)) == 3 - 2 * q).
  { assert (E : 3 - round (2 * q)
                == inject_Z (13510798882111488 - m) * 2 ^ (-52)).
    { rewrite EM, ulp_52, Hu. unfold Z.sub.
      rewrite inject_Z_plus, inject_Z_opp, Hm'.
      change (inject_Z 13510798882111488) with 13510798882111488. field. }
    rewrite (round_comp _ _ E).
    rewrite round_fix by (change (2 ^ 53)%Z with 9007199254740992%Z; lia).
    rewrite <- E, EM. reflexivity. }
  rewrite EB.
  assert (E27 : 2 ^ (-27) == 1 # 134217728) by reflexivity.
  destruct (Qlt_le_dec (1 - q) (2 ^ (-27))) as [Hs|Hs]; rewrite E27 in Hs.
  - (* the square rounds down to [2 * q - 1] *)
    assert (EA : round (q * q) == 2 * q - 1).
    { assert (Ex : ~ q * q == 0) by nra.
      assert (Ha : Qabs (q * q) == q * q) by (apply Qabs_pos; lra).
      assert (Ee : exponent (q * q) = (-53)%Z).
      { rewrite (exponent_in (q * q) (-1)); [reflexivity | |].
        - rewrite Ha. change (2 ^ (-1)) with (1 # 2). nra.
        - rewrite Ha. change (2 ^ (-1 + 1)) with 1. lra. }
      rewrite (round_eq _ Ex), Ee.
      rewrite (nearest_even_floor _ (2 * m - 9007199254740992)).
      - unfold Z.sub. rewrite inject_Z_plus, inject_Z_opp, inject_Z_mult, Hm'.
        change (inject_Z 2) with 2.
        change (inject_Z 9007199254740992) with 9007199254740992.
        rewrite Hu. field.
      - unfold Z.sub. rewrite inject_Z_plus, inject_Z_opp, inject_Z_mult, Hm'.
        change (inject_Z 2) with 2.
        change (inject_Z 9007199254740992) with 9007199254740992.
        apply Qle_shift_div_l; [apply pow2_pos|]. rewrite Hu.
        assert (0 <= (1 - q) * (1 - q)) by nra. lra.
      - unfold Z.sub. rewrite inject_Z_plus, inject_Z_opp, inject_Z_mult, Hm'.
        change (inject_Z 2) with 2.
        change (inject_Z 9007199254740992) with 9007199254740992.
        apply Qlt_shift_div_r; [apply pow2_pos|]. rewrite Hu.
        assert ((1 - q) * (1 - q) < 1 # 18014398509481984) by nra. lra. }
    rewrite EA. nra.
  - (* the rounding error of the square is at most the square of [1 - q] *)
    pose proof (round_near_lt (q * q) 0 ltac:(lia)) as Ea.
    change (2 ^ 0) with 1 in Ea. change (0 - 54)%Z with (-54)%Z in Ea.
    specialize (Ea ltac:(apply Qabs_Qlt_condition; split; lra)).
    assert (E54 : 2 ^ (-54) == 1 # 18014398509481984) by reflexivity.
    rewrite E54 in Ea. apply Qabs_Qle_condition in Ea.
    set (A := round (q * q)) in *.
    assert (Hss : 1 # 18014398509481984 <= (1 - q) * (1 - q)) by nra.
    assert (HA : A <= 2 * q - 1 + 2 * ((1 - q) * (1 - q))) by nra.
    assert (Hb : 0 <= 3 - 2 * q) by lra.
    assert (H1 : A * (3 - 2 * q)
                 <= (2 * q - 1 + 2 * ((1 - q) * (1 - q))) * (3 - 2 * q))
      by nra.
    assert (H2 : (2 * q - 1 + 2 * ((1 - q) * (1 - q))) * (3 - 2 * q)
                 == 1 - 2 * ((1 - q) * (1 - q)) * (1 - 2 * (1 - q))) by ring.
    assert (H3 : 0 <= (1 - q) * (1 - q) * (1 - 2 * (1 - q))) by nra.
    lra.
Qed.

(** A channel lies between its two ends at any weight from 0 to 1. *)
Lemma fade_channel_between (s e : Z) (w : Q) :
  (Z.abs s <= 2 ^ 52)%Z -> (Z.abs e <= 2 ^ 52)%Z ->
  0 <= w -> w <= 1 ->
  (Z.min s e <= fade_channel s e w <= Z.max s e)%Z.
Proof.
  intros Hs He H0 H1. rewrite (fade_channel_exact s e w Hs He).
  change (2 ^ 52)%Z with 4503599627370496%Z in Hs, He.
  assert (Fs : round (inject_Z s) == inject_Z s)
    by (apply round_Z; change (2 ^ 53)%Z with 9007199254740992%Z; lia).
  assert (Fe : round (inject_Z e) == inject_Z e)
    by (apply round_Z; change (2 ^ 53)%Z with 9007199254740992%Z; lia).
  assert (Fd : round (inject_Z (e - s)) == inject_Z (e - s))
    by (apply round_Z; change (2 ^ 53)%Z with 9007199254740992%Z; lia).
  assert (F0 : round 0 == 0) by reflexivity.
  assert (Hd : inject_Z (e - s) == inject_Z e - inject_Z s)
    by (unfold Z.sub; rewrite inject_Z_plus, inject_Z_opp; ring).
  set (S := inject_Z s) in *. set (E := inject_Z e) in *.
  set (D := inject_Z (e - s)) in *.
  destruct (Z.le_ge_cases s e) as [H|H].
  - rewrite Z.min_l, Z.max_r by lia.
    assert (HSE : S <= E) by (unfold S, E; rewrite <- Zle_Qle; exact H).
    pose proof (round_le 0 (D * w) ltac:(nra)) as M0. rewrite F0 in M0.
    pose proof (round_le (D * w) D ltac:(nra)) as M1. rewrite Fd in M1.
    set (m := round (D * w)) in *.
    pose proof (round_le S (S + m) ltac:(lra)) as X0. rewrite Fs in X0.
    pose proof (round_le (S + m) E ltac:(lra)) as X1. rewrite Fe in X1.
    apply py_int_bounds; assumption.
  - rewrite Z.min_r, Z.max_l by lia.
    assert (HSE : E <= S) by (unfold S, E; rewrite <- Zle_Qle; exact H).
    pose proof (round_le (D * w) 0 ltac:(nra)) as M0. rewrite F0 in M0.
    pose proof (round_le D (D * w) ltac:(nra)) as M1. rewrite Fd in M1.
    set (m := round (D * w)) in *.
    pose proof (round_le (S + m) S ltac:(lra)) as X0. rewrite Fs in X0.
    pose proof (round_le E (S + m) ltac:(lra)) as X1. rewrite Fe in X1.
    apply py_int_bounds; assumption.
Qed.

End EaseRange.

(** X11.  A running fade with a positive duration, updated at or after its
    start, returns a frame with one colour for all its pixels, each channel
    of which lies between the start and the end value of that channel; so
    the colour is displayable when the two colours are.  The channels of the
    two colours are integers that a double holds exactly. *)
Theorem fade_between_its_colours (e : Effect.t) (sc ec : color) (d now : Q) :
  Effect.kind e = Effect.Fade sc ec d ->
  Effect.state e = RUNNING ->
  0 < d ->
  Effect.start_time e <= now ->
  exact_color sc -> exact_color ec ->
  exists c,
    Effect.update e now
    = (Ok (Some (AnimationFrame.mk now
                   (map (fun _ => c) (Effect.pixel_indices e))
                   (Effect.pixel_indices e) 1 (Effect.effect_id e))), e) /\
    (let '(sr, sg, sb) := sc in
     let '(er, eg, eb) := ec in
     let '(r, g, b) := c in
     (Z.min sr er <= r <= Z.max sr er)%Z /\
     (Z.min sg eg <= g <= Z.max sg eg)%Z /\
     (Z.min sb eb <= b <= Z.max sb eb)%Z) /\
    (displayable sc -> displayable ec -> displayable c).
Proof.
  intros Hk Hs Hd Hnow Hxs Hxe.
  set (elapsed := Float.sub now (Effect.start_time e)).
  assert (He : 0 <= elapsed).
  { unfold elapsed, Float.sub. apply round_nonneg. lra. }
  assert (Ht : 0 <= elapsed / d)
    by (apply Qle_shift_div_l; [exact Hd | lra]).
  set (p := Qmin 1 (Float.div elapsed d)).
  destruct (ease_range (elapsed / d) Ht) as [Hw0 Hw1].
  change (Qmin 1 (Float.round (elapsed / d))) with p in Hw0, Hw1.
  exists (Effect.fade_color sc ec (Effect._ease_in_out p)).
  assert (Hb : let '(sr, sg, sb) := sc in
               let '(er, eg, eb) := ec in
               let '(r, g, b) :=
                 Effect.fade_color sc ec (Effect._ease_in_out p) in
               (Z.min sr er <= r <= Z.max sr er)%Z /\
               (Z.min sg eg <= g <= Z.max sg eg)%Z /\
               (Z.min sb eb <= b <= Z.max sb eb)%Z).
  { destruct sc as [[sr sg] sb], ec as [[er eg] eb].
    unfold exact_color in Hxs, Hxe. cbn [Effect.fade_color].
    repeat split; apply fade_channel_between; tauto. }
  split; [|split; [exact Hb|]].
  - unfold Effect.update. rewrite Hk, Hs. simpl negb. cbv iota.
    unfold Effect.fade_update.
    destruct (Qeq_bool d 0) eqn:E; [apply Qeq_bool_iff in E; lra|].
    reflexivity.
  - destruct sc as [[sr sg] sb], ec as [[er eg] eb].
    destruct (Effect.fade_color _ _ _) as [[r g] b].
    unfold displayable. intros Hsc Hec. lia.
Qed.

(** A two-second fade from (10, 200, 0) to (250, 0, 0), half a second in. *)
Lemma fade_between_its_colours_witness :
  let e := Effect.start
             (Effect.FadeEffect "home" (10, 200, 0)%Z (250, 0, 0)%Z 2
                                (Some [7%Z])) 3 in
  Effect.kind e = Effect.Fade (10, 200, 0)%Z (250, 0, 0)%Z 2 /\
  Effect.state e = RUNNING /\
  0 < 2 /\
  Effect.start_time e <= 3.5 /\
  exact_color (10, 200, 0)%Z /\ exact_color (250, 0, 0)%Z /\
  fst (Effect.update e 3.5)
  = Ok (Some (AnimationFrame.mk 3.5 [(47, 168, 0)%Z] [7%Z] 1 "home")).
Proof.
  intros e.
  assert (Hd : 0 < 2) by reflexivity.
  assert (Hn : Effect.start_time e <= 3.5) by (intro H; discriminate H).
  assert (H1 : exact_color (10, 200, 0)%Z)
    by (unfold exact_color; change (2 ^ 52)%Z with 4503599627370496%Z; lia).
  assert (H2 : exact_color (250, 0, 0)%Z)
    by (unfold exact_color; change (2 ^ 52)%Z with 4503599627370496%Z; lia).
  split; [reflexivity | split; [reflexivity | split; [exact Hd |
    split; [exact Hn | split; [exact H1 | split; [exact H2 |]]]]]].
  destruct (fade_between_its_colours e (10, 200, 0)%Z (250, 0, 0)%Z 2 3.5
              eq_refl eq_refl Hd Hn H1 H2) as (c & Hu & _ & _).
  assert (E : fst (Effect.update e 3.5)
              = Ok (Some (AnimationFrame.mk 3.5 [(47, 168, 0)%Z] [7%Z] 1 "home")))
    by (vm_compute; reflexivity).
  rewrite Hu. rewrite Hu in E. exact E.
Defined.

(** ** The effect table over the calls of a client *)

Section TableFacts.
Import AnimationController.

Lemma contains_false_iff (k : string) (l : table) :
  contains k l = false <-> ~ In k (map fst l).
Proof.
  unfold contains. induction l as [|[k' e] l IH]; simpl.
  - split; [intros _ [] | reflexivity].
  - destruct (String.eqb k k') eqn:E.
    + apply String.eqb_eq in E. subst k'. split; [discriminate|].
      intros H. exfalso. apply H. now left.
    + apply String.eqb_neq in E. rewrite IH. split.
      * intros H [H1|H1]; [congruence | contradiction].
      * intros H H1. apply H. now right.
Qed.

Lemma lookup_snoc (k k' : string) (e : Effect.t) (l : table) :
  lookup k' (l ++ [(k, e)])
  = match lookup k' l with
    | Some e' => Some e'
    | None => if String.eqb k' k then Some e else None
    end.
Proof.
  induction l as [|[k0 e0] l IH]; simpl; [reflexivity|].
  destruct (String.eqb k' k0); [reflexivity | exact IH].
Qed.

Lemma modify_snoc (k : string) (f : Effect.t -> Effect.t) (e : Effect.t)
    (l : table) :
  contains k l = false -> modify k f (l ++ [(k, e)]) = l ++ [(k, f e)].
Proof.
  unfold contains. induction l as [|[k0 e0] l IH]; simpl.
  - intros _. now rewrite String.eqb_refl.
  - destruct (String.eqb k k0); [discriminate|].
    intros H. now rewrite IH.
Qed.

Lemma delete_snoc (k : string) (e : Effect.t) (l : table) :
  contains k l = false -> delete k (l ++ [(k, e)]) = l.
Proof.
  unfold contains. induction l as [|[k0 e0] l IH]; simpl.
  - intros _. now rewrite String.eqb_refl.
  - destruct (String.eqb k k0); [discriminate|].
    intros H. now rewrite IH.
Qed.

Lemma set_effects_back (c : t) (l : table) :
  set_effects (set_effects c l) (effects c) = c.
Proof. destruct c. reflexivity. Qed.

End TableFacts.

(** X12.  Adding an effect whose id is not in the table succeeds, files the
    effect under its id and leaves every other id as it was; removing that
    id right after succeeds too and gives back the controller as it was
    before the addition. *)
Theorem add_then_remove_effect (c : AnimationController.t) (e : Effect.t) :
  AnimationController.contains (Effect.effect_id e)
                               (AnimationController.effects c) = false ->
  let c1 := snd (AnimationController.add_effect c e) in
  fst (AnimationController.add_effect c e) = true /\
  AnimationController.lookup (Effect.effect_id e)
                             (AnimationController.effects c1) = Some e /\
  (forall k, k <> Effect.effect_id e ->
             AnimationController.lookup k (AnimationController.effects c1)
             = AnimationController.lookup k (AnimationController.effects c)) /\
  AnimationController.remove_effect c1 (Effect.effect_id e) = (true, c).
Proof.
  intros Hnew c1. subst c1. unfold AnimationController.add_effect.
  rewrite Hnew. cbn [fst snd].
  assert (Hl : AnimationController.lookup (Effect.effect_id e)
                 (AnimationController.effects c) = None).
  { unfold AnimationController.contains in Hnew.
    destruct (AnimationController.lookup _ _); [discriminate | reflexivity]. }
  split; [reflexivity|]. split; [|split].
  - cbn [AnimationController.effects AnimationController.set_effects].
    rewrite lookup_snoc, Hl, String.eqb_refl. reflexivity.
  - intros k Hk.
    cbn [AnimationController.effects AnimationController.set_effects].
    rewrite lookup_snoc.
    destruct (AnimationController.lookup k _); [reflexivity|].
    apply String.eqb_neq in Hk. now rewrite Hk.
  - unfold AnimationController.remove_effect, AnimationController.contains.
    cbn [AnimationController.effects AnimationController.set_effects].
    rewrite lookup_snoc, Hl, String.eqb_refl. cbn [negb].
    rewrite modify_snoc, delete_snoc by exact Hnew.
    now rewrite set_effects_back.
Qed.

(** A controller that holds "home"; "wind" is added and removed. *)
Lemma add_then_remove_effect_witness :
  let home := Effect.FadeEffect "home" (0, 0, 0)%Z (0, 255, 0)%Z 2 None in
  let wind := Effect.WeatherEffect "wind" "snow" 1 None in
  exists c0,
    AnimationController.init None 30 0 0 = Ok c0 /\
    let c := snd (AnimationController.add_effect c0 home) in
    AnimationController.contains (Effect.effect_id wind)
                                 (AnimationController.effects c) = false /\
    AnimationController.remove_effect
      (snd (AnimationController.add_effect c wind)) "wind" = (true, c).
Proof.
  intros home wind. eexists. split; [reflexivity|]. intros c.
  assert (Hnew : AnimationController.contains (Effect.effect_id wind)
                   (AnimationController.effects c) = false) by reflexivity.
  split; [exact Hnew|].
  exact (proj2 (proj2 (proj2 (add_then_remove_effect c wind Hnew)))).
Defined.

Section FilingFacts.
Import AnimationController.

Lemma well_keyed_filing (l l' : table) :
  filing l' = filing l -> well_keyed l -> well_keyed l'.
Proof.
  unfold well_keyed, filing. intros H [Hn Hf].
  assert (Hk : map fst l' = map fst l).
  { apply (f_equal (map fst)) in H. now rewrite !map_map in H. }
  split; [now rewrite Hk|].
  clear Hn Hk. revert l' H.
  induction l as [|[k e] l IH]; intros [|[k' e'] l'] H; simpl in H;
    try discriminate; constructor.
  - injection H as -> Hid _. inversion Hf; subst. simpl in *. congruence.
  - injection H as _ _ Ht. inversion Hf; subst. now apply IH.
Qed.

(** [update] of an effect writes neither its id nor its state. *)
Lemma effect_update_keeps (e : Effect.t) (now : Q) :
  Effect.effect_id (snd (Effect.update e now)) = Effect.effect_id e /\
  Effect.state (snd (Effect.update e now)) = Effect.state e.
Proof.
  unfold Effect.update.
  destruct (Effect.kind e); try destruct (negb _); try destruct (Z.leb _ _);
    split; reflexivity.
Qed.

Lemma update_effect_keeps_id (e : Effect.t) (now : Q) :
  Effect.effect_id (snd (update_effect e now)) = Effect.effect_id e.
Proof.
  unfold update_effect.
  destruct (effect_update_keeps e now) as [Hid _].
  destruct (AnimationState_eqb (Effect.state e) RUNNING).
  - destruct (Effect.update e now) as [[f|x] e1]; cbn [snd] in Hid;
      destruct (Effect.is_complete _ now); exact Hid.
  - destruct (Effect.is_complete e now); reflexivity.
Qed.

Lemma update_effects_filing (l : table) (now : Q) :
  filing (snd (update_effects l now)) = filing l.
Proof.
  induction l as [|[k e] l IH]; [reflexivity|].
  rewrite update_effects_cons. cbn [snd filing map fst].
  unfold filing in IH. rewrite IH, update_effect_keeps_id. reflexivity.
Qed.

Lemma modify_filing (k : string) (f : Effect.t -> Effect.t) (l : table) :
  (forall e, Effect.effect_id (f e) = Effect.effect_id e) ->
  filing (modify k f l) = filing l.
Proof.
  intros Hf. induction l as [|[k0 e0] l IH]; [reflexivity|].
  cbn [modify]. destruct (String.eqb k k0).
  - unfold filing. cbn [map fst snd]. now rewrite Hf.
  - unfold filing in *. cbn [map fst snd]. now rewrite IH.
Qed.

Lemma delete_well_keyed (k : string) (l : table) :
  well_keyed l -> well_keyed (delete k l).
Proof.
  unfold well_keyed. induction l as [|[k0 e0] l IH]; intros [Hn Hf];
    [split; assumption|].
  simpl in *. inversion Hn as [|? ? Hnotin Hn']; subst.
  inversion Hf as [|? ? Hhd Hf']; subst.
  destruct (String.eqb k k0); [split; assumption|].
  destruct (IH (conj Hn' Hf')) as [IH1 IH2].
  split; [|constructor; assumption].
  simpl. constructor; [|exact IH1].
  intros Hin. apply Hnotin. clear -Hin.
  induction l as [|[k1 e1] l IHl]; [contradiction|].
  simpl in *. destruct (String.eqb k k1); [now right|].
  destruct Hin as [H|H]; [now left | right; now apply IHl].
Qed.

Lemma add_well_keyed (e : Effect.t) (l : table) :
  contains (Effect.effect_id e) l = false ->
  well_keyed l -> well_keyed (l ++ [(Effect.effect_id e, e)]).
Proof.
  intros Hc [Hn Hf]. apply contains_false_iff in Hc. split.
  - rewrite map_app. simpl. apply NoDup_app; [exact Hn | | ].
    + repeat constructor. intros [].
    + intros k Hk [<-|[]]. contradiction.
  - apply Forall_app. split; [exact Hf | repeat constructor].
Qed.

(** [update] leaves the keys and the ids of the table as they were. *)
Lemma update_filing (c : t) (w : reads) :
  filing (effects (snd (update c w))) = filing (effects c).
Proof.
  unfold update.
  destruct (negb (AnimationState_eqb (state c) RUNNING)); [reflexivity|].
  destruct (FrameRateLimiter.wait_for_next_frame _ _ _) as [[[|]|x] l];
    try reflexivity.
  change (effects (set_frame_limiter c l)) with (effects c).
  pose proof (update_effects_filing (effects c)
                (SharedClock.get_time (shared_clock (set_frame_limiter c l))
                                      (t_clock w))) as H.
  destruct (update_effects (effects c) _) as [fs tbl]. cbn [snd] in H.
  destruct fs as [|f fs].
  - unfold _update_performance_metrics.
    destruct (Qle_bool _ _); exact H.
  - destruct (_combine_effects _ _) as [cf|x]; [|exact H].
    unfold _update_performance_metrics, _render_frame.
    destruct cf as [cf|];
      destruct (led_controller (set_effects (set_frame_limiter c l) tbl));
      destruct (Qle_bool _ _); exact H.
Qed.

Lemma controller_step_well_keyed (c : t) (o : controller_op) :
  well_keyed (effects c) -> well_keyed (effects (controller_step c o)).
Proof.
  intros H. destruct o as [e|k|k wall|k|wall|w]; simpl.
  - unfold add_effect.
    destruct (contains (Effect.effect_id e) (effects c)) eqn:E; [exact H|].
    now apply add_well_keyed.
  - unfold remove_effect. destruct (negb _); [exact H|].
    apply delete_well_keyed.
    apply (well_keyed_filing (effects c)); [|exact H].
    now apply modify_filing.
  - unfold start_effect. destruct (negb _); [exact H|].
    apply (well_keyed_filing (effects c)); [|exact H].
    now apply modify_filing.
  - unfold stop_effect. destruct (negb _); [exact H|].
    apply (well_keyed_filing (effects c)); [|exact H].
    now apply modify_filing.
  - exact H.
  - apply (well_keyed_filing (effects c)); [|exact H].
    apply update_filing.
Qed.

End FilingFacts.

(** X13.  Whatever a client calls on a controller (adding, removing,
    starting and stopping effects, starting the animation, ticks), the table
    keeps every effect filed under its own id and no id filed twice. *)
Theorem effect_table_stays_well_keyed (c : AnimationController.t)
    (ops : list controller_op) :
  well_keyed (AnimationController.effects c) ->
  well_keyed (AnimationController.effects (controller_run c ops)).
Proof.
  revert c. induction ops as [|o ops IH]; intros c H; [exact H|].
  simpl. apply IH. now apply controller_step_well_keyed.
Qed.

(** A new controller; "home" is added twice, started, ticked, and "wind"
    is removed without having been added. *)
Lemma effect_table_stays_well_keyed_witness :
  let home := Effect.FadeEffect "home" (0, 0, 0)%Z (0, 255, 0)%Z 2 None in
  let ops := [AddEffect home; AddEffect home; StartAnimation 1;
              StartEffect "home" 1;
              Update (AnimationController.mk_reads 2 2 2 2);
              RemoveEffect "wind"] in
  exists c0,
    AnimationController.init (Some (LedStrip.mk 3 [])) 30 0 0 = Ok c0 /\
    well_keyed (AnimationController.effects c0) /\
    map fst (AnimationController.effects (controller_run c0 ops))
    = ["home"%string] /\
    well_keyed (AnimationController.effects (controller_run c0 ops)).
Proof.
  intros home ops. eexists. split; [reflexivity|].
  match goal with
  | |- well_keyed (AnimationController.effects ?c) /\ _ => set (c0 := c)
  end.
  assert (H0 : well_keyed (AnimationController.effects c0))
    by (split; constructor).
  split; [exact H0|]. split; [reflexivity|].
  exact (effect_table_stays_well_keyed c0 ops H0).
Defined.

(** ** What a tick does to the effects and to the driver *)

Section TickEffects.
Import AnimationController.

(** The loop body: a completed effect leaves it stopped, an effect that
    leaves it running entered it running, and an effect that is neither
    running nor complete is not touched and gives no frame. *)
Lemma update_effect_post (e : Effect.t) (now : Q) :
  let f := fst (update_effect e now) in
  let e' := snd (update_effect e now) in
  (Effect.is_complete e' now = true -> Effect.state e' = STOPPED) /\
  (Effect.state e' = RUNNING -> Effect.state e = RUNNING) /\
  (Effect.state e <> RUNNING ->
   f = None /\ (Effect.is_complete e now = false -> e' = e)).
Proof.
  unfold update_effect.
  destruct (effect_update_keeps e now) as [_ Hst].
  destruct (AnimationState_eqb (Effect.state e) RUNNING) eqn:Er.
  - apply running_eqb in Er.
    destruct (Effect.update e now) as [[f|x] e1]; cbn [snd] in Hst.
    + destruct (Effect.is_complete e1 now) eqn:Ec; cbn [fst snd];
        (split; [| split; [intros _; exact Er | intros Hn; contradiction]]).
      * intros _. reflexivity.
      * congruence.
    + destruct (Effect.is_complete (Effect.set_state e1 ERROR) now) eqn:Ec;
        cbn [fst snd];
        (split; [| split; [intros _; exact Er | intros Hn; contradiction]]).
      * intros _. reflexivity.
      * congruence.
  - destruct (Effect.is_complete e now) eqn:Ec; cbn [fst snd].
    + split; [intros _; reflexivity|].
      split; [discriminate|].
      intros _. split; [reflexivity | discriminate].
    + split; [congruence|].
      split; [intros H; exact H|].
      intros _. split; reflexivity.
Qed.

End TickEffects.

(** X14.  The loop of a tick keeps the table entry by entry.  After it,
    every effect that is complete at the time of the tick is stopped,
    whatever its state was; an effect that is running was running before;
    and an effect that was neither running nor complete is as it was.  The
    frames of the tick number at most the effects that were running. *)
Theorem tick_retires_completed_effects (effects : AnimationController.table)
    (now : Q) :
  let frames := fst (AnimationController.update_effects effects now) in
  let effects' := snd (AnimationController.update_effects effects now) in
  Forall2
    (fun ke ke' =>
       fst ke' = fst ke /\
       (Effect.is_complete (snd ke') now = true ->
        Effect.state (snd ke') = STOPPED) /\
       (Effect.state (snd ke') = RUNNING -> Effect.state (snd ke) = RUNNING) /\
       (Effect.state (snd ke) <> RUNNING ->
        Effect.is_complete (snd ke) now = false -> snd ke' = snd ke))
    effects effects' /\
  (List.length frames
   <= List.length
        (filter (fun ke => AnimationState_eqb (Effect.state (snd ke)) RUNNING)
                effects))%nat.
Proof.
  induction effects as [|[k e] effects IH]; [split; [constructor | simpl; lia]|].
  cbv zeta in *. rewrite update_effects_cons. cbn [fst snd].
  destruct IH as [IH1 IH2].
  destruct (update_effect_post e now) as (H1 & H2 & H3).
  split.
  - constructor; [|exact IH1]. cbn [fst snd].
    repeat split; try assumption. intros Hn Hc. now apply H3.
  - cbn [filter snd].
    destruct (AnimationState_eqb (Effect.state e) RUNNING) eqn:Er.
    + destruct (fst (AnimationController.update_effect e now));
        simpl; lia.
    + assert (Hn : Effect.state e <> RUNNING).
      { intros H. apply running_eqb in H. congruence. }
      destruct (H3 Hn) as [-> _]. exact IH2.
Qed.

(** X15.  A tick of a running controller in which no effect is running
    returns [True] and sends nothing to the pixel driver: the driver, the
    current frame and the clock are as before, and so is every effect that
    is not complete. *)
Theorem idle_tick_sends_nothing (c : AnimationController.t)
    (w : AnimationController.reads) :
  AnimationController.state c = RUNNING ->
  fst (FrameRateLimiter.wait_for_next_frame
         (AnimationController.frame_limiter c)
         (AnimationController.t_in w) (AnimationController.t_out w))
  = Ok true ->
  Forall (fun ke => Effect.state (snd ke) <> RUNNING)
         (AnimationController.effects c) ->
  let c' := snd (AnimationController.update c w) in
  fst (AnimationController.update c w) = Ok true /\
  AnimationController.led_controller c' = AnimationController.led_controller c /\
  AnimationController.current_frame c' = AnimationController.current_frame c /\
  AnimationController.shared_clock c' = AnimationController.shared_clock c /\
  AnimationController.effects c'
  = snd (AnimationController.update_effects
           (AnimationController.effects c)
           (SharedClock.get_time (AnimationController.shared_clock c)
                                 (AnimationController.t_clock w))).
Proof.
  intros Hs Hl Hidle c'.
  set (now := SharedClock.get_time (AnimationController.shared_clock c)
                                   (AnimationController.t_clock w)).
  assert (Hf : fst (AnimationController.update_effects
                      (AnimationController.effects c) now) = []).
  { pose proof (proj2 (tick_retires_completed_effects
                         (AnimationController.effects c) now)) as Hlen.
    cbv zeta in Hlen.
    assert (Hz : filter (fun ke => AnimationState_eqb (Effect.state (snd ke))
                                                      RUNNING)
                        (AnimationController.effects c) = []).
    { clear -Hidle. induction Hidle as [|ke l Hke _ IH]; [reflexivity|].
      simpl. destruct (AnimationState_eqb _ RUNNING) eqn:E; [|exact IH].
      apply running_eqb in E. contradiction. }
    rewrite Hz in Hlen.
    destruct (fst (AnimationController.update_effects _ now));
      [reflexivity | simpl in Hlen; lia]. }
  destruct (FrameRateLimiter.wait_for_next_frame _ _ _) as [r l] eqn:Ew.
  cbn [fst] in Hl. subst r.
  pose proof (update_runs c w l Hs Ew) as Hu. cbv zeta in Hu.
  fold now in Hu. rewrite Hf in Hu.
  subst c'. rewrite Hu. cbn [fst snd].
  unfold AnimationController._update_performance_metrics.
  destruct (Qle_bool _ _); repeat split; reflexivity.
Qed.

(** A running controller whose only effect was added and never started. *)
Lemma idle_tick_sends_nothing_witness :
  let home := Effect.FadeEffect "home" (0, 0, 0)%Z (0, 255, 0)%Z 2 None in
  let c := AnimationController.mk (Some (LedStrip.mk 3 [])) 30
             (FrameRateLimiter.mk 30 (1 / 30) 0 0 0.1) (SharedClock.init 0)
             [("home"%string, home)] None RUNNING 0 0 0 in
  let w := AnimationController.mk_reads 2 2 2 2 in
  AnimationController.state c = RUNNING /\
  Forall (fun ke => Effect.state (snd ke) <> RUNNING)
         (AnimationController.effects c) /\
  fst (AnimationController.update c w) = Ok true /\
  AnimationController.led_controller (snd (AnimationController.update c w))
  = Some (LedStrip.mk 3 []).
Proof.
  intros home c w.
  assert (Hidle : Forall (fun ke => Effect.state (snd ke) <> RUNNING)
                         (AnimationController.effects c))
    by (repeat constructor; discriminate).
  split; [reflexivity | split; [exact Hidle |]].
  destruct (idle_tick_sends_nothing c w eq_refl eq_refl Hidle)
    as (H1 & H2 & _).
  split; [exact H1 | exact H2].
Defined.

Section RenderFacts.
Import AnimationController.

Lemma send_pixels_requests (indices : list Z) :
  forall (pixels : list color) (led : LedStrip.t),
    LedStrip.number (send_pixels led indices pixels) = LedStrip.number led /\
    LedStrip.requests (send_pixels led indices pixels)
    = LedStrip.requests led
      ++ map (fun ip => LedStrip.SetPixelColor (fst ip) (snd ip))
             (combine indices pixels).
Proof.
  induction indices as [|i indices IH]; intros [|p pixels] led; simpl;
    try (split; [reflexivity | now rewrite app_nil_r]).
  destruct (IH pixels (LedStrip.set_pixel_color led i p)) as [H1 H2].
  rewrite H1, H2. simpl. rewrite <- app_assoc. split; reflexivity.
Qed.

Lemma combine_seq_nth (px : list color) :
  forall a : nat,
    combine (map Z.of_nat (seq a (List.length px))) px
    = map (fun k => (Z.of_nat k, nth (k - a) px black))
          (seq a (List.length px)).
Proof.
  induction px as [|p px IH]; intros a; [reflexivity|].
  simpl. rewrite Nat.sub_diag. f_equal.
  rewrite IH. apply map_ext_in. intros k Hk. apply in_seq in Hk.
  replace (k - a)%nat with (S (k - S a)) by lia. reflexivity.
Qed.

Lemma rendered_pixels (f : AnimationFrame.t) :
  AnimationFrame.pixels
    (if negb (Qeq_bool (AnimationFrame.brightness f) 1)
     then AnimationFrame.set_pixels f
            (map (scale (AnimationFrame.brightness f)) (AnimationFrame.pixels f))
     else f)
  = map (rendered (AnimationFrame.brightness f)) (AnimationFrame.pixels f).
Proof.
  unfold rendered. destruct (negb _); [reflexivity|].
  simpl. symmetry. apply map_id.
Qed.

(** Scaling a displayable colour by a brightness from 0 to 1 gives a
    displayable colour, each channel the integer part of a value within the
    slack of the exact product. *)
Lemma scale_channel_near (r : Z) (b : Q) :
  (0 <= r <= 255)%Z -> 0 <= b -> b <= 1 ->
  let y := Float.mul (Float.of_int r) b in
  (0 <= py_int y <= 255)%Z /\ truncates_near (py_int y) (inject_Z r * b).
Proof.
  intros Hr H0 H1 y.
  assert (Er : Float.of_int r == inject_Z r)
    by (apply round_Z; change (2 ^ 53)%Z with 9007199254740992%Z; lia).
  pose proof (inject_Z_range r 0 255 Hr) as Br.
  change (inject_Z 0) with 0 in Br. change (inject_Z 255) with 255 in Br.
  assert (Ey : y = Float.round (inject_Z r * b)).
  { unfold y, Float.mul. apply round_comp. now rewrite Er. }
  rewrite Ey. set (R := inject_Z r) in *.
  assert (F0 : Float.round 0 == 0) by reflexivity.
  assert (Fb : Float.round 255 == 255) by reflexivity.
  pose proof (round_le 0 (R * b) ltac:(nra)) as Y0. rewrite F0 in Y0.
  pose proof (round_le (R * b) 255 ltac:(nra)) as Y1. rewrite Fb in Y1.
  split; [now apply py_int_bounds|].
  apply (near_of_bound _ _ 256); [|intro H; discriminate H].
  rewrite <- ulp_45. apply (round_near (R * b) 8); [lia|].
  change (2 ^ 8) with 256. apply Qabs_Qle_condition. split; nra.
Qed.

Lemma scale_near (b : Q) (p : color) :
  displayable p -> 0 <= b -> b <= 1 ->
  displayable (scale b p) /\
  near_color (scale b p)
    (let '(r, g, b') := p in
     (inject_Z r * b, inject_Z g * b, inject_Z b' * b)).
Proof.
  intros Hp H0 H1. destruct p as [[r g] b']. unfold displayable in Hp.
  destruct Hp as (Hr & Hg & Hb).
  destruct (scale_channel_near r b Hr H0 H1) as [R1 R2].
  destruct (scale_channel_near g b Hg H0 H1) as [G1 G2].
  destruct (scale_channel_near b' b Hb H0 H1) as [B1 B2].
  unfold scale, displayable, near_color. tauto.
Qed.

End RenderFacts.

(** X16.  When the compositor returns a frame for a pixel driver of [n]
    pixels, rendering it sends the driver one request per pixel of the
    strip, for the indices 0 to [n - 1] in order, each index one the driver
    accepts, followed by one request to show them.  The colour sent is the
    combined colour, scaled by the brightness of the frame when that is not
    1, and the frame sent becomes the current frame.  Scaling a displayable
    colour by a brightness from 0 to 1 sends a displayable colour, each
    channel the integer part of a value within the rounding slack of the
    exact product. *)
Theorem render_covers_strip_in_order (c : AnimationController.t)
    (led : LedStrip.t) (frames : list AnimationFrame.t)
    (cf : AnimationFrame.t) :
  AnimationController.led_controller c = Some led ->
  AnimationController._combine_effects c frames = Ok (Some cf) ->
  let n := Z.to_nat (LedStrip.number led) in
  let sent := map (rendered (AnimationFrame.brightness cf))
                  (AnimationFrame.pixels cf) in
  let c' := AnimationController._render_frame c (Some cf) in
  List.length sent = n /\
  AnimationController.led_controller c'
  = Some (LedStrip.mk (LedStrip.number led)
            (LedStrip.requests led
             ++ map (fun k => LedStrip.SetPixelColor (Z.of_nat k)
                                                     (nth k sent black))
                    (seq 0 n)
             ++ [LedStrip.ShowPixels])) /\
  Forall (fun k => _validate_pixel_index (LedStrip.number led) (Z.of_nat k)
                   = true) (seq 0 n) /\
  AnimationController.current_frame c'
  = Some (AnimationFrame.set_pixels cf sent) /\
  (0 <= AnimationFrame.brightness cf -> AnimationFrame.brightness cf <= 1 ->
   Forall2 (fun p s =>
              displayable p ->
              displayable s /\
              near_color s
                (let '(r, g, b) := p in
                 (inject_Z r * AnimationFrame.brightness cf,
                  inject_Z g * AnimationFrame.brightness cf,
                  inject_Z b * AnimationFrame.brightness cf)))
           (AnimationFrame.pixels cf) sent).
Proof.
  intros Hled Hcf n sent c'.
  destruct (combine_effects_inv c led frames cf Hled Hcf)
    as (keyed & combined & rest & _ & _ & Ha & Hcfeq).
  fold n in Ha, Hcfeq. rewrite apply_frames_pairs in Ha.
  pose proof (apply_pairs_length _ _ _ Ha) as Hlen.
  rewrite repeat_length in Hlen.
  assert (Hsent : List.length sent = n)
    by (unfold sent; now rewrite length_map).
  assert (Hidx : AnimationFrame.indices cf = Effect.range n)
    by (rewrite Hcfeq; reflexivity).
  split; [exact Hsent|]. split; [|split; [|split]].
  - subst c'. unfold AnimationController._render_frame. rewrite Hled.
    cbn [AnimationController.led_controller AnimationController.set_rendered].
    f_equal.
    set (f1 := if negb (Qeq_bool (AnimationFrame.brightness cf) 1)
               then _ else cf).
    assert (Hp : AnimationFrame.pixels f1 = sent) by apply rendered_pixels.
    assert (Hi : AnimationFrame.indices f1 = Effect.range n).
    { subst f1. destruct (negb _); exact Hidx. }
    rewrite Hp, Hi.
    destruct (send_pixels_requests (Effect.range n) sent led) as [H1 H2].
    unfold LedStrip.show_pixels. rewrite H1, H2, <- app_assoc.
    f_equal. f_equal. f_equal.
    unfold Effect.range. rewrite <- Hsent at 1.
    rewrite (combine_seq_nth sent 0), map_map, Hsent.
    apply map_ext. intros k. cbn [fst snd]. now rewrite Nat.sub_0_r.
  - apply Forall_forall. intros k Hk. apply in_seq in Hk.
    unfold _validate_pixel_index.
    replace (Z.of_nat k <? 0)%Z with false by (symmetry; apply Z.ltb_ge; lia).
    replace (LedStrip.number led <=? Z.of_nat k)%Z with false
      by (symmetry; apply Z.leb_gt; lia).
    reflexivity.
  - subst c'. unfold AnimationController._render_frame. rewrite Hled.
    cbn [AnimationController.current_frame AnimationController.set_rendered].
    f_equal. unfold sent, rendered, AnimationFrame.set_pixels.
    destruct (negb _); [reflexivity|].
    rewrite map_id. now destruct cf.
  - intros Hb0 Hb1. unfold sent. clear - Hb0 Hb1.
    generalize (AnimationFrame.pixels cf) as px.
    induction px as [|p px IH]; simpl; constructor; [|exact IH].
    intros Hp. unfold rendered.
    destruct (negb (Qeq_bool (AnimationFrame.brightness cf) 1)) eqn:E.
    + apply scale_near; assumption.
    + apply negb_false_iff, Qeq_bool_iff in E. split; [exact Hp|].
      destruct p as [[r g] b]. unfold near_color.
      repeat split;
        (eexists; split; [symmetry; apply py_int_inject_Z|];
         rewrite E;
         match goal with
         | |- Qabs (?x - ?x * 1) <= _ =>
             assert (E0 : x - x * 1 == 0) by ring; rewrite E0
         end; intro H; discriminate H).
Qed.

(** A strip of three pixels and a rain frame at half intensity: the
    combined colours are halved on the way to the driver. *)
Lemma render_covers_strip_in_order_witness :
  let led := LedStrip.mk 3 [] in
  let rain := Effect.WeatherEffect "alert" "rain" 0.5 (Some [1%Z]) in
  let c := AnimationController.mk (Some led) 30
             (FrameRateLimiter.mk 30 (1 / 30) 0 0 0.1) (SharedClock.init 0)
             [("alert"%string, rain)] None RUNNING 0 0 0 in
  let f := AnimationFrame.mk 2 [(0, 0, 200)%Z] [1%Z] 0.5 "alert" in
  let cf := AnimationFrame.mk 2 [(0, 0, 0); (0, 0, 100); (0, 0, 0)]%Z
                              [0; 1; 2]%Z 0.5 "combined" in
  AnimationController.led_controller c = Some led /\
  AnimationController._combine_effects c [f] = Ok (Some cf) /\
  AnimationController.led_controller
    (AnimationController._render_frame c (Some cf))
  = Some (LedStrip.mk 3 [LedStrip.SetPixelColor 0 (0, 0, 0)%Z;
                         LedStrip.SetPixelColor 1 (0, 0, 50)%Z;
                         LedStrip.SetPixelColor 2 (0, 0, 0)%Z;
                         LedStrip.ShowPixels]).
Proof.
  intros led rain c f cf.
  split; [reflexivity | split; [reflexivity |]].
  exact (eq_trans
           (proj1 (proj2 (render_covers_strip_in_order c led [f] cf
                            eq_refl eq_refl)))
           eq_refl).
Defined.

(** X17.  [stop_animation], called by a thread that does not hold the lock
    of the controller, takes the lock, sets the state to STOPPED and then
    waits for the same lock in [stop_all_effects]: it never returns, no
    effect is stopped and the clock is not paused.  [emergency_shutdown]
    starts with that call and so never asks the driver to clear.
    [stop_all_effects] on its own returns with every effect stopped. *)
Theorem stop_animation_waits_for_its_own_lock (c : AnimationController.t)
    (wall : Q) :
  stop_animation false c wall
  = Blocks (AnimationController.set_state c STOPPED) /\
  emergency_shutdown false c wall
  = Blocks (AnimationController.set_state c STOPPED) /\
  exists c',
    stop_all_effects false c = Returns c' /\
    map fst (AnimationController.effects c')
    = map fst (AnimationController.effects c) /\
    Forall (fun ke => Effect.state (snd ke) = STOPPED)
           (AnimationController.effects c').
Proof.
  split; [reflexivity|]. split; [reflexivity|].
  eexists. split; [reflexivity|].
  cbn [AnimationController.effects AnimationController.set_effects].
  split.
  - rewrite map_map. reflexivity.
  - apply Forall_map, Forall_forall. intros ke _. reflexivity.
Qed.

Section TickReturns.
Import AnimationController.

(** A frame returned by one of the four effect classes carries the id and
    the pixel indices of its effect. *)
Lemma effect_update_frame (e : Effect.t) (now : Q) (f : AnimationFrame.t) :
  match Effect.kind e with Effect.Custom _ _ => False | _ => True end ->
  fst (Effect.update e now) = Ok (Some f) ->
  AnimationFrame.effect_id f = Effect.effect_id e /\
  AnimationFrame.indices f = Effect.pixel_indices e.
Proof.
  unfold Effect.update.
  destruct (Effect.kind e) as [col dc br p | ty i ph | sc ec d
                              | data m cur fs | upd done];
    intros Hb; [| | | | contradiction];
    destruct (negb (AnimationState_eqb (Effect.state e) RUNNING));
    cbn [fst]; try discriminate.
  - unfold Effect.blink_update. destruct (Qeq_bool p 0); [discriminate|].
    intros [= <-]. split; reflexivity.
  - intros [= <-]. split; reflexivity.
  - unfold Effect.fade_update. destruct (Qeq_bool d 0); [discriminate|].
    intros [= <-]. split; reflexivity.
  - destruct (Z.leb m cur); cbn [fst]; [discriminate|].
    intros [= <-]. split; reflexivity.
Qed.

Lemma update_effect_frame (e : Effect.t) (now : Q) (f : AnimationFrame.t) :
  match Effect.kind e with Effect.Custom _ _ => False | _ => True end ->
  fst (update_effect e now) = Some f ->
  AnimationFrame.effect_id f = Effect.effect_id e /\
  AnimationFrame.indices f = Effect.pixel_indices e.
Proof.
  intros Hb. unfold update_effect.
  pose proof (effect_update_frame e now f Hb) as H.
  destruct (AnimationState_eqb (Effect.state e) RUNNING).
  - destruct (Effect.update e now) as [[o|x] e1]; cbn [fst] in H.
    + destruct (Effect.is_complete e1 now); cbn [fst];
        intros ->; now apply H.
    + destruct (Effect.is_complete _ now); discriminate.
  - destruct (Effect.is_complete e now); discriminate.
Qed.

Lemma update_effects_frames (l : table) (now : Q) (f : AnimationFrame.t) :
  Forall (fun ke => match Effect.kind (snd ke) with
                    | Effect.Custom _ _ => False
                    | _ => True
                    end) l ->
  In f (fst (update_effects l now)) ->
  exists ke, In ke l /\
             AnimationFrame.effect_id f = Effect.effect_id (snd ke) /\
             AnimationFrame.indices f = Effect.pixel_indices (snd ke).
Proof.
  induction l as [|[k e] l IH]; intros Hb Hin; [contradiction|].
  inversion Hb as [|? ? Hbe Hbl]; subst. cbn [snd] in Hbe.
  rewrite update_effects_cons in Hin. cbn [fst] in Hin.
  destruct (fst (update_effect e now)) as [f0|] eqn:Ef.
  - destruct Hin as [<-|Hin].
    + exists (k, e). split; [now left|]. now apply (update_effect_frame e now).
    + destruct (IH Hbl Hin) as (ke & Hke & H). exists ke.
      split; [now right | exact H].
  - destruct (IH Hbl Hin) as (ke & Hke & H). exists ke.
    split; [now right | exact H].
Qed.

End TickReturns.

(** X18.  A tick of a running controller returns [True], and raises
    nothing, when the stall counter of the limiter is below ten on entry, a
    pixel driver of [n] pixels is present, the table is well keyed and holds
    effects of the four classes only, none with a pixel index below [-n]:
    what an effect raises is caught, every frame finds the priority of its
    effect, and every index can be written or is skipped. *)
Theorem update_returns_true (c : AnimationController.t)
    (w : AnimationController.reads) (led : LedStrip.t) :
  AnimationController.state c = RUNNING ->
  (FrameRateLimiter.frame_skip_count (AnimationController.frame_limiter c)
   <= 9)%Z ->
  AnimationController.led_controller c = Some led ->
  well_keyed (AnimationController.effects c) ->
  Forall (fun ke =>
            match Effect.kind (snd ke) with
            | Effect.Custom _ _ => False
            | _ => True
            end /\
            Forall (fun i => (- Z.of_nat (Z.to_nat (LedStrip.number led)) <= i)%Z)
                   (Effect.pixel_indices (snd ke)))
         (AnimationController.effects c) ->
  fst (AnimationController.update c w) = Ok true.
Proof.
  intros Hs Hskip Hled Hwk Hall.
  pose proof (wait_returns (AnimationController.frame_limiter c)
                (AnimationController.t_in w) (AnimationController.t_out w)
                Hskip) as Hw.
  destruct (FrameRateLimiter.wait_for_next_frame _ _ _) as [r l] eqn:Ew.
  cbn [fst] in Hw. subst r.
  rewrite (update_runs c w l Hs Ew). cbv zeta.
  set (now := SharedClock.get_time (AnimationController.shared_clock c)
                                   (AnimationController.t_clock w)).
  pose proof (update_effects_filing (AnimationController.effects c) now) as Hfil.
  assert (Hfr : forall f,
            In f (fst (AnimationController.update_effects
                         (AnimationController.effects c) now)) ->
            exists ke, In ke (AnimationController.effects c) /\
              AnimationFrame.effect_id f = Effect.effect_id (snd ke) /\
              AnimationFrame.indices f = Effect.pixel_indices (snd ke)).
  { intros f. apply update_effects_frames.
    eapply Forall_impl; [|exact Hall]. intros ke [H _]. exact H. }
  destruct (AnimationController.update_effects
              (AnimationController.effects c) now) as [frames tbl].
  cbn [fst snd] in *.
  destruct frames as [|f0 frames]; [reflexivity|].
  set (c2 := AnimationController.set_effects
               (AnimationController.set_frame_limiter c l) tbl).
  destruct (combine_effects_returns c2 led (f0 :: frames)) as [cf Hcf].
  - exact Hled.
  - discriminate.
  - intros f Hf. destruct (Hfr f Hf) as (ke & Hke & Hid & _).
    cbn [AnimationController.effects AnimationController.set_effects c2].
    destruct (AnimationController.contains (AnimationFrame.effect_id f) tbl)
      eqn:E; [reflexivity|].
    apply contains_false_iff in E. exfalso. apply E.
    assert (Hk : map fst tbl = map fst (AnimationController.effects c)).
    { apply (f_equal (map fst)) in Hfil. unfold filing in Hfil.
      now rewrite !map_map in Hfil. }
    rewrite Hk, Hid.
    destruct Hwk as [_ Hown]. rewrite Forall_forall in Hown.
    rewrite <- (Hown ke Hke). now apply in_map.
  - intros f i Hf Hi. destruct (Hfr f Hf) as (ke & Hke & _ & Hix).
    rewrite Forall_forall in Hall. destruct (Hall ke Hke) as [_ Hrange].
    rewrite Forall_forall in Hrange. apply Hrange. now rewrite <- Hix.
  - rewrite Hcf. reflexivity.
Qed.

(** A strip of three pixels; a fade whose duration is zero, so that its
    update raises, next to a heat map with an index past the strip. *)
Lemma update_returns_true_witness :
  let led := LedStrip.mk 3 [] in
  let heat := Effect.start
                (Effect.HeatMapEffect "heat" [0; 1] 100 (Some [1; 7]%Z)) 1 in
  let home := Effect.start
                (Effect.FadeEffect "home" (255, 0, 0)%Z (255, 0, 0)%Z 0
                                   (Some [2%Z])) 1 in
  let c := AnimationController.mk (Some led) 30
             (FrameRateLimiter.mk 30 (1 / 30) 0 0 0.1) (SharedClock.init 0)
             [("heat"%string, heat); ("home"%string, home)]
             None RUNNING 0 0 0 in
  AnimationController.state c = RUNNING /\
  well_keyed (AnimationController.effects c) /\
  fst (AnimationController.update c (AnimationController.mk_reads 2 2 2 2))
  = Ok true.
Proof.
  intros led heat home c.
  assert (Hwk : well_keyed (AnimationController.effects c)).
  { split.
    - repeat constructor; simpl; intuition discriminate.
    - repeat constructor. }
  split; [reflexivity | split; [exact Hwk |]].
  apply (update_returns_true c _ led eq_refl).
  - simpl. lia.
  - reflexivity.
  - exact Hwk.
  - repeat constructor; simpl; lia.
Defined.
